(** * qutIM configuration store (core/libqutim/config.cpp)

    A shallow embedding of the layered configuration store: the tagged
    [ConfigAtom] nodes living behind shared pointers, the [ConfigLevel]
    navigation frames, the [ConfigSource] documents with their cache and
    deferred save, and the [Config] cursor operations.

    Shared pointers are addresses into an explicit store, so that two
    handles on one atom observe each other's writes.  Every function that
    can trip a [Q_ASSERT], dereference a null pointer or recurse through
    the store is run in a small state-and-fault monad. *)

From Stdlib Require Import ZArith Ascii String.
From stdpp Require Import gmap strings pretty list fin_maps sorting.

Set Warnings "-register-all,-clear-no-such-hyp".

(** ** Tree values ([QVariant]) *)

Inductive QVariant {scalar : Type} :=
| QInvalid
| QScalar (s : scalar)
| QMapV (m : gmap string QVariant)
| QListV (l : list QVariant).
Arguments QVariant scalar : clear implicits.

(** The scalar payloads a [QVariant] can carry are Qt's affair; the store
    only needs [QVariant::isNull] of them and [QVariant::operator==] where
    a scalar stands on one side at least.  That comparison converts the
    right operand to the type of the left one before it compares (a number
    and the string that spells it are equal), takes a null and an empty
    string for equal and a NaN for different from itself: nothing is
    assumed of [scalar_cmp], not even that it is reflexive. *)
Class ScalarSpace (scalar : Type) := {
  scalar_eq_dec :: EqDecision scalar;
  scalar_isNull : scalar → bool;
  scalar_cmp : QVariant scalar → QVariant scalar → bool
}.

(** [QList::operator==]: the same length and equal items, place by place. *)
Section All2.
Context {A B : Type} (f : A → B → bool).

Fixpoint all2 (l1 : list A) (l2 : list B) : bool :=
  match l1, l2 with
  | [], [] => true
  | x :: l1', y :: l2' => f x y && all2 l1' l2'
  | _, _ => false
  end.

End All2.

Section Variant.
Context `{ScalarSpace scalar}.

Fixpoint QVariant_eq_dec (v1 v2 : QVariant scalar) {struct v1} : Decision (v1 = v2).
Proof.
  refine (match v1, v2 with
          | QInvalid, QInvalid => left _
          | QScalar s1, QScalar s2 => cast_if (decide (s1 = s2))
          | QMapV m1, QMapV m2 =>
              cast_if (@decide (m1 = m2) (@gmap_eq_dec _ _ _ _ QVariant_eq_dec m1 m2))
          | QListV l1, QListV l2 =>
              cast_if (@decide (l1 = l2) (@list_eq_dec _ QVariant_eq_dec l1 l2))
          | _, _ => right _
          end); congruence.
Defined.
#[global] Instance QVariant_eqdec : EqDecision (QVariant scalar) := QVariant_eq_dec.

(** [QVariant::operator==].  Two invalid variants are equal; two maps are
    when they have as many entries, the same keys and equal values under
    each key ([QMap::operator==]); two lists are when they are as long and
    equal item by item; an invalid variant, a map and a list are never
    equal to one another, there being no conversion between them; whatever
    involves a scalar is [scalar_cmp]'s to say. *)
Fixpoint QVariant_equal (v1 v2 : QVariant scalar) {struct v1} : bool :=
  match v1, v2 with
  | QInvalid, QInvalid => true
  | QMapV m1, QMapV m2 =>
      bool_decide (size m1 = size m2)
      && map_fold (λ key x rest,
                     match m2 !! key with
                     | Some y => QVariant_equal x y
                     | None => false
                     end && rest) true m1
  | QListV l1, QListV l2 => all2 (λ x y, QVariant_equal x y) l1 l2
  | QScalar _, _ | _, QScalar _ => scalar_cmp v1 v2
  | _, _ => false
  end.

(** [QVariant::isValid] and [QVariant::isNull]: an invalid variant is null,
    a map or a list never is, a scalar is when its payload says so (a
    default-constructed string, for one). *)
Definition isValid (v : QVariant scalar) : bool :=
  match v with QInvalid => false | _ => true end.

Definition isNull (v : QVariant scalar) : bool :=
  match v with
  | QInvalid => true
  | QScalar s => scalar_isNull s
  | QMapV _ | QListV _ => false
  end.

End Variant.

(** ** Faults and the state monad *)

Inductive fault := AssertFailed | NullPointer | OutOfFuel.

Inductive outcome (St A : Type) :=
| Ok (a : A) (s : St)
| Fault (f : fault).
Arguments Ok {St A} a s.
Arguments Fault {St A} f.

Definition Run (St A : Type) : Type := St → outcome St A.

Definition ret {St A} (a : A) : Run St A := λ s, Ok a s.
Definition bind {St A B} (m : Run St A) (k : A → Run St B) : Run St B :=
  λ s, match m s with Ok a s' => k a s' | Fault f => Fault f end.
Definition throw {St A} (f : fault) : Run St A := λ _, Fault f.
Definition Q_ASSERT {St} (b : bool) : Run St unit :=
  if b then ret tt else throw AssertFailed.
Definition gets {St A} (f : St → A) : Run St A := λ s, Ok (f s) s.
Definition modify {St} (f : St → St) : Run St unit := λ s, Ok tt (f s).

#[global] Instance Run_ret St : MRet (Run St) := λ A, @ret St A.
#[global] Instance Run_bind St : MBind (Run St) := λ A B k m, @bind St A B m k.

(** ** Atoms behind shared pointers *)

Abbreviation loc := nat.

Section Atoms.
Context `{ScalarSpace scalar}.

Inductive Type_ := List | Map | Value | Null.

#[global] Instance Type_eq_dec : EqDecision Type_.
Proof. solve_decision. Defined.

(** The union buffer together with [m_type]: the tag and the payload
    cannot disagree. *)
Inductive Payload :=
| AsList (list_ : list loc)
| AsMap (map_ : gmap string loc)
| AsValue (value_ : QVariant scalar)
| AsNull.

Record ConfigAtom := mkAtom { m_data : Payload; m_readOnly : bool }.

Definition type (a : ConfigAtom) : Type_ :=
  match m_data a with
  | AsList _ => List | AsMap _ => Map | AsValue _ => Value | AsNull => Null
  end.
Definition isMap (a : ConfigAtom) : bool := bool_decide (type a = Map).
Definition isList (a : ConfigAtom) : bool := bool_decide (type a = List).
Definition isValue (a : ConfigAtom) : bool := bool_decide (type a = Value).
Definition isNullAtom (a : ConfigAtom) : bool := bool_decide (type a = Null).

Local Abbreviation Heap := (gmap loc ConfigAtom).

Definition deref (p : loc) : Run Heap ConfigAtom :=
  λ h, match h !! p with Some a => Ok a h | None => Fault NullPointer end.

Definition store (p : loc) (d : Payload) : Run Heap unit :=
  a ← deref p;
  modify (insert p (mkAtom d (m_readOnly a))).

(** [Ptr::create(readOnly)]: a new [Null] atom at an unused address. *)
Definition create (readOnly : bool) : Run Heap loc :=
  λ h, let p := fresh (dom h) in Ok p (<[p := mkAtom AsNull readOnly]> h).

(** [ensureMap], [ensureList], [ensureValue]: the payload of the requested
    kind, after wiping whatever else was there. *)
Definition ensureMap (p : loc) : Run Heap (gmap string loc) :=
  a ← deref p;
  match m_data a with
  | AsMap m => mret m
  | _ => store p (AsMap ∅);; mret ∅
  end.

Definition ensureList (p : loc) : Run Heap (list loc) :=
  a ← deref p;
  match m_data a with
  | AsList l => mret l
  | _ => store p (AsList []);; mret []
  end.

Definition ensureValue (p : loc) : Run Heap (QVariant scalar) :=
  a ← deref p;
  match m_data a with
  | AsValue v => mret v
  | _ => store p (AsValue QInvalid);; mret QInvalid
  end.

Definition clear (p : loc) : Run Heap unit := store p AsNull.

Definition asMap (p : loc) : Run Heap (gmap string loc) :=
  a ← deref p; Q_ASSERT (isMap a);; ensureMap p.
Definition asList (p : loc) : Run Heap (list loc) :=
  a ← deref p; Q_ASSERT (isList a);; ensureList p.
Definition asValue (p : loc) : Run Heap (QVariant scalar) :=
  a ← deref p; Q_ASSERT (isValue a);; ensureValue p.

(** Loops over the Qt containers, run for their effects. *)
Definition for_each {St A} (f : A → Run St unit) (l : list A) : Run St unit :=
  foldr (λ x rest, f x;; rest) (mret tt) l.

Definition for_each_entry {St A} (f : string → A → Run St unit)
    (m : gmap string A) : Run St unit :=
  map_fold (λ key x rest, f key x;; rest) (mret tt) m.

(** [fromVariant]: build the atoms of a tree value, all with one
    read-only flag. *)
Fixpoint fromVariant (variant : QVariant scalar) (readOnly : bool) : Run Heap loc :=
  result ← create readOnly;
  match variant with
  | QInvalid => mret result
  | QMapV input =>
      ensureMap result;;
      for_each_entry (λ key value,
        c ← fromVariant value readOnly;
        map ← ensureMap result;
        store result (AsMap (<[key := c]> map))) input;;
      mret result
  | QListV input =>
      ensureList result;;
      for_each (λ value,
        c ← fromVariant value readOnly;
        l ← ensureList result;
        store result (AsList (l ++ [c]))) input;;
      mret result
  | QScalar _ =>
      ensureValue result;;
      store result (AsValue variant);;
      mret result
  end.

(** [toVariant] walks the store, so it is given fuel: [None] when the fuel
    runs out or an address is not allocated. *)
Definition collect_entries {A B} (f : A → option B) (m : gmap string A)
    : option (gmap string B) :=
  map_fold (λ key x acc, result ← acc; y ← f x; Some (<[key := y]> result))
           (Some ∅) m.

Fixpoint toVariant (fuel : nat) (h : Heap) (p : loc) : option (QVariant scalar) :=
  match fuel with
  | O => None
  | S n =>
      a ← h !! p;
      match m_data a with
      | AsMap map => QMapV <$> collect_entries (toVariant n h) map
      | AsList l => QListV <$> mapM (toVariant n h) l
      | AsValue v => Some v
      | AsNull => Some QInvalid
      end
  end.

Definition toVariantM (fuel : nat) (p : loc) : Run Heap (QVariant scalar) :=
  λ h, match toVariant fuel h p with
       | Some v => Ok v h
       | None => Fault OutOfFuel
       end.

(** [child(const QString &)] *)
Definition ConfigAtom_child (p : loc) (name : string) : Run Heap (option loc) :=
  a ← deref p;
  Q_ASSERT (negb (m_readOnly a) || isMap a);;
  map ← ensureMap p;
  match map !! name with
  | Some c => mret (Some c)
  | None =>
      if m_readOnly a then mret None
      else
        c ← create (m_readOnly a);
        store p (AsMap (<[name := c]> map));;
        mret (Some c)
  end.

(** The loop [while (list.size() <= index) list.append(create(m_readOnly))],
    which runs [index + 1 - size] times. *)
Fixpoint append_nulls (n : nat) (p : loc) (readOnly : bool) : Run Heap unit :=
  match n with
  | O => mret tt
  | S n' =>
      c ← create readOnly;
      l ← ensureList p;
      store p (AsList (l ++ [c]));;
      append_nulls n' p readOnly
  end.

(** [QVector::at] and [QVector::remove] assert [0 <= i < size]. *)
Definition at_ (l : list loc) (index : Z) : Run Heap loc :=
  if bool_decide (0 ≤ index)%Z then
    match l !! Z.to_nat index with
    | Some c => mret c
    | None => throw AssertFailed
    end
  else throw AssertFailed.

(** [child(int)] *)
Definition ConfigAtom_childAt (p : loc) (index : Z) : Run Heap (option loc) :=
  a ← deref p;
  Q_ASSERT (negb (m_readOnly a) || isList a);;
  l ← ensureList p;
  if m_readOnly a && bool_decide (Z.of_nat (length l) ≤ index)%Z then mret None
  else
    append_nulls (Z.to_nat (index + 1 - Z.of_nat (length l))) p (m_readOnly a);;
    l' ← ensureList p;
    c ← at_ l' index;
    mret (Some c).

Definition ConfigAtom_arraySize (p : loc) : Run Heap Z :=
  a ← deref p;
  Q_ASSERT (isList a);;
  l ← asList p;
  mret (Z.of_nat (length l)).

(** [remove(int)] *)
Definition ConfigAtom_removeAt (p : loc) (index : Z) : Run Heap bool :=
  a ← deref p;
  Q_ASSERT (isList a);;
  l ← asList p;
  if bool_decide (Z.of_nat (length l) ≤ index)%Z then mret false
  else
    Q_ASSERT (bool_decide (0 ≤ index)%Z);;
    store p (AsList (delete (Z.to_nat index) l));;
    mret true.

(** [remove(const QString &)] *)
Definition ConfigAtom_remove (p : loc) (name : string) : Run Heap bool :=
  a ← deref p;
  Q_ASSERT (isMap a);;
  map ← asMap p;
  store p (AsMap (delete name map));;
  mret (bool_decide (is_Some (map !! name))).

(** [replace]: the stored child is overwritten, and the change reported,
    unless the key is there and [operator!=] finds no difference between
    the tree value it holds and the new one. *)
Definition ConfigAtom_replace (fuel : nat) (p : loc) (name : string) (value : loc)
    : Run Heap bool :=
  a ← deref p;
  Q_ASSERT (isMap a);;
  map ← asMap p;
  differs ← match map !! name with
            | None => mret true
            | Some old =>
                vo ← toVariantM fuel old;
                vn ← toVariantM fuel value;
                mret (negb (QVariant_equal vo vn))
            end;
  if differs : bool then
    store p (AsMap (<[name := value]> map));;
    mret true
  else mret false.

Definition ConfigAtom_convert (p : loc) (ty : Type_) : Run Heap unit :=
  a ← deref p;
  if bool_decide (type a = ty) then mret tt
  else match ty with
       | Map => ensureMap p;; mret tt
       | List => ensureList p;; mret tt
       | Value => ensureValue p;; mret tt
       | Null => clear p
       end.

End Atoms.

Arguments Payload scalar : clear implicits.
Arguments ConfigAtom scalar : clear implicits.

Abbreviation Heap scalar := (gmap loc (ConfigAtom scalar)).

(** ** Navigation frames ([ConfigLevel]) *)

Record ConfigLevel := mkLevel { atoms : list loc; arrayElement : bool }.

Section Levels.
Context `{ScalarSpace scalar}.

(** [ConfigLevel::map]: the callback sees every atom together with the
    flag "read-only, or not the first of the frame"; null results are
    dropped. *)
Fixpoint map_atoms (callback : loc → bool → Run (Heap scalar) (option loc)) (first : bool)
    (l : list loc) : Run (Heap scalar) (list loc) :=
  match l with
  | [] => mret []
  | atom :: rest =>
      a ← deref atom;
      let isReadOnly := m_readOnly a || negb first in
      result ← callback atom isReadOnly;
      results ← map_atoms callback false rest;
      mret (match result with
            | Some r => r :: results
            | None => results
            end)
  end.

Definition ConfigLevel_map (callback : loc → bool → Run (Heap scalar) (option loc))
    (level : ConfigLevel) : Run (Heap scalar) ConfigLevel :=
  results ← map_atoms callback true (atoms level);
  mret (mkLevel results false).

(** [child(const QString &)] *)
Definition ConfigLevel_child (level : ConfigLevel) (name : string)
    : Run (Heap scalar) ConfigLevel :=
  ConfigLevel_map (λ atom readOnly,
    a ← deref atom;
    if readOnly && negb (isMap a) then mret None
    else ConfigAtom_child atom name) level.

(** [child(int)] *)
Definition ConfigLevel_childAt (level : ConfigLevel) (index : Z)
    : Run (Heap scalar) ConfigLevel :=
  ConfigLevel_map (λ atom readOnly,
    a ← deref atom;
    if readOnly && negb (isList a) then mret None
    else ConfigAtom_childAt atom index) level.

(** [child(const QList<QString> &)] *)
Definition ConfigLevel_children (level : ConfigLevel) (names : list string)
    : Run (Heap scalar) ConfigLevel :=
  match names with
  | [] => throw AssertFailed
  | first :: others =>
      level' ← ConfigLevel_child level first;
      foldl (λ acc name, lvl ← acc; ConfigLevel_child lvl name) (mret level') others
  end.

Definition ConfigLevel_convert (level : ConfigLevel) (ty : Type_)
    : Run (Heap scalar) ConfigLevel :=
  ConfigLevel_map (λ atom readOnly,
    a ← deref atom;
    if readOnly && negb (bool_decide (type a = ty)) then mret None
    else
      (if bool_decide (type a = ty) then mret tt else ConfigAtom_convert atom ty);;
      mret (Some atom)) level.

End Levels.

(** ** Strings: [QString::indexOf], [lastIndexOf], [mid], and [parseNames] *)

Definition indexOf (s : string) (ch : ascii) (from : Z) : Z :=
  match String.index (Z.to_nat from) (String ch EmptyString) s with
  | Some i => Z.of_nat i
  | None => -1
  end.

Fixpoint lastIndexOf_from (s : string) (ch : ascii) (pos : Z) (found : Z) : Z :=
  match s with
  | EmptyString => found
  | String c s' =>
      lastIndexOf_from s' ch (pos + 1) (if bool_decide (c = ch) then pos else found)
  end.
Definition lastIndexOf (s : string) (ch : ascii) : Z := lastIndexOf_from s ch 0 (-1).

(** [mid(position, n)]; [n = -1] asks for the rest of the string. *)
Definition mid (s : string) (position n : Z) : string :=
  if bool_decide (n < 0)%Z
  then String.substring (Z.to_nat position) (String.length s - Z.to_nat position) s
  else String.substring (Z.to_nat position) (Z.to_nat n) s.

Definition isEmpty (s : string) : bool := bool_decide (s = EmptyString).

(** The [do ... while (first != 0)] loop of [parseNames]; every round moves
    [first] past one more slash, so the length of the name plus one bounds
    the rounds. *)
Fixpoint parseNames_loop (rounds : nat) (fullName : string) (first : Z)
    (names : list string) : list string :=
  match rounds with
  | O => names
  | S n =>
      let last := indexOf fullName "/" first in
      let name := mid fullName first
                    (if bool_decide (last ≠ -1)%Z then last - first else last)%Z in
      let first' := (last + 1)%Z in
      let names' := if isEmpty name then names else names ++ [name] in
      if bool_decide (first' ≠ 0)%Z
      then parseNames_loop n fullName first' names'
      else names'
  end.

Definition parseNames (fullName : string) : list string :=
  parseNames_loop (S (String.length fullName)) fullName 0 [].

(** ** The world outside the store: files, backends, timers, events *)

(** [QDateTime] as the store uses it: a stamp, or the invalid date that
    [QFileInfo::lastModified] gives for a missing file. *)
Definition QDateTime := option Z.

Record FileStat := mkFile { writable : bool; modified : Z; content : string }.

Record FileSystem := mkFS { files : gmap string FileStat; dirs : gset string }.

Definition exists_ (fs : FileSystem) (path : string) : bool :=
  bool_decide (is_Some (files fs !! path)).
Definition isWritable (fs : FileSystem) (path : string) : bool :=
  match files fs !! path with Some f => writable f | None => false end.
Definition lastModifiedOf (fs : FileSystem) (path : string) : QDateTime :=
  modified <$> files fs !! path.

(** What the store asks of Qt and of [SystemInfo] about path names.
    [suffix] stands for [info.suffix().toLatin1().toLower()], the file
    suffix in lower case, which is what the backends are looked up by. *)
Class PathOps := {
  isAbsolute : string → bool;
  configDirFilePath : string → string;
  systemConfigDirFilePath : string → string;
  cleanPath : string → string;
  suffix : string → string;
  absolutePath : string → string
}.

(** A [QObject] timer as the event loop keeps it: the interval handed to
    [startTimer], in milliseconds, and the clock reading at the start. *)
Record Timer := mkTimer { interval : Z; started : Z }.

Abbreviation sref := nat.

Section World.
Context `{ScalarSpace scalar} `{PathOps}.

(** [ConfigBackend]: [name()], [load] and [save]. *)
Record ConfigBackend := mkBackend {
  backend_name : string;
  backend_load : FileSystem → string → QVariant scalar;
  backend_save : string → QVariant scalar → FileSystem → FileSystem
}.

Record ConfigSource := mkSource {
  fileName : string;
  backend : option ConfigBackend;
  dirty : bool;
  isAtLoop : bool;
  data : option loc;
  lastModified : QDateTime
}.

(** [ConfigSourceHash::Info]; a [QBasicTimer] is its timer id, [0] when
    it is not running. *)
Record Info := mkInfo { timer : nat; config : option sref }.

Record ConfigSourceHash := mkHash {
  m_hash : gmap string Info;
  m_timers : gmap nat string
}.

Record World := mkWorld {
  heap : Heap scalar;
  sourceStore : gmap sref ConfigSource;
  sourceHash : ConfigSourceHash;
  all_config_backends : list ConfigBackend;
  fs : FileSystem;
  timers : gmap nat Timer;
  now : Z;
  posted : list sref
}.

Definition set_heap (x : Heap scalar) (w : World) : World :=
  mkWorld x (sourceStore w) (sourceHash w) (all_config_backends w) (fs w)
          (timers w) (now w) (posted w).
Definition set_sourceStore (x : gmap sref ConfigSource) (w : World) : World :=
  mkWorld (heap w) x (sourceHash w) (all_config_backends w) (fs w)
          (timers w) (now w) (posted w).
Definition set_sourceHash (x : ConfigSourceHash) (w : World) : World :=
  mkWorld (heap w) (sourceStore w) x (all_config_backends w) (fs w)
          (timers w) (now w) (posted w).
Definition set_fs (x : FileSystem) (w : World) : World :=
  mkWorld (heap w) (sourceStore w) (sourceHash w) (all_config_backends w) x
          (timers w) (now w) (posted w).
Definition set_timers (x : gmap nat Timer) (w : World) : World :=
  mkWorld (heap w) (sourceStore w) (sourceHash w) (all_config_backends w) (fs w)
          x (now w) (posted w).
Definition set_now (x : Z) (w : World) : World :=
  mkWorld (heap w) (sourceStore w) (sourceHash w) (all_config_backends w) (fs w)
          (timers w) x (posted w).
Definition set_posted (x : list sref) (w : World) : World :=
  mkWorld (heap w) (sourceStore w) (sourceHash w) (all_config_backends w) (fs w)
          (timers w) (now w) x.

(** Run a computation on the atoms inside the world. *)
Definition on_heap {A} (m : Run (Heap scalar) A) : Run World A :=
  λ w, match m (heap w) with
       | Ok a h => Ok a (set_heap h w)
       | Fault f => Fault f
       end.

Definition deref_source (s : sref) : Run World ConfigSource :=
  λ w, match sourceStore w !! s with
       | Some src => Ok src w
       | None => Fault NullPointer
       end.

Definition set_source (s : sref) (src : ConfigSource) : Run World unit :=
  modify (λ w, set_sourceStore (<[s := src]> (sourceStore w)) w).

(** *** [ConfigSource] *)

(** [update()] *)
Definition ConfigSource_update (s : sref) : Run World unit :=
  src ← deref_source s;
  stamp ← gets (λ w, lastModifiedOf (fs w) (fileName src));
  set_source s (mkSource (fileName src) (backend src) (dirty src) (isAtLoop src)
                         (data src) stamp).

Definition ConfigSource_isValid (s : sref) : Run World bool :=
  src ← deref_source s;
  stamp ← gets (λ w, lastModifiedOf (fs w) (fileName src));
  mret (bool_decide (stamp = lastModified src)).

Definition ConfigSource_makeDirty (s : sref) : Run World unit :=
  src ← deref_source s;
  set_source s (mkSource (fileName src) (backend src) true (isAtLoop src)
                         (data src) (lastModified src)).

Definition set_isAtLoop (s : sref) (b : bool) : Run World unit :=
  src ← deref_source s;
  set_source s (mkSource (fileName src) (backend src) (dirty src) b
                         (data src) (lastModified src)).

Definition set_dirty (s : sref) (b : bool) : Run World unit :=
  src ← deref_source s;
  set_source s (mkSource (fileName src) (backend src) b (isAtLoop src)
                         (data src) (lastModified src)).

Definition set_data (s : sref) (p : loc) : Run World unit :=
  src ← deref_source s;
  set_source s (mkSource (fileName src) (backend src) (dirty src) (isAtLoop src)
                         (Some p) (lastModified src)).

(** [ConfigSource::sync] *)
Definition ConfigSource_sync (fuel : nat) (s : sref) : Run World unit :=
  src ← deref_source s;
  match backend src, data src with
  | Some b, Some root =>
      tree ← on_heap (toVariantM fuel root);
      modify (λ w, set_fs (backend_save b (fileName src) tree (fs w)) w);;
      set_dirty s false;;
      ConfigSource_update s
  | _, _ => throw NullPointer
  end.

(** *** [QBasicTimer] on the event loop *)

Definition killTimer (id : nat) : Run World unit :=
  modify (λ w, set_timers (delete id (timers w)) w).

(** [QBasicTimer::start(msec, obj)]: stop the timer if it runs, then
    [obj->startTimer(msec)], which hands out an id not in use. *)
Definition QBasicTimer_start (t : nat) (msec : Z) : Run World nat :=
  (if bool_decide (t ≠ 0%nat) then killTimer t else mret tt);;
  w ← gets id;
  let fresh_id := fresh ({[0%nat]} ∪ dom (timers w)) in
  modify (set_timers (<[fresh_id := mkTimer msec (now w)]> (timers w)));;
  mret fresh_id.

(** *** [ConfigSourceHash] *)

Definition restart_timer (key : string) (it : Info) : Run World nat :=
  modify (λ w, set_sourceHash
    (mkHash (m_hash (sourceHash w)) (delete (timer it) (m_timers (sourceHash w)))) w);;
  t ← QBasicTimer_start (timer it) (5 * 60);
  modify (λ w, set_sourceHash
    (mkHash (m_hash (sourceHash w)) (<[t := key]> (m_timers (sourceHash w)))) w);;
  mret t.

(** [ConfigSourceHash::value] *)
Definition ConfigSourceHash_value (key : string) : Run World (option sref) :=
  w ← gets id;
  match m_hash (sourceHash w) !! key with
  | None => mret None
  | Some it =>
      t ← restart_timer key it;
      modify (λ w, set_sourceHash
        (mkHash (<[key := mkInfo t (config it)]> (m_hash (sourceHash w)))
                (m_timers (sourceHash w))) w);;
      mret (config it)
  end.

(** [ConfigSourceHash::insert] *)
Definition ConfigSourceHash_insert (key : string) (value : sref) : Run World unit :=
  w ← gets id;
  let it := default (mkInfo 0 None) (m_hash (sourceHash w) !! key) in
  t ← restart_timer key it;
  modify (λ w, set_sourceHash
    (mkHash (<[key := mkInfo t (Some value)]> (m_hash (sourceHash w)))
            (m_timers (sourceHash w))) w).

(** [ConfigSourceHash::timerEvent]; the [Info] dropped from the hash takes
    its timer with it. *)
Definition ConfigSourceHash_timerEvent (timerId : nat) : Run World unit :=
  w ← gets id;
  let key := default EmptyString (m_timers (sourceHash w) !! timerId) in
  modify (λ w, set_sourceHash
    (mkHash (delete key (m_hash (sourceHash w)))
            (delete timerId (m_timers (sourceHash w)))) w);;
  match m_hash (sourceHash w) !! key with
  | Some it => if bool_decide (timer it ≠ 0%nat) then killTimer (timer it) else mret tt
  | None => mret tt
  end.

End World.

Arguments ConfigBackend scalar : clear implicits.
Arguments ConfigSource scalar : clear implicits.
Arguments World scalar : clear implicits.

(** ** Opening a source *)

Section Open.
Context `{ScalarSpace scalar} `{PathOps}.

(** The loop over the registered backends that stops at the first one
    named like the suffix. *)
Definition backend_for_suffix (backends : list (ConfigBackend scalar))
    (sfx : string) : option (ConfigBackend scalar) :=
  if isEmpty sfx then None
  else List.find (λ b, bool_decide (backend_name b = sfx)) backends.

(** [result = sourceHash()->value(fileName)] with the test
    [result && result->isValid()]. *)
Definition cached (fileName : string) : Run (World scalar) (option sref * bool) :=
  result ← ConfigSourceHash_value fileName;
  match result with
  | Some s => valid ← ConfigSource_isValid s; mret (result, valid)
  | None => mret (None, false)
  end.

Definition new_source (fileName : string) (b : ConfigBackend scalar)
    : Run (World scalar) sref :=
  w ← gets id;
  let s := fresh (dom (sourceStore w)) in
  set_source s (mkSource fileName (Some b) false false None None);;
  mret s.

(** The part of [open] after the backend is chosen; [info] is the path the
    [QFileInfo] was last set to and [result] the cache entry that failed
    the validity test, if there was one.  The [QFileInfo] keeps the file
    status it read at its first question, so [readOnly] is computed from
    the files as they were on entry. *)
Definition open_with (b : ConfigBackend scalar) (fileName info : string)
    (result : option sref) (systemDir create : bool)
    : Run (World scalar) (option sref) :=
  w ← gets id;
  if negb (exists_ (fs w) info) && negb create then mret result
  else
    let dir := absolutePath info in
    if negb (bool_decide (dir ∈ dirs (fs w))) && negb create then mret result
    else
      (if negb (bool_decide (dir ∈ dirs (fs w)))
       then modify (λ w, set_fs (mkFS (files (fs w)) ({[dir]} ∪ dirs (fs w))) w)
       else mret tt);;
      d ← new_source fileName b;
      let readOnly := negb (isWritable (fs w) info)
                      && (systemDir || exists_ (fs w) info) in
      ConfigSource_update d;;
      value ← gets (λ w, backend_load b (fs w) fileName);
      root ← on_heap (fromVariant value readOnly);
      set_data d root;;
      a ← on_heap (deref root);
      if isValue a || isNullAtom a then
        if negb create then mret None
        else
          root' ← on_heap (fromVariant (QMapV ∅) readOnly);
          set_data d root';;
          ConfigSourceHash_insert fileName d;;
          mret (Some d)
      else
        ConfigSourceHash_insert fileName d;;
        mret (Some d).

(** [ConfigSource::open] *)
Definition ConfigSource_open (path : string) (systemDir create : bool)
    (bcknd : option (ConfigBackend scalar)) : Run (World scalar) (option sref) :=
  let fileName := if isEmpty path then "profile"%string else path in
  let info := fileName in
  if isAbsolute info && systemDir then mret None
  else
    let fileName :=
      if negb (isAbsolute info)
      then (if systemDir then systemConfigDirFilePath fileName
            else configDirFilePath fileName)
      else fileName in
    let fileName := cleanPath fileName in
    '(result, valid) ← cached fileName;
    if valid : bool then mret result
    else
      backends ← gets all_config_backends;
      match bcknd with
      | Some b => open_with b fileName info result systemDir create
      | None =>
          match backends with
          | [] => mret None
          | first :: _ =>
              match backend_for_suffix backends (suffix info) with
              | Some b => open_with b fileName info result systemDir create
              | None =>
                  let fileName := (fileName ++ "." ++ backend_name first)%string in
                  '(result, valid) ← cached fileName;
                  if valid : bool then mret result
                  else open_with first fileName fileName result systemDir create
              end
          end
      end.

(** ** The saver and its posted events *)

(** [QCoreApplication::postEvent(postConfigSaver(), new PostConfigSaveEvent(source), -2)] *)
Definition postEvent (s : sref) : Run (World scalar) unit :=
  modify (λ w, set_posted (posted w ++ [s]) w).

(** [PostConfigSaver::event] on a [PostConfigSaveEvent] *)
Definition PostConfigSaver_event (fuel : nat) (saveEvent : sref)
    : Run (World scalar) bool :=
  ConfigSource_sync fuel saveEvent;;
  set_isAtLoop saveEvent false;;
  mret true.

(** The event loop delivering the oldest posted event. *)
Definition dispatch (fuel : nat) : Run (World scalar) unit :=
  w ← gets id;
  match posted w with
  | [] => mret tt
  | ev :: rest =>
      modify (set_posted rest);;
      PostConfigSaver_event fuel ev;;
      mret tt
  end.

End Open.

(** ** The cursor ([ConfigPrivate] and [Config]) *)

(** [CryptoService::crypt] and [CryptoService::decrypt] *)
Class CryptoService (scalar : Type) := {
  crypt : QVariant scalar → QVariant scalar;
  decrypt : QVariant scalar → QVariant scalar
}.

(** [Config::ValueFlags] *)
Inductive ValueFlags := Normal | Crypted.

(** The memory guard is a pointer to another [ConfigPrivate]; only whether
    it is set is ever looked at. *)
Record ConfigPrivate := mkPrivate {
  levels : list ConfigLevel;
  sources : list sref;
  memoryGuard : option nat
}.

Section Cursor.
Context `{ScalarSpace scalar} `{PathOps} `{CryptoService scalar}.

(** [ConfigPrivate::sync] *)
Definition ConfigPrivate_sync (d : ConfigPrivate) : Run (World scalar) unit :=
  match sources d with
  | [] => mret tt
  | s :: _ =>
      src ← deref_source s;
      if dirty src && negb (isAtLoop src) then
        set_isAtLoop s true;;
        set_dirty s false;;
        postEvent s
      else mret tt
  end.

(** [ConfigPrivate::~ConfigPrivate] *)
Definition ConfigPrivate_destroy (d : ConfigPrivate) : Run (World scalar) unit :=
  match memoryGuard d with
  | None => ConfigPrivate_sync d
  | Some _ => mret tt
  end.

(** A [Config] at work: its private part and the world around it. *)
Record Session := mkSession { d_ptr : ConfigPrivate; world : World scalar }.

Definition on_world {A} (m : Run (World scalar) A) : Run Session A :=
  λ c, match m (world c) with
       | Ok a w => Ok a (mkSession (d_ptr c) w)
       | Fault f => Fault f
       end.

Definition on_atoms {A} (m : Run (Heap scalar) A) : Run Session A :=
  on_world (on_heap m).

Definition set_levels (ls : list ConfigLevel) : Run Session unit :=
  modify (λ c, mkSession (mkPrivate ls (sources (d_ptr c)) (memoryGuard (d_ptr c)))
                         (world c)).

(** [current()], that is [levels.first()] *)
Definition current : Run Session ConfigLevel :=
  d ← gets d_ptr;
  match levels d with
  | level :: _ => mret level
  | [] => throw AssertFailed
  end.

(** [levels.takeFirst()] *)
Definition takeFirst : Run Session unit :=
  d ← gets d_ptr;
  match levels d with
  | _ :: rest => set_levels rest
  | [] => throw AssertFailed
  end.

Definition prepend (level : ConfigLevel) : Run Session unit :=
  d ← gets d_ptr;
  set_levels (level :: levels d).

Definition Config_beginGroup (fullName : string) : Run Session unit :=
  Q_ASSERT (negb (isEmpty fullName));;
  let names := parseNames fullName in
  Q_ASSERT (negb (bool_decide (names = [])));;
  level ← current;
  below ← on_atoms (ConfigLevel_children level names);
  group ← on_atoms (ConfigLevel_convert below Map);
  prepend group.

Definition Config_endGroup : Run Session unit :=
  d ← gets d_ptr;
  Q_ASSERT (bool_decide (1 < length (levels d))%nat);;
  takeFirst.

(** [sources.first()->makeDirty()] *)
Definition first_source_makeDirty : Run Session unit :=
  d ← gets d_ptr;
  match sources d with
  | s :: _ => on_world (ConfigSource_makeDirty s)
  | [] => throw AssertFailed
  end.

(** [remove(const QString &)] *)
Definition Config_remove (name : string) : Run Session unit :=
  level ← current;
  match head (atoms level) with
  | None => throw NullPointer
  | Some atom =>
      removed ← on_atoms (ConfigAtom_remove atom name);
      if removed : bool then first_source_makeDirty else mret tt
  end.

(** [arraySize()] *)
Fixpoint arraySize_loop (l : list loc) (size : Z) : Run (Heap scalar) Z :=
  match l with
  | [] => mret size
  | atom :: rest =>
      size ← ConfigAtom_arraySize atom;
      if bool_decide (0 < size)%Z then mret size
      else arraySize_loop rest size
  end.

Definition Config_arraySize : Run Session Z :=
  d ← gets d_ptr;
  cur ← current;
  level ← (if arrayElement cur
           then match levels d !! 1%nat with
                | Some l => mret l
                | None => throw AssertFailed
                end
           else mret cur);
  on_atoms (arraySize_loop (atoms level) 0).

Definition Config_beginArray (name : string) : Run Session Z :=
  Q_ASSERT (negb (isEmpty name));;
  let names := parseNames name in
  level ← current;
  below ← on_atoms (ConfigLevel_children level names);
  array ← on_atoms (ConfigLevel_convert below List);
  prepend array;;
  Config_arraySize.

Definition Config_endArray : Run Session unit :=
  d ← gets d_ptr;
  Q_ASSERT (bool_decide (1 < length (levels d))%nat);;
  cur ← current;
  (if arrayElement cur then takeFirst else mret tt);;
  d ← gets d_ptr;
  Q_ASSERT (bool_decide (1 < length (levels d))%nat);;
  cur ← current;
  Q_ASSERT (negb (arrayElement cur));;
  takeFirst.

Definition Config_setArrayIndex (index : Z) : Run Session unit :=
  cur ← current;
  (if arrayElement cur then takeFirst else mret tt);;
  level ← current;
  match atoms level with
  | [] => throw AssertFailed
  | first :: _ =>
      a ← on_atoms (deref first);
      Q_ASSERT (isList a);;
      below ← on_atoms (ConfigLevel_childAt level index);
      element ← on_atoms (ConfigLevel_convert below Map);
      prepend (mkLevel (atoms element) true)
  end.

(** [remove(int)] *)
Definition Config_removeAt (index : Z) : Run Session unit :=
  cur ← current;
  (if arrayElement cur then takeFirst else mret tt);;
  level ← current;
  match head (atoms level) with
  | None => throw NullPointer
  | Some atom =>
      removed ← on_atoms (ConfigAtom_removeAt atom index);
      if removed : bool then first_source_makeDirty else mret tt
  end.

(** The loop of [value] over the atoms of the current frame. *)
Fixpoint value_loop (fuel : nat) (name : string) (l : list loc)
    (var : QVariant scalar) : Run (Heap scalar) (QVariant scalar) :=
  match l with
  | [] => mret var
  | atom :: rest =>
      a ← deref atom;
      Q_ASSERT (isMap a);;
      child ← ConfigAtom_child atom name;
      var ← match child with
            | Some c =>
                ca ← deref c;
                if negb (isNullAtom ca) then toVariantM fuel c else mret var
            | None => mret var
            end;
      if negb (isNull var) then mret var
      else value_loop fuel name rest var
  end.

Definition Config_value (fuel : nat) (key : string) (def : QVariant scalar)
    (flags : ValueFlags) : Run Session (QVariant scalar) :=
  cur ← current;
  match atoms cur with
  | [] => mret def
  | _ =>
      let slashIndex := lastIndexOf key "/" in
      name ← (if bool_decide (slashIndex ≠ -1)%Z
              then Config_beginGroup (mid key 0 slashIndex);;
                   mret (mid key (slashIndex + 1) (-1))
              else mret key);
      level ← current;
      var ← on_atoms (value_loop fuel name (atoms level) QInvalid);
      (if bool_decide (slashIndex ≠ -1)%Z then Config_endGroup else mret tt);;
      match flags with
      | Crypted => mret (if isNull var then def else decrypt var)
      | Normal => mret (if isNull var then def else var)
      end
  end.

Definition Config_setValue (fuel : nat) (key : string) (value : QVariant scalar)
    (flags : ValueFlags) : Run Session unit :=
  cur ← current;
  match atoms cur with
  | [] => mret tt
  | _ =>
      let slashIndex := lastIndexOf key "/" in
      name ← (if bool_decide (slashIndex ≠ -1)%Z
              then Config_beginGroup (mid key 0 slashIndex);;
                   mret (mid key (slashIndex + 1) (-1))
              else mret key);
      let var := match flags with Crypted => crypt value | Normal => value end in
      level ← current;
      match atoms level with
      | [] => throw AssertFailed
      | atom :: _ =>
          a ← on_atoms (deref atom);
          Q_ASSERT (isMap a && negb (m_readOnly a));;
          node ← on_atoms (fromVariant var false);
          changed ← on_atoms (ConfigAtom_replace fuel atom name node);
          (if changed : bool then
             d ← gets d_ptr;
             match sources d with
             | s :: _ => on_world (ConfigSource_makeDirty s)
             | [] => mret tt
             end
           else mret tt);;
          (if bool_decide (slashIndex ≠ -1)%Z then Config_endGroup else mret tt)
      end
  end.

Definition Config_sync : Run Session unit :=
  d ← gets d_ptr;
  on_world (ConfigPrivate_sync d).

End Cursor.

Arguments Session scalar : clear implicits.

(** ** Enumerating a frame, reading its root, cursors made from cursors *)

(** A [QMap] is walked in ascending order of its keys. *)
Definition key_le {A} (x y : string * A) : Prop := String.leb x.1 y.1 = true.

#[global] Instance key_le_dec {A} (x y : string * A) : Decision (key_le x y).
Proof. unfold key_le. apply _. Defined.

Definition entries_in_key_order {A} (m : gmap string A) : list (string * A) :=
  merge_sort key_le (map_to_list m).

Section Enumeration.
Context `{ScalarSpace scalar}.

(** [ConfigAtom::iterateMap].  The callbacks of this file capture one
    local variable by reference and write to nothing else; that variable
    is the accumulator threaded through the walk. *)
Definition ConfigAtom_iterateMap {Acc}
    (callback : string → loc → Acc → Run (Heap scalar) Acc)
    (p : loc) (acc : Acc) : Run (Heap scalar) Acc :=
  a ← deref p;
  Q_ASSERT (isMap a);;
  map ← asMap p;
  foldl (λ walked entry, acc ← walked; callback entry.1 entry.2 acc)
        (mret acc) (entries_in_key_order map).

(** [ConfigLevel::iterateMap] *)
Fixpoint iterateMap_atoms {Acc}
    (callback : string → loc → Acc → Run (Heap scalar) Acc)
    (l : list loc) (acc : Acc) : Run (Heap scalar) Acc :=
  match l with
  | [] => mret acc
  | atom :: rest =>
      a ← deref atom;
      acc ← (if isMap a then ConfigAtom_iterateMap callback atom acc else mret acc);
      iterateMap_atoms callback rest acc
  end.

Definition ConfigLevel_iterateMap {Acc}
    (callback : string → loc → Acc → Run (Heap scalar) Acc)
    (level : ConfigLevel) (acc : Acc) : Run (Heap scalar) Acc :=
  iterateMap_atoms callback (atoms level) acc.

End Enumeration.

Section Cursors.
Context `{ScalarSpace scalar} `{PathOps} `{CryptoService scalar}.

(** [childGroups()] *)
Definition Config_childGroups : Run (Session scalar) (list string) :=
  cur ← current;
  on_atoms (ConfigLevel_iterateMap (λ name atom groups,
    a ← deref atom;
    mret (if isMap a && negb (bool_decide (name ∈ groups))
          then groups ++ [name] else groups)) cur []).

(** [childKeys()] *)
Definition Config_childKeys : Run (Session scalar) (list string) :=
  cur ← current;
  on_atoms (ConfigLevel_iterateMap (λ name atom keys,
    a ← deref atom;
    mret (if negb (isMap a) && negb (bool_decide (name ∈ keys))
          then keys ++ [name] else keys)) cur []).

(** [hasChildGroup(name)] *)
Definition Config_hasChildGroup (name : string) : Run (Session scalar) bool :=
  cur ← current;
  on_atoms (ConfigLevel_iterateMap (λ keyName atom found,
    a ← deref atom;
    mret (if isMap a && bool_decide (keyName = name) then true else found))
    cur false).

(** [hasChildKey(name)] *)
Definition Config_hasChildKey (name : string) : Run (Session scalar) bool :=
  cur ← current;
  on_atoms (ConfigLevel_iterateMap (λ keyName atom found,
    a ← deref atom;
    mret (if negb (isMap a) && bool_decide (keyName = name) then true else found))
    cur false).

(** [rootValue(def, type)] *)
Definition Config_rootValue (fuel : nat) (def : QVariant scalar)
    (flags : ValueFlags) : Run (Session scalar) (QVariant scalar) :=
  cur ← current;
  match atoms cur with
  | [] => mret def
  | first :: _ =>
      var ← on_atoms (toVariantM fuel first);
      match flags with
      | Crypted => mret (if isNull var then def else decrypt var)
      | Normal => mret (if isNull var then def else var)
      end
  end.

(** [ConfigPrivate::ConfigPrivate()]: one empty frame, no source. *)
Definition ConfigPrivate_new : ConfigPrivate :=
  mkPrivate [mkLevel [] false] [] None.

(** [Config(const QVariantList &)] and [Config(const QVariantMap &)] *)
Definition Config_fromList (list : list (QVariant scalar))
    : Run (World scalar) ConfigPrivate :=
  atom ← on_heap (fromVariant (QListV list) false);
  mret (mkPrivate [mkLevel [atom] false] [] None).

Definition Config_fromMap (map : gmap string (QVariant scalar))
    : Run (World scalar) ConfigPrivate :=
  atom ← on_heap (fromVariant (QMapV map) false);
  mret (mkPrivate [mkLevel [atom] false] [] None).

(** [ConfigPrivate::clone]: a new private part whose one frame is a copy
    of the current frame, over the same sources. *)
Definition ConfigPrivate_clone : Run (Session scalar) ConfigPrivate :=
  d ← gets d_ptr;
  cur ← current;
  mret (mkPrivate [mkLevel (atoms cur) (arrayElement cur)] (sources d) None).

(** Work done through another cursor on the same world. *)
Definition on_cursor {A} (p : ConfigPrivate) (m : Run (Session scalar) A)
    : Run (Session scalar) (A * ConfigPrivate) :=
  λ c, match m (mkSession p (world c)) with
       | Ok a c' => Ok (a, d_ptr c') (mkSession (d_ptr c) (world c'))
       | Fault f => Fault f
       end.

(** [group(fullName)]; [self] is the address of this cursor's private
    part, which the new cursor keeps as its memory guard. *)
Definition Config_group (self : nat) (fullName : string)
    : Run (Session scalar) ConfigPrivate :=
  Q_ASSERT (negb (isEmpty fullName));;
  Config_beginGroup fullName;;
  p ← ConfigPrivate_clone;
  let p := mkPrivate (levels p) (sources p) (Some self) in
  Config_endGroup;;
  mret p.

(** [arrayElement(index)] *)
Definition Config_arrayElement (self : nat) (index : Z)
    : Run (Session scalar) ConfigPrivate :=
  p ← ConfigPrivate_clone;
  let p := mkPrivate (levels p) (sources p) (Some self) in
  '(_, cfg) ← on_cursor p (Config_setArrayIndex index);
  mret cfg.

(** [ConfigSource::~ConfigSource] *)
Definition ConfigSource_destroy (fuel : nat) (s : sref) : Run (World scalar) unit :=
  src ← deref_source s;
  if dirty src then ConfigSource_sync fuel s else mret tt.

(** [PostConfigSaver::cleanup]: [sendPostedEvents] delivers every save
    event that is still queued. *)
Fixpoint deliver_all (fuel : nat) (events : list sref) : Run (World scalar) unit :=
  match events with
  | [] => mret tt
  | ev :: rest => PostConfigSaver_event fuel ev;; deliver_all fuel rest
  end.

Definition PostConfigSaver_cleanup (fuel : nat) : Run (World scalar) unit :=
  events ← gets posted;
  modify (set_posted []);;
  deliver_all fuel events.

End Cursors.

(** ** Making a cursor from paths and fallbacks *)

Section Construction.
Context `{ScalarSpace scalar} `{PathOps}.

(** One pass of the constructor over the paths, for the user directory
    ([systemDir = false]) or the system one: a path is opened with
    [create] as long as no source is there yet, and a source is kept
    unless one of the same file name has been kept before. *)
Fixpoint open_paths (paths : list string) (systemDir : bool)
    (backend : option (ConfigBackend scalar)) (opened : gset string)
    (sources : list sref) : Run (World scalar) (gset string * list sref) :=
  match paths with
  | [] => mret (opened, sources)
  | path :: rest =>
      source ← ConfigSource_open path systemDir (bool_decide (sources = [])) backend;
      match source with
      | Some s =>
          src ← deref_source s;
          if bool_decide (fileName src ∈ opened)
          then open_paths rest systemDir backend opened sources
          else open_paths rest systemDir backend ({[fileName src]} ∪ opened)
                          (sources ++ [s])
      | None => open_paths rest systemDir backend opened sources
      end
  end.

(** [current()->atoms << source->data] for every source.  A source that
    has no tree would put a null pointer among the atoms, for the first
    read to trip over; here it is tripped over at once. *)
Fixpoint source_roots (sources : list sref) : Run (World scalar) (list loc) :=
  match sources with
  | [] => mret []
  | s :: rest =>
      src ← deref_source s;
      match data src with
      | Some root => roots ← source_roots rest; mret (root :: roots)
      | None => throw NullPointer
      end
  end.

(** The fallbacks: each is built read-only; those that come out as a
    scalar or as nothing are passed over. *)
Fixpoint fallback_atoms (fallbacks : list (QVariant scalar))
    : Run (Heap scalar) (list loc) :=
  match fallbacks with
  | [] => mret []
  | value :: rest =>
      fallback ← fromVariant value true;
      a ← deref fallback;
      atoms ← fallback_atoms rest;
      mret (if isNullAtom a || isValue a then atoms else fallback :: atoms)
  end.

(** [ConfigPrivate::ConfigPrivate(paths, fallbacks, backend)] *)
Definition ConfigPrivate_open (paths : list string)
    (fallbacks : list (QVariant scalar)) (backend : option (ConfigBackend scalar))
    : Run (World scalar) ConfigPrivate :=
  '(opened, sources) ← open_paths paths false backend ∅ [];
  '(_, sources) ← open_paths paths true backend opened sources;
  roots ← source_roots sources;
  fallen ← on_heap (fallback_atoms fallbacks);
  mret (mkPrivate [mkLevel (roots ++ fallen) false] sources None).

(** [Config(path)], [Config(path, backend)], [Config(paths)],
    [Config(path, fallbacks)] and [Config(path, fallback)] *)
Definition Config_ofPath (path : string) : Run (World scalar) ConfigPrivate :=
  ConfigPrivate_open [path] [] None.
Definition Config_ofPathBackend (path : string) (backend : ConfigBackend scalar)
    : Run (World scalar) ConfigPrivate :=
  ConfigPrivate_open [path] [] (Some backend).
Definition Config_ofPaths (paths : list string) : Run (World scalar) ConfigPrivate :=
  ConfigPrivate_open paths [] None.
Definition Config_withFallbacks (path : string) (fallbacks : list (QVariant scalar))
    : Run (World scalar) ConfigPrivate :=
  ConfigPrivate_open [path] fallbacks None.
Definition Config_withFallback (path : string) (fallback : QVariant scalar)
    : Run (World scalar) ConfigPrivate :=
  ConfigPrivate_open [path] [fallback] None.

End Construction.


(** * Notions the properties are stated with *)

Section Notions.
Context `{ScalarSpace scalar} `{PathOps} `{CryptoService scalar}.
Implicit Types (h : Heap scalar) (p q : loc) (a : ConfigAtom scalar).
Implicit Types (ss : Session scalar) (w : World scalar).

Fixpoint vsize (v : QVariant scalar) : nat :=
  match v with
  | QInvalid | QScalar _ => 1
  | QMapV m => S (map_fold (λ _ c acc, vsize c + acc) 0 m)
  | QListV l => S (foldr (λ c acc, vsize c + acc) 0 l)
  end.

(** The addresses held by an atom. *)
Definition children a : list loc :=
  match m_data a with
  | AsMap m => (map_to_list m).*2
  | AsList l => l
  | AsValue _ | AsNull => []
  end.

(** The addresses [toVariant] may look at. *)
Fixpoint footprint (fuel : nat) h p : gset loc :=
  match fuel with
  | O => ∅
  | S n => {[p]} ∪ match h !! p with
                   | Some a => ⋃ (footprint n h <$> children a)
                   | None => ∅
                   end
  end.

(** A store that only grows keeps every tree. *)
Definition extends h h' : Prop := ∀ q, q ∈ dom h → h' !! q = h !! q.

(** What [fromVariant] leaves at the address it returns. *)
Definition tag_of (v : QVariant scalar) : Type_ :=
  match v with
  | QInvalid => Null | QScalar _ => Value | QMapV _ => Map | QListV _ => List
  end.

Record built (ro : bool) (v : QVariant scalar) h h' p : Prop := {
  built_fresh : p = fresh (dom h);
  built_extends : extends h h';
  built_root : ∃ a, h' !! p = Some a ∧ m_readOnly a = ro ∧ type a = tag_of v;
  built_tree : ∀ n, vsize v ≤ n → toVariant n h' p = Some v;
  built_footprint : ∀ n, footprint n h' p ⊆ dom h' ∖ dom h
}.

Definition builds (ro : bool) (v : QVariant scalar) : Prop :=
  ∀ h, ∃ c h', fromVariant v ro h = Ok c h' ∧ built ro v h h' c.

(** One round of the loop over a map variant. *)
Definition add_entry (ro : bool) (result : loc) (key : string)
    (value : QVariant scalar) : Run (Heap scalar) unit :=
  c ← fromVariant value ro;
  map ← ensureMap result;
  store result (AsMap (<[key := c]> map)).

Definition add_item (ro : bool) (result : loc) (value : QVariant scalar)
    : Run (Heap scalar) unit :=
  c ← fromVariant value ro;
  l ← ensureList result;
  store result (AsList (l ++ [c])).

(** What one layer holds at a key: the tree value of the child, unless
    there is none or it is null. *)
Definition layer_value (fuel : nat) h (m : gmap string loc) (k : string)
    : option (QVariant scalar) :=
  child ← m !! k;
  v ← toVariant fuel h child;
  if isNull v then None else Some v.

Definition with_null_child h p (m : gmap string loc) (k : string) : Heap scalar :=
  <[p := mkAtom (AsMap (<[k := fresh (dom h)]> m)) false]>
    (<[fresh (dom h) := mkAtom AsNull false]> h).

(** The last step of [value]: the default for a null result, and the
    decryption when asked for. *)
Definition finish (flags : ValueFlags) (def var : QVariant scalar) : QVariant scalar :=
  match flags with
  | Crypted => if isNull var then def else decrypt var
  | Normal => if isNull var then def else var
  end.

Definition replaced h p a (m : gmap string loc) (name : string) (node : loc)
    : Heap scalar :=
  <[p := mkAtom (AsMap (<[name := node]> m)) (m_readOnly a)]> h.

(** Paths through the store. *)
Inductive reaches h : loc → loc → Prop :=
| reaches_here p : reaches h p p
| reaches_child p a c q :
    h !! p = Some a → c ∈ children a → reaches h c q → reaches h p q.

(** An atom is settled for a key when the loop of [value] has nothing to
    add to it: it is no map, or a map that has the key or may not be
    written. *)
Definition settled (k : string) a : Prop :=
  match m_data a with
  | AsMap m => is_Some (m !! k) ∨ m_readOnly a = true
  | _ => True
  end.

(** The session with another stack of frames. *)
Definition with_levels (ls : list ConfigLevel) ss : Session scalar :=
  mkSession (mkPrivate ls (sources (d_ptr ss)) (memoryGuard (d_ptr ss))) (world ss).

(** The second half of [endArray]: the list frame goes, unless it is the
    root frame or an element frame. *)
Definition pop_list_frame : Run (Session scalar) unit :=
  d ← gets d_ptr;
  Q_ASSERT (bool_decide (1 < length (levels d))%nat);;
  cur ← current;
  Q_ASSERT (negb (arrayElement cur));;
  takeFirst.

Definition make_dirty (src : ConfigSource scalar) : ConfigSource scalar :=
  mkSource (fileName src) (backend src) true (isAtLoop src) (data src)
           (lastModified src).

(** The session after a removal that took something out of the first
    atom [A]: the atom has its new payload and the first source is dirty. *)
Definition after_removal ss (A : loc) (a' : ConfigAtom scalar) (s : sref)
    (src : ConfigSource scalar) : Session scalar :=
  mkSession (d_ptr ss)
    (set_sourceStore (<[s := make_dirty src]> (sourceStore (world ss)))
       (set_heap (<[A := a']> (heap (world ss))) (world ss))).

(** The source once its save is queued, and the world once the event is
    posted. *)
Definition queued (src : ConfigSource scalar) : ConfigSource scalar :=
  mkSource (fileName src) (backend src) false true (data src) (lastModified src).

Definition post_save (s : sref) (src : ConfigSource scalar) w : World scalar :=
  set_posted (posted w ++ [s])
    (set_sourceStore (<[s := queued src]> (sourceStore w)) w).

(** Two worlds with the same posted events and the same queued bits. *)
Definition same_queue w w' : Prop :=
  posted w' = posted w ∧
  ∀ s, isAtLoop <$> (sourceStore w' !! s) = isAtLoop <$> (sourceStore w !! s).

Definition keeps_queue {A} (m : Run (Session scalar) A) : Prop :=
  ∀ ss x ss', m ss = Ok x ss' → same_queue (world ss) (world ss').

(** What can happen between two looks at the world: some cursor writes,
    some cursor syncs, or the event loop delivers the oldest save event. *)
Inductive label := LSetValue | LSync | LDispatch (ev : sref).

Inductive step (fuel : nat) : label → World scalar → World scalar → Prop :=
| step_setValue d key value flags w ss' :
    Config_setValue fuel key value flags (mkSession d w) = Ok tt ss' →
    step fuel LSetValue w (world ss')
| step_sync d w w' :
    ConfigPrivate_sync d w = Ok tt w' →
    step fuel LSync w w'
| step_dispatch ev rest w w' :
    posted w = ev :: rest →
    dispatch fuel w = Ok tt w' →
    step fuel (LDispatch ev) w w'.

Definition run_of (fuel : nat) : relation (World scalar) :=
  rtc (λ w w', ∃ l, step fuel l w w').

(** Every source has one event in the queue when its bit is set and none
    when it is clear. *)
Definition coalesced w : Prop :=
  ∀ s src, sourceStore w !! s = Some src →
    count_occ Nat.eq_dec (posted w) s = if isAtLoop src then 1 else 0.

(** The queued bit, as an option: [None] when there is no such source. *)
Definition queued_bit w (s : sref) : option bool := isAtLoop <$> (sourceStore w !! s).

(** Two worlds that differ in the cache and the timers only. *)
Definition same_documents w w' : Prop :=
  heap w' = heap w ∧ sourceStore w' = sourceStore w ∧ fs w' = fs w ∧
  all_config_backends w' = all_config_backends w ∧ posted w' = posted w ∧
  now w' = now w.

(** Five minutes, in the milliseconds [QBasicTimer::start] counts in. *)
Definition five_minutes_msec : Z := 5 * 60 * 1000.

(** The event loop and its clock: a timer is due once its interval, in
    milliseconds, has passed since it was started. *)
Definition timer_due (w : World scalar) (t : nat) : bool :=
  match timers w !! t with
  | Some tm => bool_decide (started tm + interval tm ≤ now w)%Z
  | None => false
  end.

Definition advance (msec : Z) : Run (World scalar) unit :=
  modify (λ w, set_now (now w + msec)%Z w).

Definition deliver_timer (t : nat) : Run (World scalar) unit :=
  w ← gets id;
  if timer_due w t then ConfigSourceHash_timerEvent t else mret tt.

(** The name [open] asks the [QFileInfo] about, and the canonical name it
    looks up in the cache. *)
Definition asked (path : string) : string :=
  if isEmpty path then "profile"%string else path.

Definition canonical (path : string) (systemDir : bool) : string :=
  cleanPath (if negb (isAbsolute (asked path))
             then (if systemDir then systemConfigDirFilePath (asked path)
                   else configDirFilePath (asked path))
             else asked path).

(** The flag [open] computes from the file permissions and [systemDir]. *)
Definition readOnly_flag (fs0 : FileSystem) (info : string) (systemDir : bool) : bool :=
  negb (isWritable fs0 info) && (systemDir || exists_ fs0 info).

Definition value_or_null (v : QVariant scalar) : bool :=
  match v with
  | QInvalid | QScalar _ => true
  | QMapV _ | QListV _ => false
  end.

(** The files once [mkpath] has made sure of the directory. *)
Definition with_dir (fs0 : FileSystem) (dir : string) : FileSystem :=
  if bool_decide (dir ∈ dirs fs0) then fs0
  else mkFS (files fs0) ({[dir]} ∪ dirs fs0).

(** The world at the moment [open] calls the backend: the directory is
    there and the new source is in place, stamped. *)
Definition before_load (b : ConfigBackend scalar) (fileName info : string) w
    : World scalar :=
  let fs1 := with_dir (fs w) (absolutePath info) in
  set_sourceStore
    (<[fresh (dom (sourceStore w)) :=
         mkSource fileName (Some b) false false None (lastModifiedOf fs1 fileName)]>
       (sourceStore w))
    (set_fs fs1 w).

(** What [open] does once the tree is loaded. *)
Definition after_load (fileName : string) (create : bool) (d : sref) (readOnly : bool)
    (value : QVariant scalar) : Run (World scalar) (option sref) :=
  root ← on_heap (fromVariant value readOnly);
  set_data d root;;
  a ← on_heap (deref root);
  if isValue a || isNullAtom a then
    if negb create then mret None
    else
      root' ← on_heap (fromVariant (QMapV ∅) readOnly);
      set_data d root';;
      ConfigSourceHash_insert fileName d;;
      mret (Some d)
  else
    ConfigSourceHash_insert fileName d;;
    mret (Some d).

Definition with_data (src : ConfigSource scalar) (root : loc) : ConfigSource scalar :=
  mkSource (fileName src) (backend src) (dirty src) (isAtLoop src) (Some root)
           (lastModified src).

(** The cache holds nothing under [key] that passes
    [result && result->isValid()]: no entry, or one whose source bears
    another stamp than its file. *)
Definition no_valid_entry (w : World scalar) (key : string) : Prop :=
  ∀ it s, m_hash (sourceHash w) !! key = Some it → config it = Some s →
    ∃ src, sourceStore w !! s = Some src
           ∧ lastModifiedOf (fs w) (fileName src) ≠ lastModified src.

(** [open] gets past the cache and settles on a backend, on the name of
    the file to open and on the name its [QFileInfo] holds.  The backend
    is the one given, or the registered one named like the suffix, the
    [QFileInfo] being left on the path as asked; or else the first
    registered backend, whose name is appended to the file name, the
    cache looked up again and the [QFileInfo] set to the new name. *)
Inductive settles (w : World scalar) (path : string) (systemDir : bool)
  : option (ConfigBackend scalar) → ConfigBackend scalar → string → string → Prop :=
| settles_given b :
    no_valid_entry w (canonical path systemDir) →
    settles w path systemDir (Some b) b (canonical path systemDir) (asked path)
| settles_by_suffix b :
    backend_for_suffix (all_config_backends w) (suffix (asked path)) = Some b →
    no_valid_entry w (canonical path systemDir) →
    settles w path systemDir None b (canonical path systemDir) (asked path)
| settles_on_first first rest :
    all_config_backends w = first :: rest →
    backend_for_suffix (all_config_backends w) (suffix (asked path)) = None →
    no_valid_entry w (canonical path systemDir) →
    no_valid_entry w (canonical path systemDir ++ "." ++ backend_name first)%string →
    settles w path systemDir None first
      (canonical path systemDir ++ "." ++ backend_name first)%string
      (canonical path systemDir ++ "." ++ backend_name first)%string.

End Notions.

(** ** More notions the statements use *)

(** ** Path names *)

(** The pieces of a name between its slashes, empty ones included. *)
Fixpoint segments_from (s cur : string) : list string :=
  match s with
  | EmptyString => [cur]
  | String c s' =>
      if bool_decide (c = "/"%char) then cur :: segments_from s' EmptyString
      else segments_from s' (cur ++ String c EmptyString)
  end.

Definition segments (s : string) : list string := segments_from s EmptyString.

Fixpoint slash_free (s : string) : bool :=
  match s with
  | EmptyString => true
  | String c s' => negb (bool_decide (c = "/"%char)) && slash_free s'
  end.

(** The names joined with slashes, as a path is written. *)
Fixpoint join_names (names : list string) : string :=
  match names with
  | [] => EmptyString
  | [name] => name
  | name :: rest => name ++ "/" ++ join_names rest
  end.

Fixpoint first_slash (s : string) : option nat :=
  match s with
  | EmptyString => None
  | String c s' => if bool_decide (c = "/"%char) then Some 0%nat else S <$> first_slash s'
  end.

Section Notions2.
Context `{ScalarSpace scalar} `{PathOps} `{CryptoService scalar}.
Implicit Types (h : Heap scalar) (p q : loc) (a : ConfigAtom scalar).
Implicit Types (ss : Session scalar) (w : World scalar).

(** What [setValue] puts in the store, and what [value] makes of it. *)
Definition stored (flags : ValueFlags) (v : QVariant scalar) : QVariant scalar :=
  match flags with Crypted => crypt v | Normal => v end.

Definition read_back (flags : ValueFlags) (v : QVariant scalar) : QVariant scalar :=
  match flags with Crypted => decrypt (crypt v) | Normal => v end.

(** Whether [replace] has a change to make under [k]: the key is not
    there, or [operator!=] tells the tree value it holds from the new
    one. *)
Definition changes (fuel : nat) h (m : gmap string loc) (k : string)
    (var : QVariant scalar) : bool :=
  match m !! k with
  | None => true
  | Some old =>
      match toVariant fuel h old with
      | Some vo => negb (QVariant_equal vo var)
      | None => true
      end
  end.

End Notions2.

Section Notions3.
Context `{ScalarSpace scalar}.
Implicit Types (h : Heap scalar) (p q : loc) (a : ConfigAtom scalar).

(** The entries a walk over a frame comes by: those of its atoms that are
    maps, atom after atom. *)
Definition map_entries h p : list (string * loc) :=
  match h !! p with
  | Some a => match m_data a with
              | AsMap m => entries_in_key_order m
              | _ => []
              end
  | None => []
  end.

Definition frame_entries h (l : list loc) : list (string * loc) :=
  l ≫= map_entries h.

(** Every atom of the frame is there, and so are the children of those
    that are maps. *)
Definition frame_allocated h (l : list loc) : Prop :=
  ∀ p, p ∈ l → ∃ a, h !! p = Some a ∧
    ∀ m, m_data a = AsMap m → ∀ k c, m !! k = Some c → is_Some (h !! c).

(** The [name] is bound, in one of the maps of the frame, to a child that
    is a map ([group = true]) or that is not ([group = false]). *)
Definition listed h (l : list loc) (group : bool) (name : string) : Prop :=
  ∃ p a m c ca, p ∈ l ∧ h !! p = Some a ∧ m_data a = AsMap m ∧
                m !! name = Some c ∧ h !! c = Some ca ∧ isMap ca = group.

(** A callback that looks at the child and at nothing else. *)
Definition looking {Acc} (f : string → ConfigAtom scalar → Acc → Acc)
    : string → loc → Acc → Run (Heap scalar) Acc :=
  λ name atom acc, a ← deref atom; mret (f name a acc).

Definition looked {Acc} (f : string → ConfigAtom scalar → Acc → Acc) h
    (acc : Acc) (entry : string * loc) : Acc :=
  match h !! entry.2 with
  | Some a => f entry.1 a acc
  | None => acc
  end.

Definition is_group h (group : bool) (e : string * loc) : bool :=
  match h !! e.2 with
  | Some a => bool_decide (isMap a = group)
  | None => false
  end.

End Notions3.

Section Notions4.
Context `{ScalarSpace scalar}.
Implicit Types (h : Heap scalar) (p q : loc) (a : ConfigAtom scalar).

(** No atom of the store holds an address that is not in the store. *)
Definition closed h : Prop :=
  ∀ p a, h !! p = Some a → ∀ c, c ∈ children a → c ∈ dom h.

(** The atom at [p] has the given tag. *)
Definition tagged (ty : Type_) p h : Prop :=
  ∃ a, h !! p = Some a ∧ type a = ty.

(** A step of navigation: the store stays closed, nothing is freed and
    no atom changes its read-only flag. *)
Record navigates h h' : Prop := {
  nav_closed : closed h';
  nav_dom : dom h ⊆ dom h';
  nav_flag : ∀ q a, h !! q = Some a →
             ∃ a', h' !! q = Some a' ∧ m_readOnly a' = m_readOnly a
}.

End Notions4.

Section Notions5.
Context {scalar : Type}.
Implicit Types (w : World scalar).

(** The cache and the event loop agree: every entry has a timer that is
    running, and the table of timers leads from it back to the entry. *)
Definition cache_consistent w : Prop :=
  ∀ key it, m_hash (sourceHash w) !! key = Some it →
    timer it ≠ 0%nat
    ∧ m_timers (sourceHash w) !! timer it = Some key
    ∧ is_Some (timers w !! timer it).

(** The running timers once that of an entry is stopped. *)
Definition stopped (t : nat) (running : gmap nat Timer) : gmap nat Timer :=
  if bool_decide (t ≠ 0%nat) then delete t running else running.

End Notions5.

Section Notions6.
Context `{ScalarSpace scalar} `{PathOps}.
Implicit Types (w : World scalar).

(** What [open] leaves behind when it has loaded a file: the new source
    [d], clean, stamped, with a root that is a map or a list and carries
    the read-only flag, and the cache entry for the name. *)
Definition loaded (fileName : string) (b : ConfigBackend scalar) (d : sref)
    (ro : bool) (stamp : QDateTime) w : Prop :=
  ∃ root a t,
    sourceStore w !! d = Some (mkSource fileName (Some b) false false (Some root) stamp)
    ∧ heap w !! root = Some a ∧ m_readOnly a = ro
    ∧ (type a = Map ∨ type a = List)
    ∧ m_hash (sourceHash w) !! fileName = Some (mkInfo t (Some d)).

End Notions6.

Section Notions7.
Context `{ScalarSpace scalar}.
Implicit Types (w : World scalar).

(** A source that can be saved: it is there, with its backend and a root
    whose tree materialises. *)
Definition saveable (fuel : nat) w (s : sref) : Prop :=
  ∃ src b root,
    sourceStore w !! s = Some src ∧ backend src = Some b ∧ data src = Some root
    ∧ is_Some (toVariant fuel (heap w) root).

End Notions7.

Section Notions8.
Context `{ScalarSpace scalar}.
Implicit Types (h : Heap scalar) (p q : loc).

(** The atom at [p] is the read-only root of the tree value [v]. *)
Definition fallback_of h p (v : QVariant scalar) : Prop :=
  toVariant (vsize v) h p = Some v
  ∧ ∃ a, h !! p = Some a ∧ m_readOnly a = true ∧ type a = tag_of v.

(** The source [d] of the world, with its file name and its root. *)
Definition layer_of (w : World scalar) (name : string) (d : sref) (root : loc) : Prop :=
  ∃ src, sourceStore w !! d = Some src ∧ fileName src = name
         ∧ data src = Some root ∧ dirty src = false.

End Notions8.

(** ** A small instance to run the model on *)

(** Integers, strings, and the default-constructed string for which
    [QVariant::isNull] answers yes. *)
Variant QtScalar := QtInt (n : Z) | QtString (s : string) | QtNullString.

#[global] Instance QtScalar_eq_dec : EqDecision QtScalar.
Proof. solve_decision. Defined.

(** [QString::number] of an integer, and [QString::toInt] on ASCII text:
    white space around, a sign, decimal digits, the range of [int]. *)
Definition number (n : Z) : string := pretty n.

Definition is_space (c : ascii) : bool :=
  let n := N_of_ascii c in bool_decide (n = 32 ∨ 9 ≤ n ≤ 13)%N.

Definition digit_of (c : ascii) : option Z :=
  let n := Z.of_N (N_of_ascii c) in
  if bool_decide (48 ≤ n ≤ 57)%Z then Some (n - 48)%Z else None.

Fixpoint skip_spaces (s : string) : string :=
  match s with
  | String c rest => if is_space c then skip_spaces rest else s
  | EmptyString => s
  end.

Fixpoint all_spaces (s : string) : bool :=
  match s with
  | String c rest => is_space c && all_spaces rest
  | EmptyString => true
  end.

Fixpoint read_digits (s : string) (acc : option Z) : option Z :=
  match s with
  | EmptyString => acc
  | String c rest =>
      match digit_of c with
      | Some d => read_digits rest (Some (10 * default 0 acc + d)%Z)
      | None => if all_spaces s then acc else None
      end
  end.

Definition toInt (s : string) : option Z :=
  let '(negative, digits) :=
    match skip_spaces s with
    | String "-" rest => (true, rest)
    | String "+" rest => (false, rest)
    | rest => (false, rest)
    end in
  n ← read_digits digits None;
  let v := (if negative : bool then - n else n)%Z in
  if bool_decide (-2147483648 ≤ v ≤ 2147483647)%Z then Some v else None.

(** [QVariant::operator==] on these scalars: the right operand is
    converted to the type of the left one, a null variant converts to
    nothing, and [QString::operator==] does not tell the null string from
    the empty one.  No conversion leads from these scalars to an invalid
    variant, a map or a list, or back. *)
Definition QtScalar_cmp (v1 v2 : QVariant QtScalar) : bool :=
  match v1, v2 with
  | QScalar (QtInt n), QScalar (QtInt m) => bool_decide (n = m)
  | QScalar (QtInt n), QScalar (QtString s) => bool_decide (toInt s = Some n)
  | QScalar (QtInt _), QScalar QtNullString => false
  | QScalar (QtString s), QScalar (QtInt n) => bool_decide (s = number n)
  | QScalar QtNullString, QScalar (QtInt _) => false
  | QScalar (QtString s), QScalar (QtString t) => bool_decide (s = t)
  | QScalar (QtString s), QScalar QtNullString
  | QScalar QtNullString, QScalar (QtString s) => isEmpty s
  | QScalar QtNullString, QScalar QtNullString => true
  | _, _ => false
  end.

#[global] Instance QtScalar_space : ScalarSpace QtScalar := {|
  scalar_isNull s := match s with QtNullString => true | _ => false end;
  scalar_cmp := QtScalar_cmp
|}.

(** [QByteArray::toLower] on ASCII text. *)
Definition lower (c : ascii) : ascii :=
  let n := N_of_ascii c in
  if bool_decide (65 ≤ n ≤ 90)%N then ascii_of_N (n + 32) else c.

Fixpoint toLower (s : string) : string :=
  match s with
  | String c rest => String (lower c) (toLower rest)
  | EmptyString => s
  end.

(** Unix-like paths, kept simple: absolute when starting with a slash and
    already clean.  A relative name is taken from the working directory;
    the suffix is what follows the last dot of the file name, in lower
    case; the directory is what precedes the last slash, the root for a
    file at the root. *)
Definition working_directory : string := "/home/user".

Definition is_absolute (s : string) : bool :=
  match s with String "/" _ => true | _ => false end.

Definition absolute_name (s : string) : string :=
  if is_absolute s then s else (working_directory ++ "/" ++ s)%string.

#[global] Instance unix_paths : PathOps := {|
  isAbsolute := is_absolute;
  configDirFilePath s := ("/home/user/.config/qutim/" ++ s)%string;
  systemConfigDirFilePath s := ("/usr/share/qutim/config/" ++ s)%string;
  cleanPath s := s;
  suffix s := let name := mid s (lastIndexOf s "/" + 1) (-1) in
              let dot := lastIndexOf name "." in
              if bool_decide (dot = -1)%Z then EmptyString
              else toLower (mid name (dot + 1) (-1));
  absolutePath s := let name := absolute_name s in
                    let cut := lastIndexOf name "/" in
                    if bool_decide (cut = 0)%Z then "/"%string else mid name 0 cut
|}.

#[global] Instance plain_crypto : CryptoService QtScalar := {|
  crypt v := v;
  decrypt v := v
|}.

(** A backend that reads an empty file as nothing and any other file as
    an empty map. *)
Definition json : ConfigBackend QtScalar :=
  mkBackend "json"
    (λ fs0 path, match files fs0 !! path with
                 | Some f => if isEmpty (content f) then QInvalid else QMapV ∅
                 | None => QInvalid
                 end)
    (λ path _ fs0, mkFS (<[path := mkFile true 1 "{}"]> (files fs0)) (dirs fs0)).

Definition returned {St A} (o : outcome St A) : option A :=
  match o with Ok x _ => Some x | Fault _ => None end.

Definition final {St A} (o : outcome St A) : option St :=
  match o with Ok _ s => Some s | Fault _ => None end.

Definition clean_source (name : string) (root : loc) : ConfigSource QtScalar :=
  mkSource name (Some json) false false (Some root) (Some 1%Z).

Definition world_of (h : Heap QtScalar) (srcs : gmap sref (ConfigSource QtScalar))
    : World QtScalar :=
  mkWorld h srcs (mkHash ∅ ∅) [json] (mkFS ∅ ∅) ∅ 0 [].

Definition map_atom (entries : list (string * loc)) (ro : bool) : ConfigAtom QtScalar :=
  mkAtom (AsMap (list_to_map entries)) ro.

Definition value_atom (s : QtScalar) (ro : bool) : ConfigAtom QtScalar :=
  mkAtom (AsValue (QScalar s)) ro.

(** User layer [{k: "user"}] at 0 over system layer [{k: "sys", only: 1}]
    at 1. *)
Definition layered_heap : Heap QtScalar :=
  list_to_map [(0, map_atom [("k", 2)] false);
               (1, map_atom [("k", 3); ("only", 4)] true);
               (2, value_atom (QtString "user") false);
               (3, value_atom (QtString "sys") true);
               (4, value_atom (QtInt 1) true)].

Definition two_sources : gmap sref (ConfigSource QtScalar) :=
  list_to_map [(0, clean_source "/home/user/.config/qutim/t.json" 0);
               (1, clean_source "/usr/share/qutim/config/t.json" 1)].

Definition layered_session : Session QtScalar :=
  mkSession (mkPrivate [mkLevel [0; 1] false] [0; 1] None)
            (world_of layered_heap two_sources).

(** The same, with a null string under [k] in the user layer. *)
Definition null_string_heap : Heap QtScalar :=
  <[2 := value_atom QtNullString false]> layered_heap.

Definition null_string_session : Session QtScalar :=
  mkSession (mkPrivate [mkLevel [0; 1] false] [0; 1] None)
            (world_of null_string_heap two_sources).

(** An empty user layer over a system layer [{k: 1}]. *)
Definition empty_user_heap : Heap QtScalar :=
  list_to_map [(0, map_atom [] false);
               (1, map_atom [("k", 2)] true);
               (2, value_atom (QtInt 1) true)].

Definition empty_user_session : Session QtScalar :=
  mkSession (mkPrivate [mkLevel [0; 1] false] [0; 1] None)
            (world_of empty_user_heap two_sources).

(** One writable, empty map. *)
Definition single_session : Session QtScalar :=
  mkSession (mkPrivate [mkLevel [0] false] [0] None)
            (world_of (list_to_map [(0, map_atom [] false)]) two_sources).

(** A cursor inside element 0 of the array [xs]: the root frame, the list
    frame and the element frame. *)
Definition array_heap : Heap QtScalar :=
  list_to_map [(0, map_atom [("xs", 1)] false);
               (1, mkAtom (AsList [2]) false);
               (2, map_atom [] false)].

Definition array_session : Session QtScalar :=
  mkSession (mkPrivate [mkLevel [2] true; mkLevel [1] false; mkLevel [0] false]
                       [0] None)
            (world_of array_heap two_sources).

Definition root_array_session : Session QtScalar :=
  mkSession (mkPrivate [mkLevel [0] false] [0] None) (world_of array_heap two_sources).

(** Two sources, the second one dirty and not queued. *)
Definition second_dirty : gmap sref (ConfigSource QtScalar) :=
  list_to_map [(0, clean_source "/home/user/.config/qutim/t.json" 0);
               (1, mkSource "/usr/share/qutim/config/t.json" (Some json) true false
                            (Some 1) (Some 1%Z))].

Definition second_dirty_world : World QtScalar := world_of layered_heap second_dirty.

Definition both_sources : ConfigPrivate :=
  mkPrivate [mkLevel [0; 1] false] [0; 1] None.

(** The first source dirty and not queued. *)
Definition first_dirty_world : World QtScalar :=
  world_of layered_heap
    (<[0 := mkSource "/home/user/.config/qutim/t.json" (Some json) true false
                     (Some 0) (Some 1%Z)]> two_sources).

(** An existing file that may not be written and holds nothing. *)
Definition locked_file_world : World QtScalar :=
  mkWorld ∅ ∅ (mkHash ∅ ∅) [json]
    (mkFS {[ "/etc/qutim/q.json"%string := mkFile false 7 "" ]} {[ "/etc/qutim"%string ]})
    ∅ 0 [].

(** The user's file [t.json], there and locked, holding nothing; no file
    of that name in the working directory. *)
Definition locked_user_file_world : World QtScalar :=
  mkWorld ∅ ∅ (mkHash ∅ ∅) [json]
    (mkFS {[ "/home/user/.config/qutim/t.json"%string := mkFile false 7 "" ]}
          {[ "/home/user/.config/qutim"%string; "/home/user"%string ]})
    ∅ 0 [].

Definition no_file_world : World QtScalar :=
  mkWorld ∅ ∅ (mkHash ∅ ∅) [json] (mkFS ∅ ∅) ∅ 0 [].

(** A cache entry for a file that is gone: the source was loaded when the
    file bore stamp 5. *)
Definition stale_cache_world : World QtScalar :=
  mkWorld (list_to_map [(0, map_atom [] false)])
    {[ 0 := mkSource "/cfg/a.json" (Some json) false false (Some 0) (Some 5%Z) ]}
    (mkHash {[ "/cfg/a.json"%string := mkInfo 0 (Some 0) ]} ∅)
    [json] (mkFS ∅ ∅) ∅ 0 [].

(** The user layer alone, as a cursor on the root of the first source. *)
Definition user_only_session : Session QtScalar :=
  mkSession (mkPrivate [mkLevel [0] false] [0; 1] None)
            (world_of layered_heap two_sources).

(** A cursor on the list [xs], the list frame being current. *)
Definition list_frame_session : Session QtScalar :=
  mkSession (mkPrivate [mkLevel [1] false; mkLevel [0] false] [0] None)
            (world_of array_heap two_sources).

(** A cache with one entry whose timer runs. *)
Definition cached_world : World QtScalar :=
  mkWorld (list_to_map [(0, map_atom [] false)])
    {[ 0 := mkSource "/cfg/a.json" (Some json) false false (Some 0) None ]}
    (mkHash {[ "/cfg/a.json"%string := mkInfo 1 (Some 0) ]}
            {[ 1 := "/cfg/a.json"%string ]})
    [json] (mkFS ∅ ∅) {[ 1 := mkTimer 300 0 ]} 0 [].

(** The first source queued for saving. *)
Definition queued_world : World QtScalar :=
  post_save 0 (mkSource "/home/user/.config/qutim/t.json" (Some json) true false
                        (Some 0) (Some 1%Z)) first_dirty_world.

(** * Facts about the model *)

Section VariantFacts.
Context `{ScalarSpace scalar}.
Lemma vsize_pos (v : QVariant scalar) : 0 < vsize v.
Proof. destruct v; simpl; lia. Qed.

Lemma vsize_entry (m : gmap string (QVariant scalar)) key c :
  m !! key = Some c → vsize c < vsize (QMapV m).
Proof.
  intros Hc. simpl.
  rewrite (map_fold_delete_L _ _ key c m); [lia | intros; lia | done].
Qed.

Lemma vsize_item (l : list (QVariant scalar)) c :
  c ∈ l → vsize c < vsize (QListV l).
Proof.
  simpl. induction 1 as [|? ? ? _ IH]; simpl; lia.
Qed.

Lemma QVariant_tree_ind (P : QVariant scalar → Prop) :
  P QInvalid →
  (∀ s, P (QScalar s)) →
  (∀ m, map_Forall (λ _, P) m → P (QMapV m)) →
  (∀ l, Forall P l → P (QListV l)) →
  ∀ v, P v.
Proof.
  intros HI HS HM HL v.
  remember (vsize v) as n eqn:Hn.
  revert v Hn. induction n as [n IH] using lt_wf_ind. intros v ->.
  destruct v as [|s|m|l]; [done | done | |].
  - apply HM. intros key c Hc. eapply IH; [|done]. by eapply vsize_entry.
  - apply HL. apply Forall_forall. intros c Hc. eapply IH; [|done].
    by apply vsize_item.
Qed.

(** ** [collect_entries] gathers every entry or fails *)

Lemma collect_entries_Some {A B} (f : A → option B) (m : gmap string A) r :
  collect_entries f m = Some r ↔
  ∀ key, r !! key = (m !! key) ≫= f ∧ (is_Some (m !! key) → is_Some (r !! key)).
Proof.
  unfold collect_entries. revert r.
  induction m as [|i x m Hi Hfst IH] using map_first_key_ind; intros r.
  - rewrite map_fold_empty. split.
    + intros [= <-] key. rewrite !lookup_empty. split; [done|]. by intros [? ?].
    + intros Hr. f_equal. apply map_eq. intros key.
      destruct (Hr key) as [-> _]. by rewrite !lookup_empty.
  - rewrite map_fold_insert_first_key by done.
    destruct (map_fold _ _ m) as [r0|] eqn:Hfold; simpl.
    + destruct (f x) as [y|] eqn:Hfx; simpl.
      * split.
        -- intros [= <-] key. destruct (decide (i = key)) as [->|Hne].
           ++ rewrite !lookup_insert_eq. simpl. rewrite Hfx. eauto.
           ++ rewrite !lookup_insert_ne by done. by apply IH.
        -- intros Hr. f_equal. apply map_eq. intros key.
           destruct (Hr key) as [-> _].
           destruct (decide (i = key)) as [->|Hne].
           ++ rewrite !lookup_insert_eq. simpl. by rewrite Hfx.
           ++ rewrite !lookup_insert_ne by done.
              by destruct (proj1 (IH r0) eq_refl key) as [-> _].
      * split; [done|]. intros Hr. destruct (Hr i) as [Hri Hsome].
        rewrite lookup_insert_eq in Hri, Hsome. simpl in Hri. rewrite Hfx in Hri.
        destruct Hsome as [? Hs]; [eauto|]. congruence.
    + split; [done|]. intros Hr.
      assert (∃ r' : gmap string B, ∀ key, r' !! key = (m !! key) ≫= f ∧ (is_Some (m !! key) → is_Some (r' !! key))) as [r' Hr'].
      { exists (delete i r). intros key. destruct (decide (i = key)) as [->|Hne].
        - rewrite lookup_delete_eq, Hi. split; [done|]. by intros [? ?].
        - rewrite lookup_delete_ne by done. specialize (Hr key).
          by rewrite lookup_insert_ne in Hr by done. }
      apply IH in Hr'. congruence.
Qed.

End VariantFacts.

Section HeapFacts.
Context `{ScalarSpace scalar}.
Implicit Types (h : Heap scalar) (p q : loc) (a : ConfigAtom scalar).
Lemma collect_entries_ext {A B} (f g : A → option B) (m : gmap string A) :
  (∀ key x, m !! key = Some x → f x = g x) →
  collect_entries f m = collect_entries g m.
Proof.
  unfold collect_entries.
  induction m as [|i x m Hi Hfst IH] using map_first_key_ind; intros Hfg.
  - by rewrite !map_fold_empty.
  - rewrite !map_fold_insert_first_key by done.
    rewrite IH, (Hfg i x); [done | by rewrite lookup_insert_eq |].
    intros key y Hy. apply (Hfg key). rewrite lookup_insert_ne; [done|].
    intros ->. congruence.
Qed.

Lemma mapM_ext_in {A B} (f g : A → option B) (l : list A) :
  (∀ x, x ∈ l → f x = g x) → mapM f l = mapM g l.
Proof.
  induction l as [|x l IH]; intros Hfg; [done|]. simpl.
  rewrite (Hfg x), IH; [done | | left]. intros y Hy. apply Hfg. by right.
Qed.

Lemma elem_of_children_map a m key c :
  m_data a = AsMap m → m !! key = Some c → c ∈ children a.
Proof.
  intros Ha Hc. unfold children. rewrite Ha.
  apply list_elem_of_fmap. exists (key, c). split; [done|].
  by apply elem_of_map_to_list.
Qed.

Lemma footprint_child n h p a c :
  h !! p = Some a → c ∈ children a → footprint n h c ⊆ footprint (S n) h p.
Proof.
  intros Hp Hc. simpl. rewrite Hp. intros q Hq. apply elem_of_union_r.
  apply elem_of_union_list. exists (footprint n h c). split; [|done].
  apply list_elem_of_fmap. eauto.
Qed.

Lemma footprint_self n h p : p ∈ footprint (S n) h p.
Proof. simpl. set_solver. Qed.

(** Two stores that agree on the footprint give the same tree. *)
Lemma toVariant_agree n h h' p :
  (∀ q, q ∈ footprint n h p → h' !! q = h !! q) →
  toVariant n h' p = toVariant n h p.
Proof.
  revert p. induction n as [|n IH]; intros p Hag; [done|].
  simpl. rewrite (Hag p) by apply footprint_self.
  destruct (h !! p) as [a|] eqn:Hp; [|done]. simpl.
  destruct (m_data a) as [l|m|v|] eqn:Ha; [| |done|done].
  - f_equal. apply mapM_ext_in. intros c Hc. apply IH. intros q Hq.
    apply Hag. eapply footprint_child; [done| |done]. unfold children. by rewrite Ha.
  - f_equal. apply collect_entries_ext. intros key c Hc. apply IH. intros q Hq.
    apply Hag. eapply footprint_child; [done| |done].
    by eapply elem_of_children_map.
Qed.

Lemma footprint_agree n h h' p :
  (∀ q, q ∈ footprint n h p → h' !! q = h !! q) →
  footprint n h' p = footprint n h p.
Proof.
  revert p. induction n as [|n IH]; intros p Hag; [done|].
  simpl. rewrite (Hag p) by apply footprint_self.
  destruct (h !! p) as [a|] eqn:Hp; [|done]. f_equal. f_equal.
  apply list_fmap_ext. intros i c Hc. apply IH. intros q Hq. apply Hag.
  eapply footprint_child; [done| |done]. by eapply list_elem_of_lookup_2.
Qed.

Lemma mapM_elem_Some {A B} (f : A → option B) (l : list A) vs x :
  mapM f l = Some vs → x ∈ l → is_Some (f x).
Proof.
  intros Hl%mapM_Some [i Hi]%list_elem_of_lookup_1.
  destruct (Forall2_lookup_l _ _ _ _ _ Hl Hi) as (y & _ & Hy). eauto.
Qed.

Lemma collect_entries_elem_Some {A B} (f : A → option B) (m : gmap string A) r key x :
  collect_entries f m = Some r → m !! key = Some x → is_Some (f x).
Proof.
  intros Hr Hx. destruct (proj1 (collect_entries_Some f m r) Hr key) as [Hk Hs].
  rewrite Hx in Hk, Hs. simpl in Hk. rewrite <- Hk. apply Hs. eauto.
Qed.

(** A tree that materialises only looks at allocated addresses. *)
Lemma toVariant_footprint_dom n h p v :
  toVariant n h p = Some v → footprint n h p ⊆ dom h.
Proof.
  revert p v. induction n as [|n IH]; intros p v Hv; [done|].
  simpl in *. destruct (h !! p) as [a|] eqn:Hp; [|done]. simpl in Hv.
  apply union_subseteq. split.
  { apply singleton_subseteq_l. by eapply elem_of_dom_2. }
  intros q [X [[c [-> Hc]]%list_elem_of_fmap Hq]]%elem_of_union_list.
  unfold children in Hc. destruct (m_data a) as [l|m|w|] eqn:Ha.
  - destruct (mapM (toVariant n h) l) as [vs|] eqn:Hl; [|done].
    destruct (mapM_elem_Some _ _ _ _ Hl Hc) as [vc Hvc].
    by apply (IH c vc).
  - destruct (collect_entries (toVariant n h) m) as [r|] eqn:Hm; [|done].
    apply list_elem_of_fmap in Hc as [[key c'] [-> Hkc%elem_of_map_to_list]].
    destruct (collect_entries_elem_Some _ _ _ _ _ Hm Hkc) as [vc Hvc].
    by apply (IH c' vc).
  - by apply elem_of_nil in Hc.
  - by apply elem_of_nil in Hc.
Qed.

Lemma extends_refl h : extends h h.
Proof. by intros q _. Qed.

Lemma extends_dom h h' : extends h h' → dom h ⊆ dom h'.
Proof.
  intros He q Hq. rewrite elem_of_dom, (He q Hq). by rewrite <- elem_of_dom.
Qed.

Lemma extends_trans h1 h2 h3 : extends h1 h2 → extends h2 h3 → extends h1 h3.
Proof.
  intros H12 H23 q Hq. rewrite (H23 q), (H12 q); [done..|].
  by apply (extends_dom _ _ H12).
Qed.

Lemma toVariant_extends n h h' p v :
  extends h h' → toVariant n h p = Some v → toVariant n h' p = Some v.
Proof.
  intros He Hv. rewrite <- Hv. apply toVariant_agree. intros q Hq.
  apply He. by eapply toVariant_footprint_dom.
Qed.

Lemma create_fresh ro h :
  create ro h = Ok (fresh (dom h)) (<[fresh (dom h) := mkAtom AsNull ro]> h).
Proof. done. Qed.

Lemma extends_alloc h p a : p ∉ dom h → extends h (<[p := a]> h).
Proof.
  intros Hp q Hq. rewrite lookup_insert_ne; [done|]. intros ->. done.
Qed.

End HeapFacts.

Section MonadFacts.
Context {St : Type}.
Lemma run_bind {A B} (m : Run St A) (k : A → Run St B) s :
  (m ≫= k) s = match m s with Ok a s' => k a s' | Fault f => Fault f end.
Proof. done. Qed.

Lemma run_ret {A} (a : A) (s : St) : (mret a : Run St A) s = Ok a s.
Proof. done. Qed.

Lemma run_assert_true (s : St) : Q_ASSERT true s = Ok tt s.
Proof. done. Qed.

Lemma run_assert_false (s : St) : Q_ASSERT false s = Fault AssertFailed.
Proof. done. Qed.

End MonadFacts.

Ltac run_with H := rewrite run_bind, H; cbv beta iota.

Section AtomFacts.
Context `{ScalarSpace scalar}.
Implicit Types (h : Heap scalar) (p q : loc) (a : ConfigAtom scalar).
Lemma deref_Some h p a : h !! p = Some a → deref p h = Ok a h.
Proof. unfold deref. by intros ->. Qed.

Lemma store_Some h p a d :
  h !! p = Some a → store p d h = Ok tt (<[p := mkAtom d (m_readOnly a)]> h).
Proof. intros Hp. unfold store. by run_with (deref_Some _ _ _ Hp). Qed.

Lemma ensureMap_Map h p a m :
  h !! p = Some a → m_data a = AsMap m → ensureMap p h = Ok m h.
Proof. intros Hp Ha. unfold ensureMap. run_with (deref_Some _ _ _ Hp). by rewrite Ha. Qed.

Lemma ensureList_List h p a l :
  h !! p = Some a → m_data a = AsList l → ensureList p h = Ok l h.
Proof. intros Hp Ha. unfold ensureList. run_with (deref_Some _ _ _ Hp). by rewrite Ha. Qed.

Lemma ensureMap_Null h p ro :
  h !! p = Some (mkAtom AsNull ro) →
  ensureMap p h = Ok ∅ (<[p := mkAtom (AsMap ∅) ro]> h).
Proof.
  intros Hp. unfold ensureMap. run_with (deref_Some _ _ _ Hp). simpl.
  by run_with (store_Some _ _ _ (AsMap ∅) Hp).
Qed.

Lemma ensureList_Null h p ro :
  h !! p = Some (mkAtom AsNull ro) →
  ensureList p h = Ok [] (<[p := mkAtom (AsList []) ro]> h).
Proof.
  intros Hp. unfold ensureList. run_with (deref_Some _ _ _ Hp). simpl.
  by run_with (store_Some _ _ _ (AsList []) Hp).
Qed.

Lemma ensureValue_Null h p ro :
  h !! p = Some (mkAtom AsNull ro) →
  ensureValue p h = Ok QInvalid (<[p := mkAtom (AsValue QInvalid) ro]> h).
Proof.
  intros Hp. unfold ensureValue. run_with (deref_Some _ _ _ Hp). simpl.
  by run_with (store_Some _ _ _ (AsValue QInvalid) Hp).
Qed.

Lemma for_each_entry_empty {St A} (f : string → A → Run St unit) s :
  for_each_entry f ∅ s = Ok tt s.
Proof. unfold for_each_entry. by rewrite map_fold_empty. Qed.

Lemma for_each_entry_first {St A} (f : string → A → Run St unit) m i x s :
  m !! i = None → map_first_key (<[i:=x]> m) i →
  for_each_entry f (<[i:=x]> m) s = (f i x;; for_each_entry f m) s.
Proof.
  intros Hi Hf. unfold for_each_entry. by rewrite map_fold_insert_first_key.
Qed.

Lemma fresh_not_in_dom h : fresh (dom h) ∉ dom h.
Proof. apply is_fresh. Qed.

End AtomFacts.

Section BuildFacts.
Context `{ScalarSpace scalar}.
Implicit Types (h : Heap scalar) (p q : loc) (a : ConfigAtom scalar).
Lemma fromVariant_unfold (v : QVariant scalar) ro :
  fromVariant v ro =
  (result ← create ro;
   match v with
   | QInvalid => mret result
   | QMapV input =>
       ensureMap result;; for_each_entry (add_entry ro result) input;; mret result
   | QListV input =>
       ensureList result;; for_each (add_item ro result) input;; mret result
   | QScalar _ => ensureValue result;; store result (AsValue v);; mret result
   end).
Proof. by destruct v. Qed.

Lemma add_entries_spec ro result (input : gmap string (QVariant scalar)) :
  map_Forall (λ _, builds ro) input →
  ∀ h cm, h !! result = Some (mkAtom (AsMap cm) ro) →
  ∃ h' cm',
    for_each_entry (add_entry ro result) input h = Ok tt h' ∧
    h' !! result = Some (mkAtom (AsMap cm') ro) ∧
    (∀ q, q ∈ dom h → q ≠ result → h' !! q = h !! q) ∧
    dom h ⊆ dom h' ∧
    (∀ key, input !! key = None → cm' !! key = cm !! key) ∧
    (∀ key v, input !! key = Some v →
       ∃ c, cm' !! key = Some c ∧
            (∀ n, vsize v ≤ n → toVariant n h' c = Some v) ∧
            (∀ n, footprint n h' c ⊆ dom h' ∖ dom h)).
Proof.
  induction input as [|i x m Hi Hfst IH] using map_first_key_ind;
    intros Hall h cm Hres.
  { exists h, cm. rewrite for_each_entry_empty. split_and!; done. }
  rewrite for_each_entry_first by done.
  destruct (Hall i x (lookup_insert_eq _ _ _) h) as (c & h1 & Hc & Hb).

  destruct Hb as [Hfresh Hext _ Htree Hfoot].
  assert (Hresdom : result ∈ dom h) by by eapply elem_of_dom_2.
  assert (Hres1 : h1 !! result = Some (mkAtom (AsMap cm) ro))
    by by rewrite (Hext _ Hresdom).
  set (h2 := <[result := mkAtom (AsMap (<[i := c]> cm)) ro]> h1).
  assert (Hstep : add_entry ro result i x h = Ok tt h2).
  { unfold add_entry. run_with Hc.
    run_with (ensureMap_Map _ _ _ cm Hres1 eq_refl).
    by rewrite (store_Some _ _ _ _ Hres1). }
  rewrite run_bind, Hstep. cbv beta iota.
  apply map_Forall_insert in Hall as [_ Hall]; [|done].
  destruct (IH Hall h2 (<[i := c]> cm))
    as (h' & cm' & Hrun & Hres' & Hfr & Hdom & Hold & Hnew).
  { unfold h2. by rewrite lookup_insert_eq. }
  assert (Hd1 : dom h ⊆ dom h1) by by apply extends_dom.
  assert (Hd2 : dom h1 ⊆ dom h2).
  { unfold h2. rewrite dom_insert_L. set_solver. }
  assert (Hkeep : ∀ q, q ∈ dom h1 → q ≠ result → h' !! q = h1 !! q).
  { intros q Hq Hne. rewrite Hfr; [|set_solver|done].
    unfold h2. by rewrite lookup_insert_ne. }
  exists h', cm'. split_and!; try done.
  - intros q Hq Hne. rewrite Hkeep; [by apply Hext | set_solver | done].
  - set_solver.
  - intros key Hkey. apply lookup_insert_None in Hkey as [Hkey Hne].
    rewrite (Hold key Hkey). by rewrite lookup_insert_ne.
  - intros key v Hkey. destruct (decide (i = key)) as [<-|Hne].
    + rewrite lookup_insert_eq in Hkey. injection Hkey as <-.
      exists c. rewrite (Hold i Hi), lookup_insert_eq.
      assert (Hag : ∀ n q, q ∈ footprint n h1 c → h' !! q = h1 !! q).
      { intros n q Hq. specialize (Hfoot n q Hq). apply Hkeep; [set_solver|].
        intros ->. set_solver. }
      split_and!; [done| |].
      * intros n Hn. rewrite (toVariant_agree n h1 h' c (Hag n)). by apply Htree.
      * intros n. rewrite (footprint_agree n h1 h' c (Hag n)).
        specialize (Hfoot n). set_solver.
    + rewrite lookup_insert_ne in Hkey by done.
      destruct (Hnew key v Hkey) as (c' & Hc' & Ht' & Hf').
      exists c'. split_and!; [done..|]. intros n. specialize (Hf' n). set_solver.
Qed.

Lemma for_each_cons {St A} (f : A → Run St unit) x l :
  for_each f (x :: l) = (f x;; for_each f l).
Proof. done. Qed.

Lemma add_items_spec ro result (input : list (QVariant scalar)) :
  Forall (builds ro) input →
  ∀ h l0, h !! result = Some (mkAtom (AsList l0) ro) →
  ∃ h' cs,
    for_each (add_item ro result) input h = Ok tt h' ∧
    h' !! result = Some (mkAtom (AsList (l0 ++ cs)) ro) ∧
    (∀ q, q ∈ dom h → q ≠ result → h' !! q = h !! q) ∧
    dom h ⊆ dom h' ∧
    Forall2 (λ c v, (∀ n, vsize v ≤ n → toVariant n h' c = Some v) ∧
                    (∀ n, footprint n h' c ⊆ dom h' ∖ dom h)) cs input.
Proof.
  induction 1 as [|x input Hx _ IH]; intros h l0 Hres.
  { exists h, []. rewrite app_nil_r. split_and!; try done. }
  rewrite for_each_cons.
  destruct (Hx h) as (c & h1 & Hc & Hb).
  destruct Hb as [Hfresh Hext _ Htree Hfoot].
  assert (Hresdom : result ∈ dom h) by by eapply elem_of_dom_2.
  assert (Hres1 : h1 !! result = Some (mkAtom (AsList l0) ro))
    by by rewrite (Hext _ Hresdom).
  set (h2 := <[result := mkAtom (AsList (l0 ++ [c])) ro]> h1).
  assert (Hstep : add_item ro result x h = Ok tt h2).
  { unfold add_item. run_with Hc.
    run_with (ensureList_List _ _ _ l0 Hres1 eq_refl).
    by rewrite (store_Some _ _ _ _ Hres1). }
  rewrite run_bind, Hstep. cbv beta iota.
  destruct (IH h2 (l0 ++ [c])) as (h' & cs & Hrun & Hres' & Hfr & Hdom & Hnew).
  { unfold h2. by rewrite lookup_insert_eq. }
  assert (Hd1 : dom h ⊆ dom h1) by by apply extends_dom.
  assert (Hd2 : dom h1 ⊆ dom h2).
  { unfold h2. rewrite dom_insert_L. set_solver. }
  assert (Hkeep : ∀ q, q ∈ dom h1 → q ≠ result → h' !! q = h1 !! q).
  { intros q Hq Hne. rewrite Hfr; [|set_solver|done].
    unfold h2. by rewrite lookup_insert_ne. }
  exists h', (c :: cs). split_and!; try done.
  - by rewrite <- app_assoc in Hres'.
  - intros q Hq Hne. rewrite Hkeep; [by apply Hext | set_solver | done].
  - set_solver.
  - constructor.
    + assert (Hag : ∀ n q, q ∈ footprint n h1 c → h' !! q = h1 !! q).
      { intros n q Hq. specialize (Hfoot n q Hq). apply Hkeep; [set_solver|].
        intros ->. set_solver. }
      split.
      * intros n Hn. rewrite (toVariant_agree n h1 h' c (Hag n)). by apply Htree.
      * intros n. rewrite (footprint_agree n h1 h' c (Hag n)).
        specialize (Hfoot n). set_solver.
    + eapply Forall2_impl; [done|]. intros c' v [Ht' Hf']. split; [done|].
      intros n. specialize (Hf' n). set_solver.
Qed.

(** [fromVariant] always returns, at an unused address, leaves the rest of
    the store alone, and what it builds reads back as the tree it was
    given. *)
Lemma fromVariant_builds ro (v : QVariant scalar) : builds ro v.
Proof.
  induction v as [|s|input IH|input IH] using QVariant_tree_ind; intros h;
    rewrite fromVariant_unfold, run_bind, create_fresh; cbv beta iota;
    set (p := fresh (dom h));
    assert (Hp : p ∉ dom h) by apply fresh_not_in_dom;
    set (h0 := <[p := mkAtom AsNull ro]> h);
    assert (Hp0 : h0 !! p = Some (mkAtom AsNull ro)) by apply lookup_insert_eq.
  - exists p, h0. split; [done|]. split; [done|by apply extends_alloc| | |].
    + eauto.
    + intros [|n] Hn; [simpl in Hn; lia|]. simpl. by rewrite Hp0.
    + intros [|n]; [set_solver|]. simpl. rewrite Hp0. simpl.
      unfold h0. rewrite dom_insert_L. set_solver.
  - run_with (ensureValue_Null _ _ _ Hp0).
    rewrite run_bind, (store_Some _ _ (mkAtom (AsValue QInvalid) ro))
      by apply lookup_insert_eq.
    cbv beta iota. simpl. unfold h0. rewrite !insert_insert_eq.
    set (h1 := <[p := _]> h).
    assert (Hp1 : h1 !! p = Some (mkAtom (AsValue (QScalar s)) ro))
      by apply lookup_insert_eq.
    exists p, h1. split; [done|]. split; [done|by apply extends_alloc| | |].
    + eauto.
    + intros [|n] Hn; [simpl in Hn; lia|]. simpl. by rewrite Hp1.
    + intros [|n]; [set_solver|]. simpl. rewrite Hp1. simpl.
      unfold h1. rewrite dom_insert_L. set_solver.
  - run_with (ensureMap_Null _ _ _ Hp0). unfold h0. rewrite insert_insert_eq.
    set (h1 := <[p := _]> h).
    destruct (add_entries_spec ro p input IH h1 ∅)
      as (h' & cm' & Hrun & Hres' & Hfr & Hdom & Hold & Hnew).
    { apply lookup_insert_eq. }
    run_with Hrun. exists p, h'.
    assert (Hd1 : dom h1 = {[p]} ∪ dom h) by apply dom_insert_L.
    split; [done|]. split; [done| | | |].
    + intros q Hq. rewrite Hfr; [|set_solver|by intros ->].
      unfold h1. rewrite lookup_insert_ne; [done|by intros ->].
    + eauto.
    + intros [|n] Hn; [simpl in Hn; lia|]. simpl. rewrite Hres'. simpl.
      assert (collect_entries (toVariant n h') cm' = Some input) as ->; [|done].
      apply collect_entries_Some. intros key.
      destruct (input !! key) as [v|] eqn:Hkey.
      * destruct (Hnew key v Hkey) as (c & -> & Ht & _). simpl. split; [|eauto].
        symmetry. apply Ht. pose proof (vsize_entry _ _ _ Hkey). lia.
      * rewrite (Hold key Hkey), lookup_empty. split; [done|]. by intros [? ?].
    + intros [|n]; [set_solver|]. simpl. rewrite Hres'.
      apply union_subseteq. split.
      { apply singleton_subseteq_l. apply elem_of_difference. split; [|done].
        by eapply elem_of_dom_2. }
      intros q [X [[c [-> Hc]]%list_elem_of_fmap Hq]]%elem_of_union_list.
      simpl in Hc.
      apply list_elem_of_fmap in Hc as [[key c'] [-> Hkc%elem_of_map_to_list]].
      simpl in Hq. destruct (input !! key) as [v|] eqn:Hkey.
      * destruct (Hnew key v Hkey) as (c & Hc & _ & Hf).
        assert (c = c') as -> by congruence.
        specialize (Hf n q Hq). set_solver.
      * rewrite (Hold key Hkey), lookup_empty in Hkc. done.
  - run_with (ensureList_Null _ _ _ Hp0). unfold h0. rewrite insert_insert_eq.
    set (h1 := <[p := _]> h).
    destruct (add_items_spec ro p input IH h1 [])
      as (h' & cs & Hrun & Hres' & Hfr & Hdom & Hnew).
    { apply lookup_insert_eq. }
    run_with Hrun. exists p, h'. simpl in Hres'.
    assert (Hd1 : dom h1 = {[p]} ∪ dom h) by apply dom_insert_L.
    split; [done|]. split; [done| | | |].
    + intros q Hq. rewrite Hfr; [|set_solver|by intros ->].
      unfold h1. rewrite lookup_insert_ne; [done|by intros ->].
    + eauto.
    + intros [|n] Hn; [simpl in Hn; lia|]. simpl. rewrite Hres'. simpl.
      assert (mapM (toVariant n h') cs = Some input) as ->; [|done].
      apply mapM_Some. apply Forall2_same_length_lookup_2.
      { by eapply Forall2_length. }
      intros i c v Hc Hv.
      destruct (Forall2_lookup_lr _ _ _ _ _ _ Hnew Hc Hv) as [Ht _].
      apply Ht. pose proof (vsize_item input v (list_elem_of_lookup_2 _ _ _ Hv)). lia.
    + intros [|n]; [set_solver|]. simpl. rewrite Hres'.
      apply union_subseteq. split.
      { apply singleton_subseteq_l. apply elem_of_difference. split; [|done].
        by eapply elem_of_dom_2. }
      intros q [X [[c [-> Hc]]%list_elem_of_fmap Hq]]%elem_of_union_list.
      simpl in Hc. apply list_elem_of_lookup_1 in Hc as [i Hi].
      destruct (Forall2_lookup_l _ _ _ _ _ Hnew Hi) as (v & _ & _ & Hf).
      specialize (Hf n q Hq). set_solver.
Qed.

Lemma fromVariant_Ok ro v h :
  ∃ c h', fromVariant v ro h = Ok c h' ∧ built ro v h h' c.
Proof. apply fromVariant_builds. Qed.

End BuildFacts.

Section ValueFacts.
Context `{ScalarSpace scalar} `{PathOps} `{CryptoService scalar}.
Implicit Types (h : Heap scalar) (p q : loc) (a : ConfigAtom scalar).
Lemma toVariantM_Some fuel h p v :
  toVariant fuel h p = Some v → toVariantM fuel p h = Ok v h.
Proof. unfold toVariantM. by intros ->. Qed.

Lemma toVariant_deref fuel h p v :
  toVariant fuel h p = Some v → ∃ a, h !! p = Some a.
Proof.
  destruct fuel as [|n]; [done|]. simpl.
  destruct (h !! p) as [a|]; [eauto|done].
Qed.

Lemma toVariant_Null fuel h p v ro :
  toVariant fuel h p = Some v → h !! p = Some (mkAtom AsNull ro) → v = QInvalid.
Proof.
  destruct fuel as [|n]; [done|]. simpl. intros Hv Hp. rewrite Hp in Hv.
  simpl in Hv. congruence.
Qed.

(** [ConfigAtom::child] on a map: the stored child, else a new [Null] one
    when the map may be written. *)
Lemma child_found h p a m k c :
  h !! p = Some a → m_data a = AsMap m → m !! k = Some c →
  ConfigAtom_child p k h = Ok (Some c) h.
Proof.
  intros Hp Ha Hc. unfold ConfigAtom_child.
  run_with (deref_Some _ _ _ Hp).
  assert (isMap a = true) as ->.
  { unfold isMap, type. rewrite Ha. done. }
  rewrite orb_true_r. rewrite run_bind, run_assert_true. cbv beta iota.
  run_with (ensureMap_Map _ _ _ _ Hp Ha). by rewrite Hc.
Qed.

Lemma child_missing_readOnly h p a m k :
  h !! p = Some a → m_data a = AsMap m → m !! k = None → m_readOnly a = true →
  ConfigAtom_child p k h = Ok None h.
Proof.
  intros Hp Ha Hc Hro. unfold ConfigAtom_child.
  run_with (deref_Some _ _ _ Hp).
  assert (isMap a = true) as ->.
  { unfold isMap, type. rewrite Ha. done. }
  rewrite orb_true_r. rewrite run_bind, run_assert_true. cbv beta iota.
  run_with (ensureMap_Map _ _ _ _ Hp Ha). by rewrite Hc, Hro.
Qed.

Lemma child_missing_writable h p a m k :
  h !! p = Some a → m_data a = AsMap m → m !! k = None → m_readOnly a = false →
  ConfigAtom_child p k h = Ok (Some (fresh (dom h))) (with_null_child h p m k).
Proof.
  intros Hp Ha Hc Hro. unfold ConfigAtom_child.
  run_with (deref_Some _ _ _ Hp).
  assert (isMap a = true) as ->.
  { unfold isMap, type. rewrite Ha. done. }
  rewrite orb_true_r. rewrite run_bind, run_assert_true. cbv beta iota.
  run_with (ensureMap_Map _ _ _ _ Hp Ha). rewrite Hc, Hro.
  run_with (create_fresh false h).
  assert (Hp' : <[fresh (dom h) := mkAtom AsNull false]> h !! p = Some a).
  { rewrite lookup_insert_ne; [done|]. intros E.
    apply (fresh_not_in_dom h). rewrite E. by eapply elem_of_dom_2. }
  run_with (store_Some _ _ _ (AsMap (<[k := fresh (dom h)]> m)) Hp').
  by rewrite Hro.
Qed.

(** One round of the loop of [value]. *)
Lemma value_loop_cons fuel k A rest var h aA mA :
  h !! A = Some aA → m_data aA = AsMap mA →
  (∀ child, mA !! k = Some child → is_Some (toVariant fuel h child)) →
  isNull var = true →
  match layer_value fuel h mA k with
  | Some v => value_loop fuel k (A :: rest) var h = Ok v h
  | None =>
      ∃ var' h',
        isNull var' = true ∧
        value_loop fuel k (A :: rest) var h = value_loop fuel k rest var' h' ∧
        h' = (match mA !! k with
              | None => if m_readOnly aA then h else with_null_child h A mA k
              | Some _ => h
              end)
  end.
Proof.
  intros HA Hm Hmat Hvar. unfold layer_value.
  assert (HisMap : isMap aA = true).
  { unfold isMap, type. by rewrite Hm. }
  destruct (mA !! k) as [child|] eqn:Hk; simpl.
  - destruct (Hmat child eq_refl) as [v Hv]. rewrite Hv. simpl.
    destruct (toVariant_deref _ _ _ _ Hv) as [ca Hca].
    assert (Hrun : ∀ var1, (if negb (isNullAtom ca) then toVariantM fuel child
                            else mret var) h = Ok var1 h →
       value_loop fuel k (A :: rest) var h =
       (if negb (isNull var1) then mret var1 else value_loop fuel k rest var1) h).
    { intros var1 Hvar1. simpl. run_with (deref_Some _ _ _ HA).
      rewrite HisMap. rewrite run_bind, run_assert_true. cbv beta iota.
      run_with (child_found _ _ _ _ _ _ HA Hm Hk).
      rewrite run_bind. rewrite run_bind. rewrite (deref_Some _ _ _ Hca).
      cbv beta iota. rewrite Hvar1. done. }
    destruct (isNullAtom ca) eqn:Hnull.
    + assert (v = QInvalid) as ->.
      { destruct ca as [[] ro]; try done. by eapply toVariant_Null. }
      pose proof (Hrun var eq_refl) as Hrun'. rewrite Hvar in Hrun'.
      cbn [isNull]. exists var, h. done.
    + pose proof (Hrun v (toVariantM_Some _ _ _ _ Hv)) as Hrun'.
      destruct (isNull v) eqn:Hv0; [|done].
      exists v, h. done.
  - destruct (m_readOnly aA) eqn:Hro.
    + exists var, h. split; [done|]. split; [|done].
      simpl. run_with (deref_Some _ _ _ HA).
      rewrite HisMap. rewrite run_bind, run_assert_true. cbv beta iota.
      run_with (child_missing_readOnly _ _ _ _ _ HA Hm Hk Hro).
      rewrite run_bind, run_ret. cbv beta iota. by rewrite Hvar.
    + exists var, (with_null_child h A mA k). split; [done|]. split; [|done].
      simpl. run_with (deref_Some _ _ _ HA).
      rewrite HisMap. rewrite run_bind, run_assert_true. cbv beta iota.
      run_with (child_missing_writable _ _ _ _ _ HA Hm Hk Hro).
      rewrite run_bind. rewrite run_bind.
      assert (Hnew : with_null_child h A mA k !! fresh (dom h)
                     = Some (mkAtom AsNull false)).
      { unfold with_null_child. rewrite lookup_insert_ne, lookup_insert_eq; [done|].
        intros E. apply (fresh_not_in_dom h). rewrite <- E. by eapply elem_of_dom_2. }
      rewrite (deref_Some _ _ _ Hnew). cbv beta iota.
      change (isNullAtom (mkAtom AsNull false)) with true. cbn [negb].
      rewrite run_ret. by rewrite Hvar.
Qed.

End ValueFacts.

Section ValueTheorems.
Context `{ScalarSpace scalar} `{PathOps} `{CryptoService scalar}.
Implicit Types (h : Heap scalar) (p q : loc) (a : ConfigAtom scalar).
Implicit Types (ss : Session scalar).
Lemma current_Some ss lvl ls :
  levels (d_ptr ss) = lvl :: ls → current ss = Ok lvl ss.
Proof. intros Hl. unfold current. rewrite run_bind. unfold gets. by rewrite Hl. Qed.

Lemma run_on_atoms {A} (m : Run (Heap scalar) A) ss :
  on_atoms m ss =
  match m (heap (world ss)) with
  | Ok x h' => Ok x (mkSession (d_ptr ss) (set_heap h' (world ss)))
  | Fault f => Fault f
  end.
Proof. unfold on_atoms, on_world, on_heap. by destruct (m (heap (world ss))). Qed.

(** [value] with a key free of slashes is the loop over the current
    frame followed by that last step. *)
Lemma Config_value_plain fuel k def flags ss lvl ls :
  levels (d_ptr ss) = lvl :: ls → atoms lvl ≠ [] →
  lastIndexOf k "/" = (-1)%Z →
  Config_value fuel k def flags ss =
  match value_loop fuel k (atoms lvl) QInvalid (heap (world ss)) with
  | Ok var h' => Ok (finish flags def var)
                    (mkSession (d_ptr ss) (set_heap h' (world ss)))
  | Fault f => Fault f
  end.
Proof.
  intros Hl Hne Hk. unfold Config_value.
  run_with (current_Some _ _ _ Hl).
  destruct (atoms lvl) as [|a0 l0] eqn:Hat; [done|].
  rewrite Hk. rewrite bool_decide_eq_false_2 by (intros E; by apply E).
  rewrite run_bind, run_ret. cbv beta iota.
  run_with (current_Some _ _ _ Hl). rewrite Hat.
  rewrite run_bind, run_on_atoms.
  destruct (value_loop fuel k (a0 :: l0) QInvalid (heap (world ss))) as [var h'|f];
    [|done].
  cbv beta iota. rewrite run_bind, run_ret. cbv beta iota. by destruct flags.
Qed.

Lemma layer_value_not_null fuel h m k v :
  layer_value fuel h m k = Some v → isNull v = false.
Proof.
  unfold layer_value. destruct (m !! k) as [c|]; [|done]. simpl.
  destruct (toVariant fuel h c) as [w|]; [|done]. simpl.
  destruct (isNull w) eqn:E; [done|]. by intros [= <-].
Qed.

Lemma with_null_child_other h A mA k q :
  q ∈ dom h → q ≠ A → with_null_child h A mA k !! q = h !! q.
Proof.
  intros Hq Hne. unfold with_null_child.
  rewrite !lookup_insert_ne; [done| |done].
  intros E. apply (fresh_not_in_dom h). by rewrite E.
Qed.

Lemma layer_value_agree fuel h h' m k :
  (∀ child, m !! k = Some child →
     ∀ q, q ∈ footprint fuel h child → h' !! q = h !! q) →
  layer_value fuel h' m k = layer_value fuel h m k.
Proof.
  intros Hag. unfold layer_value. destruct (m !! k) as [c|] eqn:Hc; [|done]. simpl.
  by rewrite (toVariant_agree fuel h h' c (Hag c eq_refl)).
Qed.

(** C1, as amended.  A frame layered over two sources [A; B], read at a
    key [k] of the frame (no slash in it): [value] returns the tree value
    of A's child at [k] when the child is there and that tree value is not
    null, otherwise the tree value of B's child on the same condition,
    otherwise the default.  A child whose tree value is null -- a [Null]
    atom, but also a scalar for which [QVariant::isNull] holds -- is passed
    over, and the walk stops at the first atom that yields a non-null tree
    value.  [A] is taken not to sit below B's child, the two sources being
    separate trees. *)
Theorem value_layered_precedence fuel k def ss lvl ls A B aA aB mA mB :
  let h := heap (world ss) in
  levels (d_ptr ss) = lvl :: ls → atoms lvl = [A; B] → A ≠ B →
  h !! A = Some aA → m_data aA = AsMap mA →
  h !! B = Some aB → m_data aB = AsMap mB →
  (∀ child, mA !! k = Some child → is_Some (toVariant fuel h child)) →
  (∀ child, mB !! k = Some child →
     is_Some (toVariant fuel h child) ∧ A ∉ footprint fuel h child) →
  lastIndexOf k "/" = (-1)%Z →
  ∃ ss',
    Config_value fuel k def Normal ss =
      Ok (match layer_value fuel h mA k with
          | Some v => v
          | None => match layer_value fuel h mB k with
                    | Some w => w
                    | None => def
                    end
          end) ss'
    ∧ d_ptr ss' = d_ptr ss.
Proof.
  intros h Hl Hat Hne HA HmA HB HmB HmatA HmatB Hk.
  rewrite (Config_value_plain fuel k def Normal ss lvl ls Hl) by (by rewrite Hat || done).
  unfold finish.
  rewrite Hat. fold h.
  pose proof (value_loop_cons fuel k A [B] QInvalid h aA mA HA HmA HmatA eq_refl)
    as HstepA.
  destruct (layer_value fuel h mA k) as [v|] eqn:HlvA.
  { rewrite HstepA, (layer_value_not_null _ _ _ _ _ HlvA). eauto. }
  destruct HstepA as (var1 & h1 & Hnull1 & -> & Hh1).
  assert (Hframe : ∀ q, q ∈ dom h → q ≠ A → h1 !! q = h !! q).
  { intros q Hq HqA. subst h1. destruct (mA !! k); [done|].
    destruct (m_readOnly aA); [done|]. by apply with_null_child_other. }
  assert (HB1 : h1 !! B = Some aB).
  { rewrite Hframe; [done| by eapply elem_of_dom_2 | done]. }
  assert (Hag : ∀ child, mB !! k = Some child →
                ∀ q, q ∈ footprint fuel h child → h1 !! q = h !! q).
  { intros child Hc q Hq. destruct (HmatB child Hc) as [[w Hw] HnA].
    apply Hframe; [by eapply toVariant_footprint_dom | by intros ->]. }
  assert (HmatB1 : ∀ child, mB !! k = Some child → is_Some (toVariant fuel h1 child)).
  { intros child Hc. rewrite (toVariant_agree fuel h h1 child (Hag child Hc)).
    by apply HmatB. }
  pose proof (value_loop_cons fuel k B [] var1 h1 aB mB HB1 HmB HmatB1 Hnull1)
    as HstepB.
  rewrite (layer_value_agree fuel h h1 mB k Hag) in HstepB.
  destruct (layer_value fuel h mB k) as [w|] eqn:HlvB.
  { rewrite HstepB, (layer_value_not_null _ _ _ _ _ HlvB). eauto. }
  destruct HstepB as (var2 & h2 & Hnull2 & -> & Hh2).
  simpl. rewrite Hnull2. eauto.
Qed.

End ValueTheorems.

Section ReplaceFacts.
Context `{ScalarSpace scalar} `{PathOps} `{CryptoService scalar}.
Implicit Types (h : Heap scalar) (p q : loc) (a : ConfigAtom scalar).
Implicit Types (ss : Session scalar).
Lemma isMap_AsMap a m : m_data a = AsMap m → isMap a = true.
Proof. intros Ha. unfold isMap, type. by rewrite Ha. Qed.

Lemma asMap_Map h p a m :
  h !! p = Some a → m_data a = AsMap m → asMap p h = Ok m h.
Proof.
  intros Hp Ha. unfold asMap. run_with (deref_Some _ _ _ Hp).
  rewrite (isMap_AsMap _ _ Ha), run_bind, run_assert_true. cbv beta iota.
  by apply (ensureMap_Map _ _ a).
Qed.

Lemma replace_absent fuel h p a m name node :
  h !! p = Some a → m_data a = AsMap m → m !! name = None →
  ConfigAtom_replace fuel p name node h = Ok true (replaced h p a m name node).
Proof.
  intros Hp Ha Hk. unfold ConfigAtom_replace.
  run_with (deref_Some _ _ _ Hp).
  rewrite (isMap_AsMap _ _ Ha), run_bind, run_assert_true. cbv beta iota.
  run_with (asMap_Map _ _ _ _ Hp Ha). rewrite Hk.
  rewrite run_bind, run_ret. cbv beta iota.
  by run_with (store_Some _ _ _ (AsMap (<[name := node]> m)) Hp).
Qed.

Lemma replace_present fuel h p a m name node old vo vn :
  h !! p = Some a → m_data a = AsMap m → m !! name = Some old →
  toVariant fuel h old = Some vo → toVariant fuel h node = Some vn →
  ConfigAtom_replace fuel p name node h =
  if QVariant_equal vo vn then Ok false h
  else Ok true (replaced h p a m name node).
Proof.
  intros Hp Ha Hk Hvo Hvn. unfold ConfigAtom_replace.
  run_with (deref_Some _ _ _ Hp).
  rewrite (isMap_AsMap _ _ Ha), run_bind, run_assert_true. cbv beta iota.
  run_with (asMap_Map _ _ _ _ Hp Ha). rewrite Hk.
  rewrite run_bind. run_with (toVariantM_Some _ _ _ _ Hvo).
  run_with (toVariantM_Some _ _ _ _ Hvn). rewrite run_ret.
  destruct (QVariant_equal vo vn); cbn [negb]; cbv beta iota; [done|].
  by run_with (store_Some _ _ _ (AsMap (<[name := node]> m)) Hp).
Qed.

Lemma session_eta ss :
  mkSession (d_ptr ss) (set_heap (heap (world ss)) (world ss)) = ss.
Proof. by destruct ss as [d []]. Qed.

Lemma run_gets {St A} (f : St → A) (s : St) : gets f s = Ok (f s) s.
Proof. done. Qed.

(** C2, as amended.  [ConfigAtom::replace] on the first atom reports a
    change exactly when the key is absent or [QVariant::operator!=] tells
    the stored child's tree value from the new node's, and leaves the
    store alone when it does not.  That comparison is Qt's, not structural
    equality: it may find two different trees equal and a tree different
    from itself.  So for a key whose value is read from the first atom of
    the frame and compares equal to itself, [setValue(k, value(k))]
    changes no source (no dirty bit is set) and not the map either.  (A
    value that comes from a lower layer is another matter: writing it is
    a change to the first source.) *)
Theorem setValue_of_own_value fuel k def ss lvl ls A rest aA mA :
  let h := heap (world ss) in
  levels (d_ptr ss) = lvl :: ls → atoms lvl = A :: rest →
  h !! A = Some aA → m_data aA = AsMap mA → m_readOnly aA = false →
  lastIndexOf k "/" = (-1)%Z →
  (∀ node vn, toVariant fuel h node = Some vn →
     match mA !! k with
     | None =>
         ConfigAtom_replace fuel A k node h = Ok true (replaced h A aA mA k node)
     | Some old =>
         ∀ vo, toVariant fuel h old = Some vo →
           ConfigAtom_replace fuel A k node h =
           if QVariant_equal vo vn then Ok false h
           else Ok true (replaced h A aA mA k node)
     end)
  ∧ (∀ child v,
       mA !! k = Some child → toVariant fuel h child = Some v →
       isNull v = false → vsize v ≤ fuel → QVariant_equal v v = true →
       Config_value fuel k def Normal ss = Ok v ss
       ∧ ∃ ss', Config_setValue fuel k v Normal ss = Ok tt ss'
                ∧ sourceStore (world ss') = sourceStore (world ss)
                ∧ heap (world ss') !! A = Some aA
                ∧ d_ptr ss' = d_ptr ss).
Proof.
  intros h Hl Hat HA HmA Hro Hk. split.
  { intros node vn Hvn. destruct (mA !! k) as [old|] eqn:Hold.
    - intros vo Hvo. by apply (replace_present _ _ _ _ _ _ _ old).
    - by apply replace_absent. }
  intros child v Hc Hv Hnn Hfuel Hrefl. split.
  - rewrite (Config_value_plain fuel k def Normal ss lvl ls Hl) by (by rewrite Hat || done).
    unfold finish.
    rewrite Hat. fold h.
    assert (Hmat : ∀ c, mA !! k = Some c → is_Some (toVariant fuel h c)).
    { intros c Hc'. assert (c = child) as -> by congruence. eauto. }
    pose proof (value_loop_cons fuel k A rest QInvalid h aA mA HA HmA Hmat eq_refl)
      as Hstep.
    assert (layer_value fuel h mA k = Some v) as Hlv.
    { unfold layer_value. rewrite Hc. simpl. rewrite Hv. simpl. by rewrite Hnn. }
    rewrite Hlv in Hstep. rewrite Hstep, Hnn. unfold h. by rewrite session_eta.
  - unfold Config_setValue. run_with (current_Some _ _ _ Hl). rewrite Hat, Hk.
    rewrite bool_decide_eq_false_2 by (intros E; by apply E).
    rewrite run_bind, run_ret. cbv beta iota.
    run_with (current_Some _ _ _ Hl). rewrite Hat.
    rewrite run_bind, run_on_atoms. fold h. rewrite (deref_Some _ _ _ HA).
    cbv beta iota. rewrite (isMap_AsMap _ _ HmA), Hro.
    rewrite run_bind, run_assert_true. cbv beta iota.
    destruct (fromVariant_Ok false v h) as (node & h' & Hnode & Hb).
    destruct Hb as [_ Hext _ Htree _].
    rewrite run_bind, run_on_atoms. simpl heap. rewrite Hnode. cbv beta iota.
    assert (HA' : h' !! A = Some aA).
    { rewrite (Hext A); [done|]. by eapply elem_of_dom_2. }
    rewrite run_bind, run_on_atoms. simpl heap.
    rewrite (replace_present fuel h' A aA mA k node child v v HA' HmA Hc
               (toVariant_extends _ _ _ _ _ Hext Hv) (Htree fuel Hfuel)).
    rewrite Hrefl. cbv beta iota.
    rewrite run_bind, run_ret. cbv beta iota. rewrite run_ret.
    eexists. split; [done|]. simpl. done.
Qed.

End ReplaceFacts.

Section Acyclic.
Context `{ScalarSpace scalar}.
Implicit Types (h : Heap scalar) (p q : loc) (a : ConfigAtom scalar).
Lemma collect_entries_mono {A B} (f g : A → option B) (m : gmap string A) r :
  (∀ key x y, m !! key = Some x → f x = Some y → g x = Some y) →
  collect_entries f m = Some r → collect_entries g m = Some r.
Proof.
  intros Hfg Hr. rewrite <- Hr. symmetry. apply collect_entries_ext.
  intros key x Hx. destruct (collect_entries_elem_Some _ _ _ _ _ Hr Hx) as [y Hy].
  rewrite Hy. symmetry. by eapply Hfg.
Qed.

Lemma mapM_mono {A B} (f g : A → option B) (l : list A) r :
  (∀ x y, x ∈ l → f x = Some y → g x = Some y) →
  mapM f l = Some r → mapM g l = Some r.
Proof.
  intros Hfg Hr. rewrite <- Hr. symmetry. apply mapM_ext_in.
  intros x Hx. destruct (mapM_elem_Some _ _ _ _ Hr Hx) as [y Hy].
  rewrite Hy. symmetry. by eapply Hfg.
Qed.

(** More fuel never changes a tree that already materialised. *)
Lemma toVariant_S n h p v :
  toVariant n h p = Some v → toVariant (S n) h p = Some v.
Proof.
  revert p v. induction n as [|n IH]; intros p v Hv; [done|].
  change (toVariant (S (S n)) h p) with
    (a ← h !! p;
     match m_data a with
     | AsMap map => QMapV <$> collect_entries (toVariant (S n) h) map
     | AsList l => QListV <$> mapM (toVariant (S n) h) l
     | AsValue v => Some v
     | AsNull => Some QInvalid
     end).
  change (toVariant (S n) h p) with
    (a ← h !! p;
     match m_data a with
     | AsMap map => QMapV <$> collect_entries (toVariant n h) map
     | AsList l => QListV <$> mapM (toVariant n h) l
     | AsValue v => Some v
     | AsNull => Some QInvalid
     end) in Hv.
  destruct (h !! p) as [a|]; [|done]. cbn [mbind option_bind] in *.
  destruct (m_data a) as [l|m|w|]; [| |done|done].
  - destruct (mapM (toVariant n h) l) as [r|] eqn:Hr; [|done].
    rewrite (mapM_mono (toVariant n h) (toVariant (S n) h) l r); [done| |done].
    intros x y _. apply IH.
  - destruct (collect_entries (toVariant n h) m) as [r|] eqn:Hr; [|done].
    rewrite (collect_entries_mono (toVariant n h) (toVariant (S n) h) m r);
      [done| |done].
    intros key x y _. apply IH.
Qed.

Lemma toVariant_le n n' h p v :
  n ≤ n' → toVariant n h p = Some v → toVariant n' h p = Some v.
Proof. induction 1; [done|]. intros Hv. by apply toVariant_S, IHle. Qed.

Lemma toVariant_child n h p a c v :
  toVariant (S n) h p = Some v → h !! p = Some a → c ∈ children a →
  is_Some (toVariant n h c).
Proof.
  simpl. intros Hv Hp Hc. rewrite Hp in Hv. simpl in Hv. unfold children in Hc.
  destruct (m_data a) as [l|m|w|].
  - destruct (mapM (toVariant n h) l) as [r|] eqn:Hr; [|done].
    by eapply mapM_elem_Some.
  - destruct (collect_entries (toVariant n h) m) as [r|] eqn:Hr; [|done].
    apply list_elem_of_fmap in Hc as [[key c'] [-> Hkc%elem_of_map_to_list]].
    by eapply collect_entries_elem_Some.
  - by apply elem_of_nil in Hc.
  - by apply elem_of_nil in Hc.
Qed.

Lemma footprint_reaches n h p q : q ∈ footprint n h p → reaches h p q.
Proof.
  revert p. induction n as [|n IH]; intros p; [set_solver|].
  simpl. intros [->%elem_of_singleton|Hq]%elem_of_union; [constructor|].
  destruct (h !! p) as [a|] eqn:Hp; [|set_solver].
  apply elem_of_union_list in Hq as [X [[c [-> Hc]]%list_elem_of_fmap Hq]].
  eapply reaches_child; eauto.
Qed.

Lemma toVariant_along h p q :
  reaches h p q → ∀ n, is_Some (toVariant n h p) →
  ∃ m, m ≤ n ∧ is_Some (toVariant m h q).
Proof.
  induction 1 as [p|p a c q Hp Hc _ IH]; intros n Hn; [eauto|].
  destruct n as [|n]; [by destruct Hn|]. destruct Hn as [v Hv].
  destruct (IH n (toVariant_child _ _ _ _ _ _ Hv Hp Hc)) as (m & Hm & Hq).
  exists m. split; [lia|done].
Qed.

(** An atom whose tree materialises is not below one of its children. *)
Lemma toVariant_acyclic n h p a c :
  is_Some (toVariant n h p) → h !! p = Some a → c ∈ children a →
  ¬ reaches h c p.
Proof.
  intros Hn Hp Hc Hcyc. induction n as [n IH] using lt_wf_ind.
  destruct n as [|n]; [by destruct Hn|]. destruct Hn as [v Hv].
  destruct (toVariant_along h c p Hcyc n (toVariant_child _ _ _ _ _ _ Hv Hp Hc))
    as (m & Hm & Hq).
  apply (IH m); [lia|done].
Qed.

End Acyclic.

Section ReadEffect.
Context `{ScalarSpace scalar} `{PathOps} `{CryptoService scalar}.
Implicit Types (h : Heap scalar) (p q : loc) (a : ConfigAtom scalar).
Implicit Types (ss : Session scalar).
Lemma with_null_child_tree n h A aA mA k t :
  h !! A = Some aA → m_data aA = AsMap mA → mA !! k = None →
  toVariant n h A = Some (QMapV t) →
  t !! k = None ∧
  toVariant (S n) (with_null_child h A mA k) A = Some (QMapV (<[k := QInvalid]> t)).
Proof.
  intros HA HmA Hk Ht.
  set (h' := with_null_child h A mA k). set (p := fresh (dom h)).
  assert (HpA : p ≠ A).
  { intros E. apply (fresh_not_in_dom h). fold p. rewrite E. by eapply elem_of_dom_2. }
  assert (HA' : h' !! A = Some (mkAtom (AsMap (<[k := p]> mA)) false)).
  { unfold h', with_null_child. by rewrite lookup_insert_eq. }
  assert (Hp' : h' !! p = Some (mkAtom AsNull false)).
  { unfold h', with_null_child. rewrite lookup_insert_ne, lookup_insert_eq; done. }
  destruct n as [|n]; [done|].
  pose proof Ht as Ht0. simpl in Ht. rewrite HA in Ht. simpl in Ht. rewrite HmA in Ht.
  destruct (collect_entries (toVariant n h) mA) as [r|] eqn:Hr; [|done].
  injection Ht as ->.
  pose proof (proj1 (collect_entries_Some _ _ _) Hr) as Hspec.
  split.
  { destruct (Hspec k) as [-> _]. by rewrite Hk. }
  change (toVariant (S (S n)) h' A) with
    (a ← h' !! A;
     match m_data a with
     | AsMap map => QMapV <$> collect_entries (toVariant (S n) h') map
     | AsList l => QListV <$> mapM (toVariant (S n) h') l
     | AsValue v => Some v
     | AsNull => Some QInvalid
     end).
  rewrite HA'. cbn [mbind option_bind m_data].
  assert (collect_entries (toVariant (S n) h') (<[k := p]> mA)
          = Some (<[k := QInvalid]> t)) as ->; [|done].
  apply collect_entries_Some. intros key.
  destruct (decide (k = key)) as [<-|Hne].
  - rewrite !lookup_insert_eq. simpl. rewrite Hp'. eauto.
  - rewrite !lookup_insert_ne by done. destruct (Hspec key) as [Hkey Hsome].
    split; [|done]. rewrite Hkey. destruct (mA !! key) as [c|] eqn:Hc; [|done].
    cbn [mbind option_bind].
    destruct (collect_entries_elem_Some _ _ _ _ _ Hr Hc) as [vc Hvc].
    rewrite Hvc. symmetry. rewrite <- (toVariant_S _ _ _ _ Hvc).
    apply toVariant_agree. intros q Hq.
    assert (Hqdom : q ∈ dom h).
    { eapply toVariant_footprint_dom; [|done]. by apply toVariant_S. }
    apply with_null_child_other; [done|]. intros ->.
    eapply (toVariant_acyclic (S n) h A aA c); eauto.
    + by eapply elem_of_children_map.
    + by eapply footprint_reaches.
Qed.

Lemma value_loop_keeps fuel k l :
  ∀ var h v h' q a,
    value_loop fuel k l var h = Ok v h' →
    h !! q = Some a → settled k a → h' !! q = Some a.
Proof.
  induction l as [|x l IH]; intros var h v h' q a Hrun Hq Hset.
  { simpl in Hrun. by injection Hrun as _ <-. }
  destruct (h !! x) as [ax|] eqn:Hx; cycle 1.
  { simpl in Hrun. rewrite run_bind in Hrun. unfold deref in Hrun.
    by rewrite Hx in Hrun. }
  destruct (m_data ax) as [lx|mx|vx|] eqn:Hmx;
    try (simpl in Hrun; rewrite run_bind, (deref_Some _ _ _ Hx) in Hrun;
         cbv beta iota in Hrun; unfold isMap, type in Hrun; rewrite Hmx in Hrun;
         done).
  assert (HisMap : isMap ax = true) by by eapply isMap_AsMap.
  assert (Hstep : ∀ child h1,
    ConfigAtom_child x k h = Ok child h1 →
    value_loop fuel k (x :: l) var h =
    (var ← match child with
           | Some c =>
               ca ← deref c;
               if negb (isNullAtom ca) then toVariantM fuel c else mret var
           | None => mret var
           end;
     if negb (isNull var) then mret var else value_loop fuel k l var) h1).
  { intros child h1 Hchild. simpl. run_with (deref_Some _ _ _ Hx).
    rewrite HisMap, run_bind, run_assert_true. cbv beta iota. by run_with Hchild. }
  assert (Hrest : ∀ child h1,
    ConfigAtom_child x k h = Ok child h1 → h1 !! q = Some a → h' !! q = Some a).
  { intros child h1 Hchild Hq1. rewrite (Hstep _ _ Hchild), run_bind in Hrun.
    assert (Hvar : ∀ h2 var1,
      (if negb (isNull var1) then mret var1 else value_loop fuel k l var1) h2
        = Ok v h' → h2 !! q = Some a → h' !! q = Some a).
    { intros h2 var1 Hr Hq2. destruct (negb (isNull var1)).
      - by injection Hr as _ <-.
      - by eapply IH. }
    destruct child as [c|].
    - rewrite run_bind in Hrun. unfold deref in Hrun.
      destruct (h1 !! c) as [ca|]; [|done]. cbv beta iota in Hrun.
      destruct (negb (isNullAtom ca)).
      + unfold toVariantM in Hrun. destruct (toVariant fuel h1 c); [|done].
        by eapply Hvar.
      + rewrite run_ret in Hrun. by eapply Hvar.
    - rewrite run_ret in Hrun. by eapply Hvar. }
  destruct (mx !! k) as [c|] eqn:Hk.
  - by eapply Hrest; [eapply child_found|].
  - destruct (m_readOnly ax) eqn:Hro.
    + by eapply Hrest; [eapply child_missing_readOnly|].
    + eapply Hrest; [by eapply child_missing_writable|].
      rewrite with_null_child_other; [done|by eapply elem_of_dom_2|].
      intros ->. rewrite Hx in Hq. injection Hq as <-.
      unfold settled in Hset. rewrite Hmx, Hk, Hro in Hset.
      destruct Hset as [[? ?]|?]; done.
Qed.

(** C9.  [value] at a key [k] (no slash in it) absent from the first atom
    of the frame, a map.  If the map may be written, the read leaves a new
    [Null] child under [k] in it; no source is touched, so no dirty bit is
    set.  If the map is read-only it is left as it was.  When the frame has
    this one atom the read returns the default, and the tree value of the
    written map has gained [k], bound to the invalid (null) variant. *)
Theorem value_inserts_null_child fuel k def flags ss lvl ls A rest aA mA :
  let h := heap (world ss) in
  let child := fresh (dom h) in
  levels (d_ptr ss) = lvl :: ls → atoms lvl = A :: rest →
  h !! A = Some aA → m_data aA = AsMap mA → mA !! k = None →
  lastIndexOf k "/" = (-1)%Z →
  (rest = [] →
     ∃ ss', Config_value fuel k def flags ss = Ok def ss' ∧
       ∀ n t, m_readOnly aA = false → toVariant n h A = Some (QMapV t) →
         t !! k = None ∧
         toVariant (S n) (heap (world ss')) A = Some (QMapV (<[k := QInvalid]> t)))
  ∧ (∀ v ss', Config_value fuel k def flags ss = Ok v ss' →
       d_ptr ss' = d_ptr ss ∧
       sourceStore (world ss') = sourceStore (world ss) ∧
       if m_readOnly aA then heap (world ss') !! A = Some aA
       else
         (child ∉ dom h) ∧
         heap (world ss') !! A = Some (mkAtom (AsMap (<[k := child]> mA)) false) ∧
         heap (world ss') !! child = Some (mkAtom AsNull false)).
Proof.
  intros h child Hl Hat HA HmA Hk Hslash.
  rewrite (Config_value_plain fuel k def flags ss lvl ls Hl) by (by rewrite Hat || done).
  rewrite Hat. fold h.
  assert (Hmat : ∀ c, mA !! k = Some c → is_Some (toVariant fuel h c))
    by (intros c; by rewrite Hk).
  assert (layer_value fuel h mA k = None) as Hlv.
  { unfold layer_value. by rewrite Hk. }
  assert (Hchild : child ≠ A).
  { intros E. apply (fresh_not_in_dom h). fold child. rewrite E.
    by eapply elem_of_dom_2. }
  split.
  - intros ->.
    pose proof (value_loop_cons fuel k A [] QInvalid h aA mA HA HmA Hmat eq_refl)
      as Hstep.
    rewrite Hlv, Hk in Hstep. destruct Hstep as (var & h' & Hnull & -> & ->).
    simpl value_loop. rewrite run_ret.
    assert (finish flags def var = def) as ->.
    { unfold finish. rewrite Hnull. by destruct flags. }
    eexists. split; [done|]. intros n t Hro Ht. rewrite Hro. simpl.
    by eapply with_null_child_tree.
  - intros v ss'.
    pose proof (value_loop_cons fuel k A rest QInvalid h aA mA HA HmA Hmat eq_refl)
      as Hstep.
    rewrite Hlv, Hk in Hstep. destruct Hstep as (var & h1 & Hnull & -> & ->).
    destruct (value_loop fuel k rest var _) as [var' h'|f] eqn:Hrun; [|done].
    intros [= _ <-]. simpl. split; [done|]. split; [done|].
    destruct (m_readOnly aA) eqn:Hro.
    + eapply value_loop_keeps; [done..|]. unfold settled. rewrite HmA. by right.
    + split_and!.
      * apply fresh_not_in_dom.
      * eapply value_loop_keeps; [done| |].
        -- unfold with_null_child. by rewrite lookup_insert_eq.
        -- unfold settled. simpl. left. by rewrite lookup_insert_eq.
      * eapply value_loop_keeps; [done| |done].
        unfold with_null_child. rewrite lookup_insert_ne, lookup_insert_eq; done.
Qed.

End ReadEffect.

Section Frames.
Context `{ScalarSpace scalar} `{PathOps} `{CryptoService scalar}.
Implicit Types (h : Heap scalar) (p q : loc) (a : ConfigAtom scalar).
Implicit Types (ss : Session scalar).
Lemma takeFirst_cons ss lvl ls :
  levels (d_ptr ss) = lvl :: ls → takeFirst ss = Ok tt (with_levels ls ss).
Proof.
  intros Hl. unfold takeFirst. rewrite run_bind, run_gets. cbv beta iota.
  by rewrite Hl.
Qed.

Lemma Q_ASSERT_Ok {St} (b : bool) (s s' : St) x :
  Q_ASSERT b s = Ok x s' → b = true ∧ s' = s.
Proof. destruct b; [|done]. by intros [= _ <-]. Qed.

Lemma pop_list_frame_Ok ss L rest :
  levels (d_ptr ss) = L :: rest → arrayElement L = false → rest ≠ [] →
  pop_list_frame ss = Ok tt (with_levels rest ss).
Proof.
  intros Hl HL Hrest. unfold pop_list_frame.
  rewrite run_bind, run_gets. cbv beta iota. rewrite Hl.
  destruct rest as [|R rest]; [done|].
  rewrite bool_decide_eq_true_2 by (simpl; lia).
  rewrite run_bind, run_assert_true. cbv beta iota.
  run_with (current_Some _ _ _ Hl). rewrite HL.
  rewrite run_bind, run_assert_true. cbv beta iota.
  by apply (takeFirst_cons _ L).
Qed.

Lemma pop_list_frame_inv ss ss' :
  pop_list_frame ss = Ok tt ss' →
  ∃ L, levels (d_ptr ss) = L :: levels (d_ptr ss') ∧ arrayElement L = false ∧
       levels (d_ptr ss') ≠ [] ∧ ss' = with_levels (levels (d_ptr ss')) ss.
Proof.
  unfold pop_list_frame. rewrite run_bind, run_gets. cbv beta iota.
  destruct (levels (d_ptr ss)) as [|L rest] eqn:Hl.
  { rewrite bool_decide_eq_false_2 by (simpl; lia). done. }
  destruct rest as [|R rest].
  { rewrite bool_decide_eq_false_2 by (simpl; lia). done. }
  rewrite bool_decide_eq_true_2 by (simpl; lia).
  rewrite run_bind, run_assert_true. cbv beta iota.
  run_with (current_Some _ _ _ Hl).
  destruct (arrayElement L) eqn:HL; [done|].
  rewrite run_bind, run_assert_true. cbv beta iota.
  rewrite (takeFirst_cons _ _ _ Hl). intros [= <-]. exists L. done.
Qed.

Lemma Config_endArray_unfold ss :
  Config_endArray ss =
  (d ← gets d_ptr;
   Q_ASSERT (bool_decide (1 < length (levels d))%nat);;
   cur ← current;
   (if arrayElement cur then takeFirst else mret tt);;
   pop_list_frame) ss.
Proof. done. Qed.

(** [endArray] when the list frame is current. *)
Lemma endArray_list_frame ss L rest :
  levels (d_ptr ss) = L :: rest → arrayElement L = false → rest ≠ [] →
  Config_endArray ss = Ok tt (with_levels rest ss).
Proof.
  intros Hl HL Hrest. rewrite Config_endArray_unfold.
  rewrite run_bind, run_gets. cbv beta iota. rewrite Hl.
  destruct rest as [|R rest]; [done|].
  rewrite bool_decide_eq_true_2 by (simpl; lia).
  rewrite run_bind, run_assert_true. cbv beta iota.
  run_with (current_Some _ _ _ Hl). rewrite HL.
  rewrite run_bind, run_ret. cbv beta iota.
  by apply (pop_list_frame_Ok _ L).
Qed.

(** [endArray] when an element frame is current. *)
Lemma endArray_element_frame ss E L rest :
  levels (d_ptr ss) = E :: L :: rest →
  arrayElement E = true → arrayElement L = false → rest ≠ [] →
  Config_endArray ss = Ok tt (with_levels rest ss).
Proof.
  intros Hl HE HL Hrest. rewrite Config_endArray_unfold.
  rewrite run_bind, run_gets. cbv beta iota. rewrite Hl.
  rewrite bool_decide_eq_true_2 by (simpl; lia).
  rewrite run_bind, run_assert_true. cbv beta iota.
  run_with (current_Some _ _ _ Hl). rewrite HE.
  run_with (takeFirst_cons _ _ _ Hl).
  by rewrite (pop_list_frame_Ok (with_levels (L :: rest) ss) L rest).
Qed.

(** C8.  [endArray] succeeds exactly when the frames are a list frame on
    top of at least one more frame, or an element frame on top of such a
    list frame; it pops the element frame first when there is one, then
    the list frame, the frame below the popped ones becoming current.  In
    particular the frame popped second is never an element frame and the
    root frame is never popped. *)
Theorem endArray_frame_discipline ss ss' :
  Config_endArray ss = Ok tt ss' ↔
  ss' = with_levels (levels (d_ptr ss')) ss ∧
  levels (d_ptr ss') ≠ [] ∧
  ((∃ L, arrayElement L = false ∧
         levels (d_ptr ss) = L :: levels (d_ptr ss')) ∨
   (∃ E L, arrayElement E = true ∧ arrayElement L = false ∧
           levels (d_ptr ss) = E :: L :: levels (d_ptr ss'))).
Proof.
  split.
  - rewrite Config_endArray_unfold.
    rewrite run_bind, run_gets. cbv beta iota.
    destruct (levels (d_ptr ss)) as [|E rest] eqn:Hl.
    { rewrite bool_decide_eq_false_2 by (simpl; lia). done. }
    destruct (bool_decide (1 < length (E :: rest))); [|done].
    rewrite run_bind, run_assert_true. cbv beta iota.
    run_with (current_Some _ _ _ Hl).
    destruct (arrayElement E) eqn:HE.
    + run_with (takeFirst_cons _ _ _ Hl).
      intros (L & HlL & HL & Hne & Hss')%pop_list_frame_inv.
      simpl in HlL. split_and!; [by rewrite Hss' at 1|done|].
      right. exists E, L. by rewrite HlL.
    + rewrite run_bind, run_ret. cbv beta iota.
      intros (L & HlL & HL & Hne & Hss')%pop_list_frame_inv.
      split_and!; [done..|]. left. exists L. split; [done|]. congruence.
  - intros (Hss' & Hne & [(L & HL & Hl)|(E & L & HE & HL & Hl)]); rewrite Hss'.
    + by apply (endArray_list_frame _ L).
    + by apply (endArray_element_frame _ E L).
Qed.

(** Whatever the frames, [endArray] pops or trips an assertion. *)
Lemma endArray_Ok_or_assert ss :
  (∃ ss', Config_endArray ss = Ok tt ss') ∨ Config_endArray ss = Fault AssertFailed.
Proof.
  rewrite Config_endArray_unfold. unfold pop_list_frame.
  destruct ss as [[ls srcs g] w].
  unfold current, takeFirst, set_levels, mbind, Run_bind, bind, mret, Run_ret, ret,
    throw, Q_ASSERT, gets, modify.
  destruct ls as [|E [|L [|R rest]]]; simpl; eauto;
    repeat (match goal with
            | |- context [arrayElement ?X] => destruct (arrayElement X)
            end; simpl); eauto.
Qed.

End Frames.

Section Remove.
Context `{ScalarSpace scalar} `{PathOps} `{CryptoService scalar}.
Implicit Types (h : Heap scalar) (p q : loc) (a : ConfigAtom scalar).
Implicit Types (ss : Session scalar) (w : World scalar).
Lemma deref_source_Some w s src :
  sourceStore w !! s = Some src → deref_source s w = Ok src w.
Proof. unfold deref_source. by intros ->. Qed.

Lemma makeDirty_Some w s src :
  sourceStore w !! s = Some src →
  ConfigSource_makeDirty s w =
  Ok tt (set_sourceStore (<[s := make_dirty src]> (sourceStore w)) w).
Proof.
  intros Hs. unfold ConfigSource_makeDirty. by run_with (deref_source_Some _ _ _ Hs).
Qed.

Lemma isList_AsList a l : m_data a = AsList l → isList a = true.
Proof. intros Ha. unfold isList, type. by rewrite Ha. Qed.

Lemma asList_List h p a l :
  h !! p = Some a → m_data a = AsList l → asList p h = Ok l h.
Proof.
  intros Hp Ha. unfold asList. run_with (deref_Some _ _ _ Hp).
  rewrite (isList_AsList _ _ Ha), run_bind, run_assert_true. cbv beta iota.
  by apply (ensureList_List _ _ a).
Qed.

Lemma atom_remove_map h p a m name :
  h !! p = Some a → m_data a = AsMap m →
  ConfigAtom_remove p name h =
  Ok (bool_decide (is_Some (m !! name)))
     (<[p := mkAtom (AsMap (delete name m)) (m_readOnly a)]> h).
Proof.
  intros Hp Ha. unfold ConfigAtom_remove. run_with (deref_Some _ _ _ Hp).
  rewrite (isMap_AsMap _ _ Ha), run_bind, run_assert_true. cbv beta iota.
  run_with (asMap_Map _ _ _ _ Hp Ha).
  by run_with (store_Some _ _ _ (AsMap (delete name m)) Hp).
Qed.

Lemma atom_removeAt_beyond h p a l index :
  h !! p = Some a → m_data a = AsList l → (Z.of_nat (length l) ≤ index)%Z →
  ConfigAtom_removeAt p index h = Ok false h.
Proof.
  intros Hp Ha Hi. unfold ConfigAtom_removeAt. run_with (deref_Some _ _ _ Hp).
  rewrite (isList_AsList _ _ Ha), run_bind, run_assert_true. cbv beta iota.
  run_with (asList_List _ _ _ _ Hp Ha). by rewrite bool_decide_eq_true_2.
Qed.

Lemma atom_removeAt_within h p a l index :
  h !! p = Some a → m_data a = AsList l →
  (0 ≤ index < Z.of_nat (length l))%Z →
  ConfigAtom_removeAt p index h =
  Ok true (<[p := mkAtom (AsList (delete (Z.to_nat index) l)) (m_readOnly a)]> h).
Proof.
  intros Hp Ha Hi. unfold ConfigAtom_removeAt. run_with (deref_Some _ _ _ Hp).
  rewrite (isList_AsList _ _ Ha), run_bind, run_assert_true. cbv beta iota.
  run_with (asList_List _ _ _ _ Hp Ha). rewrite bool_decide_eq_false_2 by lia.
  rewrite bool_decide_eq_true_2 by lia.
  rewrite run_bind, run_assert_true. cbv beta iota.
  by run_with (store_Some _ _ _ (AsList (delete (Z.to_nat index) l)) Hp).
Qed.

Lemma run_on_world {A} (m : Run (World scalar) A) ss :
  on_world m ss =
  match m (world ss) with
  | Ok x w => Ok x (mkSession (d_ptr ss) w)
  | Fault f => Fault f
  end.
Proof. done. Qed.

Lemma first_source_makeDirty_nil ss :
  sources (d_ptr ss) = [] → first_source_makeDirty ss = Fault AssertFailed.
Proof.
  intros Hs. unfold first_source_makeDirty. rewrite run_bind, run_gets.
  cbv beta iota. by rewrite Hs.
Qed.

Lemma first_source_makeDirty_cons ss s rest src :
  sources (d_ptr ss) = s :: rest → sourceStore (world ss) !! s = Some src →
  first_source_makeDirty ss =
  Ok tt (mkSession (d_ptr ss)
           (set_sourceStore (<[s := make_dirty src]> (sourceStore (world ss)))
                            (world ss))).
Proof.
  intros Hs Hsrc. unfold first_source_makeDirty. rewrite run_bind, run_gets.
  cbv beta iota. rewrite Hs, run_on_world. by rewrite (makeDirty_Some _ _ _ Hsrc).
Qed.

(** C10.  [remove(key)] and [remove(index)] on a frame without atoms
    dereference a null pointer.  With a first atom of the right kind: a
    removal that misses (key absent, index past the end) changes nothing;
    a removal that succeeds trips the assertion of [sources.first()] when
    the cursor has no source, and otherwise takes the child out and marks
    the first source dirty. *)
Theorem remove_needs_atom_and_source ss lvl ls :
  levels (d_ptr ss) = lvl :: ls →
  (atoms lvl = [] →
     (∀ name, Config_remove name ss = Fault NullPointer) ∧
     (arrayElement lvl = false → ∀ i, Config_removeAt i ss = Fault NullPointer))
  ∧ (∀ A rest aA mA name,
       atoms lvl = A :: rest →
       heap (world ss) !! A = Some aA → m_data aA = AsMap mA →
       match mA !! name with
       | None => Config_remove name ss = Ok tt ss
       | Some _ =>
           match sources (d_ptr ss) with
           | [] => Config_remove name ss = Fault AssertFailed
           | s :: _ =>
               ∀ src, sourceStore (world ss) !! s = Some src →
                 Config_remove name ss =
                 Ok tt (after_removal ss A
                          (mkAtom (AsMap (delete name mA)) (m_readOnly aA)) s src)
           end
       end)
  ∧ (∀ A rest aA l i,
       atoms lvl = A :: rest → arrayElement lvl = false →
       heap (world ss) !! A = Some aA → m_data aA = AsList l → (0 ≤ i)%Z →
       if decide (Z.of_nat (length l) ≤ i)%Z
       then Config_removeAt i ss = Ok tt ss
       else
         match sources (d_ptr ss) with
         | [] => Config_removeAt i ss = Fault AssertFailed
         | s :: _ =>
             ∀ src, sourceStore (world ss) !! s = Some src →
               Config_removeAt i ss =
               Ok tt (after_removal ss A
                        (mkAtom (AsList (delete (Z.to_nat i) l)) (m_readOnly aA))
                        s src)
         end).
Proof.
  intros Hl. split_and!.
  - intros Hat. split.
    + intros name. unfold Config_remove. run_with (current_Some _ _ _ Hl).
      by rewrite Hat.
    + intros HE i. unfold Config_removeAt. run_with (current_Some _ _ _ Hl).
      rewrite HE. rewrite run_bind, run_ret. cbv beta iota.
      run_with (current_Some _ _ _ Hl). by rewrite Hat.
  - intros A rest aA mA name Hat HA HmA.
    assert (Hstart : Config_remove name ss =
      (removed ← on_atoms (ConfigAtom_remove A name);
       if removed : bool then first_source_makeDirty else mret tt) ss).
    { unfold Config_remove. run_with (current_Some _ _ _ Hl). by rewrite Hat. }
    rewrite Hstart, run_bind, run_on_atoms.
    rewrite (atom_remove_map _ _ _ _ name HA HmA). cbv beta iota.
    destruct (mA !! name) as [c|] eqn:Hname.
    + rewrite bool_decide_eq_true_2 by eauto.
      destruct (sources (d_ptr ss)) as [|s srcs] eqn:Hs.
      * by apply first_source_makeDirty_nil.
      * intros src Hsrc.
        by rewrite (first_source_makeDirty_cons _ s srcs src).
    + rewrite bool_decide_eq_false_2 by (by intros [? ?]).
      rewrite run_ret. f_equal. rewrite delete_id by done.
      rewrite insert_id; [by rewrite session_eta|].
      rewrite HA. f_equal. destruct aA as [d ro]. simpl in *. by subst.
  - intros A rest aA l i Hat HE HA Hml Hi.
    assert (Hstart : Config_removeAt i ss =
      (removed ← on_atoms (ConfigAtom_removeAt A i);
       if removed : bool then first_source_makeDirty else mret tt) ss).
    { unfold Config_removeAt. run_with (current_Some _ _ _ Hl).
      rewrite HE. rewrite run_bind, run_ret. cbv beta iota.
      run_with (current_Some _ _ _ Hl). by rewrite Hat. }
    rewrite Hstart, run_bind, run_on_atoms.
    destruct (decide (Z.of_nat (length l) ≤ i)%Z) as [Hbig|Hsmall].
    + rewrite (atom_removeAt_beyond _ _ _ _ _ HA Hml Hbig). cbv beta iota.
      by rewrite run_ret, session_eta.
    + rewrite (atom_removeAt_within _ _ _ _ _ HA Hml) by lia. cbv beta iota.
      destruct (sources (d_ptr ss)) as [|s srcs] eqn:Hs.
      * by apply first_source_makeDirty_nil.
      * intros src Hsrc.
        by rewrite (first_source_makeDirty_cons _ s srcs src).
Qed.

End Remove.

Ltac run_unfold :=
  unfold mbind, Run_bind, bind, mret, Run_ret, ret, throw, Q_ASSERT, gets, modify in *.

Section Saving.
Context `{ScalarSpace scalar} `{PathOps} `{CryptoService scalar}.
Implicit Types (h : Heap scalar) (p q : loc) (a : ConfigAtom scalar).
Implicit Types (ss : Session scalar) (w : World scalar).
Lemma sync_no_source d w : sources d = [] → ConfigPrivate_sync d w = Ok tt w.
Proof. unfold ConfigPrivate_sync. by intros ->. Qed.

Lemma sync_first_source d w s rest src :
  sources d = s :: rest → sourceStore w !! s = Some src →
  ConfigPrivate_sync d w =
  Ok tt (if dirty src && negb (isAtLoop src) then post_save s src w else w).
Proof.
  intros Hs Hsrc. unfold ConfigPrivate_sync. rewrite Hs.
  run_with (deref_source_Some _ _ _ Hsrc).
  destruct (dirty src && negb (isAtLoop src)); [|done].
  unfold set_isAtLoop, set_dirty, set_source, postEvent, deref_source. run_unfold.
  rewrite Hsrc. simpl. rewrite lookup_insert_eq. simpl.
  unfold post_save, queued, set_posted, set_sourceStore. simpl.
  by rewrite insert_insert_eq.
Qed.

Lemma same_queue_refl w : same_queue w w.
Proof. done. Qed.

Lemma same_queue_trans w1 w2 w3 :
  same_queue w1 w2 → same_queue w2 w3 → same_queue w1 w3.
Proof.
  intros [Hp1 Hs1] [Hp2 Hs2]. split; [congruence|].
  intros s. by rewrite Hs2, Hs1.
Qed.

Lemma keeps_bind {A B} (m : Run (Session scalar) A) (k : A → Run (Session scalar) B) :
  keeps_queue m → (∀ x, keeps_queue (k x)) → keeps_queue (m ≫= k).
Proof.
  intros Hm Hk ss y ss'. rewrite run_bind.
  destruct (m ss) as [x ss1|f] eqn:Hrun; [|done]. intros Hrun'.
  eapply same_queue_trans; [by eapply Hm|by eapply Hk].
Qed.

Lemma keeps_ret {A} (x : A) : keeps_queue (mret x : Run (Session scalar) A).
Proof. intros ss y ss' [= _ <-]. apply same_queue_refl. Qed.

Lemma keeps_throw {A} f : keeps_queue (throw f : Run (Session scalar) A).
Proof. by intros ss y ss'. Qed.

Lemma keeps_assert b : keeps_queue (Q_ASSERT b : Run (Session scalar) unit).
Proof. destruct b; [apply keeps_ret|apply keeps_throw]. Qed.

Lemma keeps_gets {A} (f : Session scalar → A) : keeps_queue (gets f).
Proof. intros ss y ss' [= _ <-]. apply same_queue_refl. Qed.

Lemma keeps_set_levels ls :
  keeps_queue (set_levels ls : Run (Session scalar) unit).
Proof. intros ss y ss' [= _ <-]. apply same_queue_refl. Qed.

Lemma keeps_on_atoms {A} (m : Run (Heap scalar) A) : keeps_queue (on_atoms m).
Proof.
  intros ss y ss'. rewrite run_on_atoms.
  destruct (m (heap (world ss))); [|done]. intros [= _ <-]. done.
Qed.

Lemma keeps_makeDirty s :
  keeps_queue (on_world (ConfigSource_makeDirty s) : Run (Session scalar) unit).
Proof.
  intros ss y ss'. rewrite run_on_world. unfold ConfigSource_makeDirty, deref_source.
  run_unfold. destruct (sourceStore (world ss) !! s) as [src|] eqn:Hs; [|done].
  intros [= _ <-]. split; [done|]. intros s'. simpl.
  destruct (decide (s = s')) as [<-|Hne].
  - by rewrite lookup_insert_eq, Hs.
  - by rewrite lookup_insert_ne.
Qed.

Ltac keeps :=
  repeat first
    [ apply keeps_ret | apply keeps_throw | apply keeps_assert | apply keeps_gets
    | apply keeps_set_levels | apply keeps_on_atoms | apply keeps_makeDirty
    | apply keeps_bind; [|intros ?]
    | match goal with
      | |- keeps_queue (match ?x with _ => _ end) => destruct x
      end ].

Lemma keeps_current : keeps_queue (current : Run (Session scalar) ConfigLevel).
Proof. unfold current. keeps. Qed.

Lemma keeps_takeFirst : keeps_queue (takeFirst : Run (Session scalar) unit).
Proof. unfold takeFirst. keeps. Qed.

Lemma keeps_prepend lvl :
  keeps_queue (prepend lvl : Run (Session scalar) unit).
Proof. unfold prepend. keeps. Qed.

Lemma keeps_beginGroup name :
  keeps_queue (Config_beginGroup name : Run (Session scalar) unit).
Proof.
  unfold Config_beginGroup. keeps.
Qed.

Lemma keeps_endGroup : keeps_queue (Config_endGroup : Run (Session scalar) unit).
Proof. unfold Config_endGroup. keeps. Qed.

(** [setValue] neither posts an event nor touches a queued bit. *)
Lemma keeps_setValue fuel key value flags :
  keeps_queue (Config_setValue fuel key value flags : Run (Session scalar) unit).
Proof.
  unfold Config_setValue.
  keeps.
Qed.

End Saving.

Section Coalescing.
Context `{ScalarSpace scalar} `{PathOps} `{CryptoService scalar}.
Implicit Types (h : Heap scalar) (p q : loc) (a : ConfigAtom scalar).
Implicit Types (ss : Session scalar) (w : World scalar).
Lemma coalesced_same_queue w w' : same_queue w w' → coalesced w → coalesced w'.
Proof.
  intros [Hp Hs] Hc s src' Hsrc'. rewrite Hp.
  specialize (Hs s). rewrite Hsrc' in Hs. simpl in Hs.
  destruct (sourceStore w !! s) as [src|] eqn:Hsrc; [|done].
  injection Hs as ->. by apply Hc.
Qed.

Lemma coalesced_post_save w s src :
  sourceStore w !! s = Some src → isAtLoop src = false →
  coalesced w → coalesced (post_save s src w).
Proof.
  intros Hsrc Hq Hc s' src'. unfold post_save. simpl.
  rewrite count_occ_app. simpl. destruct (decide (s = s')) as [<-|Hne].
  - rewrite lookup_insert_eq. intros [= <-]. simpl.
    rewrite (Hc s src Hsrc), Hq. by destruct (Nat.eq_dec s s).
  - rewrite lookup_insert_ne by done. intros Hsrc'.
    rewrite (Hc s' src' Hsrc'). destruct (Nat.eq_dec s s'); [done|lia].
Qed.

Lemma ConfigSource_sync_inv fuel s w w' :
  ConfigSource_sync fuel s w = Ok tt w' →
  ∃ src src',
    sourceStore w !! s = Some src ∧
    sourceStore w' = <[s := src']> (sourceStore w) ∧
    isAtLoop src' = isAtLoop src ∧ dirty src' = false ∧
    posted w' = posted w.
Proof.
  unfold ConfigSource_sync, deref_source, set_dirty, ConfigSource_update,
    set_source, deref_source, on_heap, toVariantM.
  run_unfold.
  destruct (sourceStore w !! s) as [src|] eqn:Hsrc; [|done].
  destruct (backend src) as [b|]; [|done].
  destruct (data src) as [root|]; [|done].
  destruct (toVariant fuel (heap w) root) as [tree|]; [|done].
  simpl. rewrite Hsrc. simpl. rewrite lookup_insert_eq. simpl.
  intros [= <-]. simpl. eexists src, _. split; [done|].
  rewrite insert_insert_eq. split; [done|]. done.
Qed.

Lemma dispatch_inv fuel w w' ev rest :
  posted w = ev :: rest → dispatch fuel w = Ok tt w' →
  ∃ src src',
    sourceStore w !! ev = Some src ∧
    sourceStore w' = <[ev := src']> (sourceStore w) ∧
    isAtLoop src' = false ∧ dirty src' = false ∧
    posted w' = rest.
Proof.
  intros Hp. unfold dispatch. rewrite run_bind, run_gets. cbv beta iota delta [id].
  rewrite Hp. unfold PostConfigSaver_event.
  rewrite run_bind. unfold modify at 1. cbv beta iota.
  rewrite run_bind, run_bind.
  destruct (ConfigSource_sync fuel ev (set_posted rest w)) as [[] w1|f] eqn:Hsync;
    [|done].
  apply ConfigSource_sync_inv in Hsync as (src & src1 & Hsrc & Hst1 & _ & Hd & Hp1).
  cbv beta iota. unfold set_isAtLoop, set_source, deref_source. run_unfold.
  rewrite Hst1. simpl. rewrite lookup_insert_eq. simpl. intros [= <-]. simpl.
  exists src, (mkSource (fileName src1) (backend src1) (dirty src1) false
                        (data src1) (lastModified src1)).
  simpl in *. rewrite Hst1, insert_insert_eq. split_and!; done.
Qed.

Lemma coalesced_dispatch fuel w w' ev rest :
  posted w = ev :: rest → dispatch fuel w = Ok tt w' →
  coalesced w → coalesced w'.
Proof.
  intros Hp Hd Hc.
  destruct (dispatch_inv _ _ _ _ _ Hp Hd) as (src & src' & Hsrc & Hst & Hq & _ & Hp').
  pose proof (Hc ev src Hsrc) as Hev. rewrite Hp in Hev. simpl in Hev.
  destruct (Nat.eq_dec ev ev); [|done].
  intros s src0. rewrite Hst, Hp'. destruct (decide (ev = s)) as [<-|Hne].
  - rewrite lookup_insert_eq. intros [= <-]. rewrite Hq.
    destruct (isAtLoop src); lia.
  - rewrite lookup_insert_ne by done. intros Hs.
    pose proof (Hc s src0 Hs) as Hcs. rewrite Hp in Hcs. simpl in Hcs.
    by destruct (Nat.eq_dec ev s).
Qed.

Lemma sync_effect d w w' :
  ConfigPrivate_sync d w = Ok tt w' →
  w' = w ∨ ∃ s rest src, sources d = s :: rest ∧ sourceStore w !! s = Some src ∧
                         dirty src = true ∧ isAtLoop src = false ∧
                         w' = post_save s src w.
Proof.
  destruct (sources d) as [|s rest] eqn:Hs.
  { rewrite sync_no_source by done. intros [= <-]. by left. }
  destruct (sourceStore w !! s) as [src|] eqn:Hsrc.
  - rewrite (sync_first_source _ _ _ _ _ Hs Hsrc).
    destruct (dirty src) eqn:Hd, (isAtLoop src) eqn:Hq; simpl; intros [= <-];
      eauto 10.
  - unfold ConfigPrivate_sync, deref_source. rewrite Hs. run_unfold.
    by rewrite Hsrc.
Qed.

Lemma coalesced_step fuel l w w' : step fuel l w w' → coalesced w → coalesced w'.
Proof.
  destruct 1 as [d key value flags w ss' Hset|d w w' Hsync|ev rest w w' Hp Hd].
  - apply coalesced_same_queue. by apply (keeps_setValue _ _ _ _ _ _ _ Hset).
  - destruct (sync_effect _ _ _ Hsync) as [->|(s & rest & src & _ & Hsrc & _ & Hq & ->)];
      [done|]. by apply coalesced_post_save.
  - by eapply coalesced_dispatch.
Qed.

Lemma step_clears_bit fuel l w w' s :
  step fuel l w w' → queued_bit w s = Some true → queued_bit w' s = Some false →
  l = LDispatch s.
Proof.
  unfold queued_bit.
  destruct 1 as [d key value flags w ss' Hset|d w w' Hsync|ev rest w w' Hp Hd];
    intros Hbefore Hafter.
  - destruct (keeps_setValue _ _ _ _ _ _ _ Hset) as [_ Hs]. simpl in Hs.
    rewrite Hs in Hafter. congruence.
  - destruct (sync_effect _ _ _ Hsync) as [->|(s0 & rest & src & _ & Hsrc & _ & Hq & ->)];
      [congruence|].
    unfold post_save in Hafter. simpl in Hafter.
    destruct (decide (s0 = s)) as [<-|Hne].
    + by rewrite lookup_insert_eq in Hafter.
    + rewrite lookup_insert_ne in Hafter by done. congruence.
  - destruct (dispatch_inv _ _ _ _ _ Hp Hd) as (src & src' & Hsrc & Hst & _).
    rewrite Hst in Hafter. destruct (decide (ev = s)) as [<-|Hne]; [done|].
    rewrite lookup_insert_ne in Hafter by done. congruence.
Qed.

(** C5.  Start from a world where every source has one save event in the
    queue if its queued bit is set and none otherwise, and let cursors
    write and sync and the event loop dispatch, in any order and number.
    The same holds at the end, so no source has more than one event
    posted.  There, [sync] posts exactly when the first source is dirty
    and its bit is clear, setting the bit as it posts; and the only step
    that clears a set bit is the dispatch of that source's event, which
    runs [ConfigSource::sync] first. *)
Theorem save_events_coalesce fuel w w' :
  coalesced w → run_of fuel w w' →
  coalesced w'
  ∧ (∀ s, s ∈ dom (sourceStore w') → count_occ Nat.eq_dec (posted w') s ≤ 1)
  ∧ (∀ d s rest src,
       sources d = s :: rest → sourceStore w' !! s = Some src →
       ConfigPrivate_sync d w' =
       Ok tt (if dirty src && negb (isAtLoop src) then post_save s src w' else w'))
  ∧ (∀ l w'' s,
       step fuel l w' w'' →
       queued_bit w' s = Some true → queued_bit w'' s = Some false →
       l = LDispatch s).
Proof.
  intros Hc Hrun.
  assert (Hc' : coalesced w').
  { induction Hrun as [|w1 w2 w3 [l Hstep] _ IH]; [done|].
    apply IH. by eapply coalesced_step. }
  split_and!; [done| | |].
  - intros s [src Hsrc]%elem_of_dom. rewrite (Hc' s src Hsrc).
    destruct (isAtLoop src); lia.
  - intros d s rest src. apply sync_first_source.
  - intros l w'' s. apply step_clears_bit.
Qed.

(** C6, as amended.  Dropping a cursor with a memory guard does nothing
    to the world.  Dropping one without runs [sync], which looks at the
    first source of the cursor only: if that one is dirty and not queued
    its save event is posted and its bit set; otherwise, and for every
    other source of the list, nothing happens. *)
Theorem destroy_syncs_first_source d w :
  match memoryGuard d with
  | Some _ => ConfigPrivate_destroy d w = Ok tt w
  | None =>
      match sources d with
      | [] => ConfigPrivate_destroy d w = Ok tt w
      | s :: _ =>
          ∀ src, sourceStore w !! s = Some src →
            ConfigPrivate_destroy d w =
            Ok tt (if dirty src && negb (isAtLoop src)
                   then post_save s src w else w)
      end
  end.
Proof.
  unfold ConfigPrivate_destroy. destruct (memoryGuard d); [done|].
  destruct (sources d) as [|s rest] eqn:Hs.
  - by apply sync_no_source.
  - intros src Hsrc. by eapply sync_first_source.
Qed.

End Coalescing.

Section Cache.
Context `{ScalarSpace scalar} `{PathOps}.
Implicit Types (h : Heap scalar) (p q : loc) (a : ConfigAtom scalar).
Implicit Types (w : World scalar).
Lemma restart_timer_spec key it w :
  ∃ t w',
    restart_timer key it w = Ok t w' ∧ same_documents w w' ∧
    t ≠ 0 ∧
    timers w' !! t = Some (mkTimer 300 (now w)) ∧
    m_hash (sourceHash w') = m_hash (sourceHash w) ∧
    m_timers (sourceHash w') !! t = Some key.
Proof.
  unfold restart_timer, QBasicTimer_start, killTimer. run_unfold.
  destruct (bool_decide (timer it ≠ 0)); simpl;
    eexists _, _; (split; [reflexivity|]); simpl;
    (split; [done|]); rewrite !lookup_insert_eq;
    (split; [|done]);
    match goal with
    | |- fresh ?X ≠ 0 => pose proof (is_fresh X); set_solver
    end.
Qed.

Lemma cache_value_spec key it w :
  m_hash (sourceHash w) !! key = Some it →
  ∃ t w',
    ConfigSourceHash_value key w = Ok (config it) w' ∧ same_documents w w' ∧
    m_hash (sourceHash w') = <[key := mkInfo t (config it)]> (m_hash (sourceHash w)) ∧
    m_timers (sourceHash w') !! t = Some key ∧
    timers w' !! t = Some (mkTimer 300 (now w)).
Proof.
  intros Hit. unfold ConfigSourceHash_value. rewrite run_bind, run_gets.
  cbv beta iota delta [id]. rewrite Hit.
  destruct (restart_timer_spec key it w) as (t & w1 & Hrun & Hsame & _ & Ht & Hh & Hk).
  run_with Hrun. exists t. eexists. split; [reflexivity|]. simpl.
  rewrite Hh. done.
Qed.

Lemma cache_value_miss key w :
  m_hash (sourceHash w) !! key = None → ConfigSourceHash_value key w = Ok None w.
Proof.
  intros Hit. unfold ConfigSourceHash_value. rewrite run_bind, run_gets.
  cbv beta iota delta [id]. by rewrite Hit.
Qed.

Lemma cache_insert_spec key s w :
  ∃ t w',
    ConfigSourceHash_insert key s w = Ok tt w' ∧ same_documents w w' ∧
    m_hash (sourceHash w') = <[key := mkInfo t (Some s)]> (m_hash (sourceHash w)) ∧
    m_timers (sourceHash w') !! t = Some key ∧
    timers w' !! t = Some (mkTimer 300 (now w)).
Proof.
  unfold ConfigSourceHash_insert. rewrite run_bind, run_gets.
  cbv beta iota zeta. change (id w) with w.
  destruct (restart_timer_spec key
              (default (mkInfo 0 None) (m_hash (sourceHash w) !! key)) w)
    as (t & w1 & Hrun & Hsame & _ & Ht & Hh & Hk).
  run_with Hrun. exists t. eexists. split; [reflexivity|]. simpl.
  rewrite Hh. done.
Qed.

(** Once the timer of an entry is due, its event takes the entry out. *)
Lemma timer_event_evicts key t w :
  m_timers (sourceHash w) !! t = Some key → timer_due w t = true →
  ∃ w', deliver_timer t w = Ok tt w' ∧ m_hash (sourceHash w') !! key = None.
Proof.
  intros Hk Hdue. unfold deliver_timer. rewrite run_bind, run_gets.
  cbv beta iota. change (id w) with w. rewrite Hdue.
  unfold ConfigSourceHash_timerEvent, killTimer. run_unfold. simpl.
  rewrite Hk. simpl.
  destruct (m_hash (sourceHash w) !! key) as [it|]; [destruct (bool_decide _)|];
    eexists; (split; [reflexivity|]); simpl; apply lookup_delete_eq.
Qed.

(** C7, the code where it departs from the claim.  A read that hits the
    cache returns the entry's source and restarts the entry's timer, and
    an insertion starts one, in both cases with the interval [5 * 60] =
    300, which the timer counts in milliseconds.  Once the clock has moved
    on by 300 the timer is due and its event evicts the entry.  Five
    minutes are 300000 milliseconds: the entry lives for 0.3 seconds after
    its last access, not five minutes. *)
Theorem cache_timer_interval key w :
  (∀ it, m_hash (sourceHash w) !! key = Some it →
     ∃ t w', ConfigSourceHash_value key w = Ok (config it) w' ∧
             m_hash (sourceHash w') !! key = Some (mkInfo t (config it)) ∧
             timers w' !! t = Some (mkTimer 300 (now w)) ∧
             ∃ w'', (advance 300;; deliver_timer t) w' = Ok tt w'' ∧
                    now w'' = (now w + 300)%Z ∧
                    m_hash (sourceHash w'') !! key = None)
  ∧ (∀ s, ∃ t w', ConfigSourceHash_insert key s w = Ok tt w' ∧
                  m_hash (sourceHash w') !! key = Some (mkInfo t (Some s)) ∧
                  timers w' !! t = Some (mkTimer 300 (now w)))
  ∧ (300 < five_minutes_msec)%Z.
Proof.
  split_and!.
  - intros it Hit.
    destruct (cache_value_spec key it w Hit)
      as (t & w' & Hrun & (_ & _ & _ & _ & _ & Hnow) & Hh & Hk & Ht).
    exists t, w'. rewrite Hh, lookup_insert_eq. split_and!; [done..|].
    destruct (timer_event_evicts key t (set_now (now w' + 300)%Z w'))
      as (w'' & Hrun' & Hgone).
    { done. }
    { unfold timer_due. simpl. rewrite Ht. simpl.
      apply bool_decide_eq_true_2. lia. }
    exists w''. split_and!; [|  |done].
    + unfold advance. rewrite run_bind. unfold modify at 1. cbv beta iota. done.
    + revert Hrun'. unfold deliver_timer, ConfigSourceHash_timerEvent, killTimer.
      run_unfold. simpl.
      repeat match goal with
             | |- context [match ?x with _ => _ end] => destruct x; simpl
             end; intros [= <-]; simpl; lia.
  - intros s.
    destruct (cache_insert_spec key s w) as (t & w' & Hrun & _ & Hh & _ & Ht).
    exists t, w'. rewrite Hh, lookup_insert_eq. done.
  - done.
Qed.

End Cache.

Section Opening.
Context `{ScalarSpace scalar} `{PathOps}.
Implicit Types (h : Heap scalar) (p q : loc) (a : ConfigAtom scalar).
Implicit Types (w : World scalar).
Lemma isValid_stale w s src :
  sourceStore w !! s = Some src →
  lastModifiedOf (fs w) (fileName src) ≠ lastModified src →
  ConfigSource_isValid s w = Ok false w.
Proof.
  intros Hs Hstale. unfold ConfigSource_isValid.
  run_with (deref_source_Some _ _ _ Hs). rewrite run_bind, run_gets.
  cbv beta iota. rewrite run_ret. by rewrite bool_decide_eq_false_2.
Qed.

Lemma cached_miss key w :
  m_hash (sourceHash w) !! key = None → cached key w = Ok (None, false) w.
Proof. intros Hk. unfold cached. by run_with (cache_value_miss _ _ Hk). Qed.

Lemma cached_stale key it s src w :
  m_hash (sourceHash w) !! key = Some it → config it = Some s →
  sourceStore w !! s = Some src →
  lastModifiedOf (fs w) (fileName src) ≠ lastModified src →
  ∃ w', cached key w = Ok (Some s, false) w' ∧ same_documents w w'.
Proof.
  intros Hit Hs Hsrc Hstale. unfold cached.
  destruct (cache_value_spec key it w Hit) as (t & w' & Hrun & Hsame & _).
  run_with Hrun. rewrite Hs. destruct Hsame as (Hh & Hst & Hfs & Hrest).
  rewrite run_bind, (isValid_stale w' s src) by (by rewrite ?Hst, ?Hfs).
  exists w'. done.
Qed.

(** With the backend given, [open] is the cache lookup and then the rest. *)
Lemma open_after_lookup path systemDir create b w result w1 :
  isAbsolute (asked path) && systemDir = false →
  cached (canonical path systemDir) w = Ok (result, false) w1 →
  ConfigSource_open path systemDir create (Some b) w =
  open_with b (canonical path systemDir) (asked path) result systemDir create w1.
Proof.
  intros Habs Hc. unfold ConfigSource_open. fold (asked path). rewrite Habs.
  fold (canonical path systemDir). run_with Hc.
  by rewrite run_bind, run_gets.
Qed.

(** C3, the code where it departs from the claim.  The call is not one
    for an absolute name with [systemDir] set (that one returns nothing at
    once), the cache holds an entry for the canonical name whose source
    fails [isValid] (the file has changed or gone since it was read), the
    file is not there and [create] is false: [open] returns that very
    source, not nothing.  The
    early [return result] for a missing file hands back the cache entry
    that has just failed the validity test. *)
Lemma open_returns_stale_entry path systemDir b w it s src :
  isAbsolute (asked path) && systemDir = false →
  m_hash (sourceHash w) !! canonical path systemDir = Some it →
  config it = Some s → sourceStore w !! s = Some src →
  lastModifiedOf (fs w) (fileName src) ≠ lastModified src →
  exists_ (fs w) (asked path) = false →
  ∃ w', ConfigSource_open path systemDir false (Some b) w = Ok (Some s) w'.
Proof.
  intros Habs Hit Hs Hsrc Hstale Hmissing.
  destruct (cached_stale _ _ _ _ _ Hit Hs Hsrc Hstale) as (w1 & Hc & Hsame).
  rewrite (open_after_lookup _ _ _ _ _ _ _ Habs Hc).
  unfold open_with. rewrite run_bind, run_gets. cbv beta iota.
  change (id w1) with w1. destruct Hsame as (_ & _ & -> & _).
  rewrite Hmissing. simpl. eauto.
Qed.

Lemma fromVariant_empty_map ro h :
  fromVariant (QMapV ∅) ro h =
  Ok (fresh (dom h)) (<[fresh (dom h) := mkAtom (AsMap ∅) ro]> h).
Proof.
  rewrite fromVariant_unfold, run_bind, create_fresh. cbv beta iota.
  rewrite run_bind, (ensureMap_Null _ _ ro) by apply lookup_insert_eq.
  cbv beta iota. rewrite run_bind, for_each_entry_empty. cbv beta iota.
  by rewrite insert_insert_eq.
Qed.

Lemma fromVariant_value_or_null v ro h :
  value_or_null v = true →
  ∃ root h' a, fromVariant v ro h = Ok root h' ∧ h' !! root = Some a ∧
               isValue a || isNullAtom a = true.
Proof.
  intros Hv. destruct (fromVariant_Ok ro v h) as (root & h' & Hrun & Hb).
  destruct Hb as [_ _ (a & Ha & _ & Hty) _ _].
  exists root, h', a. split_and!; [done..|].
  unfold isValue, isNullAtom. rewrite Hty. by destruct v.
Qed.

Lemma fromVariant_map_or_list v ro h :
  value_or_null v = false →
  ∃ root h' a, fromVariant v ro h = Ok root h' ∧ h' !! root = Some a ∧
               isValue a || isNullAtom a = false.
Proof.
  intros Hv. destruct (fromVariant_Ok ro v h) as (root & h' & Hrun & Hb).
  destruct Hb as [_ _ (a & Ha & _ & Hty) _ _].
  exists root, h', a. split_and!; [done..|].
  unfold isValue, isNullAtom. rewrite Hty. by destruct v.
Qed.

End Opening.

Section Loading.
Context `{ScalarSpace scalar} `{PathOps}.
Implicit Types (h : Heap scalar) (p q : loc) (a : ConfigAtom scalar).
Implicit Types (w : World scalar).
Lemma open_with_loads b fileName info result systemDir create w :
  (create = true ∨
   (exists_ (fs w) info = true ∧ absolutePath info ∈ dirs (fs w))) →
  open_with b fileName info result systemDir create w =
  after_load fileName create (fresh (dom (sourceStore w)))
    (readOnly_flag (fs w) info systemDir)
    (backend_load b (with_dir (fs w) (absolutePath info)) fileName)
    (before_load b fileName info w).
Proof.
  intros Hreach. unfold open_with. rewrite run_bind, run_gets.
  cbv beta iota zeta. change (id w) with w.
  assert (negb (exists_ (fs w) info) && negb create = false) as ->.
  { destruct Hreach as [->|[-> _]]; [apply andb_false_r|done]. }
  assert (negb (bool_decide (absolutePath info ∈ dirs (fs w))) && negb create = false)
    as ->.
  { destruct Hreach as [->|[_ Hd]]; [apply andb_false_r|].
    by rewrite bool_decide_eq_true_2. }
  unfold before_load, with_dir, new_source, ConfigSource_update, set_source,
    deref_source.
  destruct (bool_decide (absolutePath info ∈ dirs (fs w))); run_unfold; simpl;
    rewrite lookup_insert_eq; simpl; rewrite insert_insert_eq; done.
Qed.

Lemma run_on_heap {A} (m : Run (Heap scalar) A) w :
  on_heap m w =
  match m (heap w) with
  | Ok x h' => Ok x (set_heap h' w)
  | Fault f => Fault f
  end.
Proof. done. Qed.

Lemma set_data_Some w d src root :
  sourceStore w !! d = Some src →
  set_data d root w =
  Ok tt (set_sourceStore (<[d := with_data src root]> (sourceStore w)) w).
Proof. intros Hd. unfold set_data. by run_with (deref_source_Some _ _ _ Hd). Qed.

(** A load that yields a scalar or nothing: absent without [create], and
    with it an empty map carrying the computed read-only flag. *)
Lemma after_load_value_or_null fileName d ro v w src :
  value_or_null v = true → sourceStore w !! d = Some src →
  (∃ w', after_load fileName false d ro v w = Ok None w')
  ∧ (∃ w' root,
       after_load fileName true d ro v w = Ok (Some d) w' ∧
       sourceStore w' !! d = Some (with_data src root) ∧
       heap w' !! root = Some (mkAtom (AsMap ∅) ro) ∧
       (∃ t, m_hash (sourceHash w') !! fileName = Some (mkInfo t (Some d)))).
Proof.
  intros Hv Hd.
  destruct (fromVariant_value_or_null v ro (heap w) Hv) as (root & h1 & a & Hrun & Ha & Hkind).
  set (w1 := set_sourceStore (<[d := with_data src root]> (sourceStore w)) (set_heap h1 w)).
  assert (Hstart : ∀ create, after_load fileName create d ro v w =
    (if negb create then mret None
     else
       root' ← on_heap (fromVariant (QMapV ∅) ro);
       set_data d root';;
       ConfigSourceHash_insert fileName d;;
       mret (Some d)) w1).
  { intros create. unfold after_load. rewrite run_bind, run_on_heap, Hrun.
    cbv beta iota. rewrite run_bind, (set_data_Some _ _ src) by done.
    cbv beta iota. rewrite run_bind, run_on_heap. simpl heap.
    rewrite (deref_Some _ _ _ Ha). cbv beta iota. by rewrite Hkind. }
  split.
  - rewrite Hstart. simpl. eauto.
  - rewrite Hstart. cbn [negb].
    set (root' := fresh (dom h1)).
    set (w2 := set_sourceStore (<[d := with_data src root']> (sourceStore w))
                 (set_heap (<[root' := mkAtom (AsMap ∅) ro]> h1) w)).
    destruct (cache_insert_spec fileName d w2)
      as (t & w' & Hins & (Hh & Hst & _) & Hhash & _).
    exists w', root'. split.
    + rewrite run_bind, run_on_heap. simpl heap. rewrite fromVariant_empty_map.
      cbv beta iota.
      rewrite run_bind, (set_data_Some _ _ (with_data src root))
        by apply lookup_insert_eq.
      cbv beta iota. unfold w1. simpl. rewrite insert_insert_eq.
      fold root'. unfold with_data at 1. simpl. fold (with_data src root'). fold w2.
      match goal with |- (_ ≫= _) ?wx = _ => change wx with w2 end.
      by run_with Hins.
    + rewrite Hst, Hh, Hhash. unfold w2. simpl. rewrite !lookup_insert_eq. eauto.
Qed.

Lemma no_valid_entry_same w w1 key :
  same_documents w w1 →
  (∀ key', config <$> (m_hash (sourceHash w1) !! key')
           = config <$> (m_hash (sourceHash w) !! key')) →
  no_valid_entry w key → no_valid_entry w1 key.
Proof.
  intros (Hh & Hst & Hfs & _) Hcfg Hno it s Hit Hs.
  pose proof (Hcfg key) as Hk. rewrite Hit in Hk.
  destruct (m_hash (sourceHash w) !! key) as [it0|] eqn:Hit0; [|done].
  simpl in Hk. injection Hk as Hk.
  destruct (Hno it0 s Hit0) as (src & Hsrc & Hstale); [congruence|].
  exists src. by rewrite Hst, Hfs.
Qed.

(** The lookup of a name under which the cache holds nothing valid: the
    validity test fails, and only the cache and its timers are touched. *)
Lemma cached_invalid key w :
  no_valid_entry w key →
  ∃ result w1, cached key w = Ok (result, false) w1 ∧ same_documents w w1
    ∧ (∀ key', config <$> (m_hash (sourceHash w1) !! key')
               = config <$> (m_hash (sourceHash w) !! key')).
Proof.
  intros Hno. destruct (m_hash (sourceHash w) !! key) as [it|] eqn:Hit.
  - destruct (cache_value_spec key it w Hit) as (t & w1 & Hrun & Hsame & Hhash & _).
    assert (Hcfg : ∀ key', config <$> (m_hash (sourceHash w1) !! key')
                           = config <$> (m_hash (sourceHash w) !! key')).
    { intros key'. rewrite Hhash. destruct (decide (key' = key)) as [->|Hne].
      - by rewrite lookup_insert_eq, Hit.
      - by rewrite lookup_insert_ne. }
    unfold cached. run_with Hrun.
    destruct (config it) as [s|] eqn:Hs.
    + destruct (Hno it s Hit Hs) as (src & Hsrc & Hstale).
      pose proof Hsame as (Hh & Hst & Hfs & Hrest).
      rewrite run_bind, (isValid_stale w1 s src) by (by rewrite ?Hst, ?Hfs).
      by exists (Some s), w1.
    + by exists None, w1.
  - exists None, w. by rewrite (cached_miss _ _ Hit).
Qed.

(** Past the cache, [open] is its second part run on the backend, the
    file name and the [QFileInfo] name it has settled on. *)
Lemma open_settled path systemDir create bcknd w b file info :
  isAbsolute (asked path) && systemDir = false →
  settles w path systemDir bcknd b file info →
  ∃ result w1,
    ConfigSource_open path systemDir create bcknd w
    = open_with b file info result systemDir create w1
    ∧ same_documents w w1.
Proof.
  intros Habs Hset. unfold ConfigSource_open. fold (asked path). rewrite Habs.
  fold (canonical path systemDir).
  destruct Hset as [b Hno|b Hsfx Hno|first rest Hbs Hsfx Hno Hno2].
  - destruct (cached_invalid _ _ Hno) as (result & w1 & Hc & Hsame & _).
    exists result, w1. run_with Hc. by rewrite run_bind, run_gets.
  - destruct (cached_invalid _ _ Hno) as (result & w1 & Hc & Hsame & _).
    exists result, w1. run_with Hc. rewrite run_bind, run_gets. cbv beta iota.
    pose proof Hsame as (_ & _ & _ & -> & _).
    destruct (all_config_backends w) as [|first rest] eqn:Hbs.
    { unfold backend_for_suffix in Hsfx. by destruct (isEmpty _). }
    by rewrite Hsfx.
  - destruct (cached_invalid _ _ Hno) as (result & w1 & Hc & Hsame & Hcfg).
    pose proof (no_valid_entry_same _ _ _ Hsame Hcfg Hno2) as Hno2'.
    destruct (cached_invalid _ _ Hno2') as (result2 & w2 & Hc2 & Hsame2 & _).
    exists result2, w2. run_with Hc. rewrite run_bind, run_gets. cbv beta iota.
    pose proof Hsame as (Hh & Hst & Hfs & Hb & Hp & Hn).
    rewrite Hb, Hsfx, Hbs. cbv beta iota. run_with Hc2. split; [done|].
    destruct Hsame2 as (Hh2 & Hst2 & Hfs2 & Hb2 & Hp2 & Hn2).
    unfold same_documents. by rewrite Hh2, Hst2, Hfs2, Hb2, Hp2, Hn2.
Qed.

(** The second part of [open] on a file whose load yields a scalar or
    nothing. *)
Lemma open_with_value_or_null b file info result systemDir w :
  value_or_null (backend_load b (with_dir (fs w) (absolutePath info)) file) = true →
  (∃ d root src w',
     open_with b file info result systemDir true w = Ok (Some d) w' ∧
     (d ∉ dom (sourceStore w)) ∧
     sourceStore w' !! d = Some src ∧ fileName src = file ∧ data src = Some root ∧
     heap w' !! root =
       Some (mkAtom (AsMap ∅) (readOnly_flag (fs w) info systemDir)))
  ∧ (exists_ (fs w) info = true → absolutePath info ∈ dirs (fs w) →
     ∃ w', open_with b file info result systemDir false w = Ok None w').
Proof.
  intros Hv.
  assert (Hnew : sourceStore (before_load b file info w)
                 !! fresh (dom (sourceStore w)) = Some
            (mkSource file (Some b) false false None
               (lastModifiedOf (with_dir (fs w) (absolutePath info)) file))).
  { unfold before_load. simpl. by rewrite lookup_insert_eq. }
  destruct (after_load_value_or_null file _
              (readOnly_flag (fs w) info systemDir) _ _ _ Hv Hnew)
    as [(w0 & Hrun0) (w' & root & Hrun & Hsrc & Hroot & _)].
  split.
  - rewrite open_with_loads by (by left).
    eexists _, root, _, w'. split_and!; [done|apply is_fresh|done|done|done|done].
  - intros Hex Hdir. rewrite open_with_loads by (by right). eauto.
Qed.

(** C4, as amended.  Whenever [open] gets past the cache (no entry that
    passes the validity test under the names it looks up) and the load
    yields a scalar or nothing: with [create = true] it returns a new
    source for the file it opened, whose root is an empty map with the
    read-only flag [open] computes, [!info.isWritable() && (systemDir ||
    info.exists())]; the [QFileInfo] it asks is the one of the path as
    passed when the backend is given or found by the suffix, and the one
    of the opened file when the first backend's name was appended.  With
    [create = false], once the file and its directory are there, [open]
    returns nothing. *)
Theorem open_replaces_scalar_root path systemDir bcknd w b file info :
  isAbsolute (asked path) && systemDir = false →
  settles w path systemDir bcknd b file info →
  value_or_null (backend_load b (with_dir (fs w) (absolutePath info)) file) = true →
  (∃ d root src w',
     ConfigSource_open path systemDir true bcknd w = Ok (Some d) w' ∧
     (d ∉ dom (sourceStore w)) ∧
     sourceStore w' !! d = Some src ∧ fileName src = file ∧ data src = Some root ∧
     heap w' !! root =
       Some (mkAtom (AsMap ∅) (readOnly_flag (fs w) info systemDir)))
  ∧ (exists_ (fs w) info = true → absolutePath info ∈ dirs (fs w) →
     ∃ w', ConfigSource_open path systemDir false bcknd w = Ok None w').
Proof.
  intros Habs Hset Hv. split.
  - destruct (open_settled path systemDir true bcknd w b file info Habs Hset)
      as (result & w1 & -> & (Hh & Hst & Hfs & _)).
    rewrite <- Hfs, <- Hst.
    apply open_with_value_or_null. by rewrite Hfs.
  - intros Hex Hdir.
    destruct (open_settled path systemDir false bcknd w b file info Habs Hset)
      as (result & w1 & -> & (Hh & Hst & Hfs & _)).
    apply open_with_value_or_null; by rewrite Hfs.
Qed.

End Loading.

(** * The properties at work on the sample states *)

Lemma value_layered_precedence_witness :
  ∃ ss',
    Config_value 3 "only" QInvalid Normal layered_session =
      Ok (match layer_value 3 layered_heap (list_to_map [("k"%string, 2)]) "only" with
          | Some v => v
          | None =>
              match layer_value 3 layered_heap
                      (list_to_map [("k"%string, 3); ("only"%string, 4)]) "only" with
              | Some w => w
              | None => QInvalid
              end
          end) ss'
    ∧ d_ptr ss' = d_ptr layered_session.
Proof.
  apply (value_layered_precedence 3 "only" QInvalid layered_session (mkLevel [0; 1] false) []
           0 1 (map_atom [("k"%string, 2)] false)
           (map_atom [("k"%string, 3); ("only"%string, 4)] true)).
  - reflexivity.
  - reflexivity.
  - discriminate.
  - reflexivity.
  - reflexivity.
  - reflexivity.
  - reflexivity.
  - intros child Hc. vm_compute in Hc. discriminate.
  - intros child Hc. vm_compute in Hc. injection Hc as <-. split.
    + eexists. vm_compute. reflexivity.
    + intros Hin. vm_compute in Hin. discriminate.
  - reflexivity.
Defined.

Lemma value_null_scalar_falls_through :
  ¬ (∀ (ss : Session QtScalar) lvl A B mA child a v fuel k def,
       levels (d_ptr ss) = [lvl] → atoms lvl = [A; B] →
       m_data <$> (heap (world ss) !! A) = Some (AsMap mA) →
       mA !! k = Some child →
       heap (world ss) !! child = Some a → isNullAtom a = false →
       toVariant fuel (heap (world ss)) child = Some v →
       returned (Config_value fuel k def Normal ss) = Some v).
Proof.
  intros Hclaim.
  specialize (Hclaim null_string_session (mkLevel [0; 1] false) 0 1
                (list_to_map [("k"%string, 2)]) 2 (value_atom QtNullString false)
                (QScalar QtNullString) 3 "k"%string QInvalid
                eq_refl eq_refl eq_refl eq_refl eq_refl eq_refl eq_refl).
  vm_compute in Hclaim. discriminate.
Qed.

Lemma setValue_of_own_value_witness :
  Config_value 3 "k" QInvalid Normal layered_session
    = Ok (QScalar (QtString "user")) layered_session
  ∧ ∃ ss', Config_setValue 3 "k" (QScalar (QtString "user")) Normal layered_session
             = Ok tt ss'
           ∧ sourceStore (world ss') = sourceStore (world layered_session)
           ∧ heap (world ss') !! 0 = Some (map_atom [("k"%string, 2)] false)
           ∧ d_ptr ss' = d_ptr layered_session.
Proof.
  refine (proj2 (setValue_of_own_value 3 "k" QInvalid layered_session
                   (mkLevel [0; 1] false) [] 0 [1] (map_atom [("k"%string, 2)] false)
                   (list_to_map [("k"%string, 2)])
                   eq_refl eq_refl eq_refl eq_refl eq_refl eq_refl)
                2 (QScalar (QtString "user")) _ _ _ _ _).
  - reflexivity.
  - vm_compute. reflexivity.
  - reflexivity.
  - vm_compute. lia.
  - reflexivity.
Defined.

Lemma setValue_of_inherited_value_dirties :
  ¬ (∀ (ss ss1 ss2 : Session QtScalar) fuel k def v,
       Config_value fuel k def Normal ss = Ok v ss1 → v ≠ def →
       Config_setValue fuel k v Normal ss1 = Ok tt ss2 →
       ∀ s, dirty <$> (sourceStore (world ss2) !! s)
            = dirty <$> (sourceStore (world ss1) !! s)).
Proof.
  intros Hclaim.
  destruct (Config_value 3 "k" QInvalid Normal empty_user_session)
    as [v ss1|] eqn:Hread; [|by vm_compute in Hread].
  destruct (Config_setValue 3 "k" v Normal ss1) as [[] ss2|] eqn:Hwrite.
  - assert (Hv : v ≠ QInvalid).
    { intros ->. vm_compute in Hread. discriminate. }
    specialize (Hclaim _ _ _ _ _ _ _ Hread Hv Hwrite 0).
    vm_compute in Hread. injection Hread as <- <-.
    vm_compute in Hwrite. injection Hwrite as <-.
    vm_compute in Hclaim. discriminate.
  - vm_compute in Hread. injection Hread as <- <-. vm_compute in Hwrite. discriminate.
Qed.

(** [replace] does not compare trees structurally: the empty string is
    no change over a null string, though the two variants differ. *)
Lemma replace_equal_is_not_structural :
  ¬ (∀ fuel (h : Heap QtScalar) p name node a m old vo vn,
       h !! p = Some a → m_data a = AsMap m → m !! name = Some old →
       toVariant fuel h old = Some vo → toVariant fuel h node = Some vn →
       vo ≠ vn →
       returned (ConfigAtom_replace fuel p name node h) = Some true).
Proof.
  intros Hclaim.
  assert (Hne : QScalar QtNullString ≠ QScalar (QtString "")) by discriminate.
  specialize (Hclaim 3 (<[5 := value_atom (QtString "") false]> null_string_heap)
                0 "k"%string 5 (map_atom [("k"%string, 2)] false)
                (list_to_map [("k"%string, 2)]) 2
                (QScalar QtNullString) (QScalar (QtString ""))
                eq_refl eq_refl eq_refl eq_refl eq_refl Hne).
  vm_compute in Hclaim. discriminate.
Qed.

Lemma open_replaces_scalar_root_witness :
  (∃ d root src w',
     ConfigSource_open "/etc/qutim/q.json" false true (Some json) locked_file_world
       = Ok (Some d) w' ∧
     (d ∉ dom (sourceStore locked_file_world)) ∧
     sourceStore w' !! d = Some src ∧ fileName src = "/etc/qutim/q.json"%string ∧
     data src = Some root ∧
     heap w' !! root = Some (mkAtom (AsMap ∅) true))
  ∧ (∃ w', ConfigSource_open "/etc/qutim/q.json" false false (Some json)
             locked_file_world = Ok None w').
Proof.
  destruct (open_replaces_scalar_root "/etc/qutim/q.json" false (Some json)
              locked_file_world json (canonical "/etc/qutim/q.json" false)
              (asked "/etc/qutim/q.json"))
    as [Hcreate Hplain].
  - reflexivity.
  - apply (settles_given locked_file_world "/etc/qutim/q.json" false json).
    intros it s Hit. vm_compute in Hit. discriminate.
  - reflexivity.
  - split; [exact Hcreate|]. apply Hplain; [reflexivity|].
    vm_compute. reflexivity.
Defined.

Lemma open_replacement_root_is_read_only :
  ¬ (∀ path systemDir (b : ConfigBackend QtScalar) w d w',
       value_or_null
         (backend_load b (with_dir (fs w) (absolutePath (asked path)))
                       (canonical path systemDir)) = true →
       ConfigSource_open path systemDir true (Some b) w = Ok (Some d) w' →
       ∃ src root a,
         sourceStore w' !! d = Some src ∧ data src = Some root ∧
         heap w' !! root = Some a ∧ m_data a = AsMap ∅ ∧ m_readOnly a = false).
Proof.
  intros Hclaim.
  destruct (ConfigSource_open "/etc/qutim/q.json" false true (Some json)
              locked_file_world) as [[d|] w'|] eqn:Hopen;
    try (vm_compute in Hopen; discriminate).
  destruct (Hclaim "/etc/qutim/q.json"%string false json locked_file_world d w'
              eq_refl Hopen) as (src & root & a & Hsrc & Hroot & Ha & _ & Hro).
  vm_compute in Hopen. injection Hopen as <- <-.
  vm_compute in Hsrc. injection Hsrc as <-. simpl in Hroot. injection Hroot as <-.
  vm_compute in Ha. injection Ha as <-. discriminate.
Qed.

(** The flag is that of the path as passed: the user's [t.json] is
    locked, yet opened by its relative name, of which the working
    directory has no file, it gets a root that may be written. *)
Lemma open_flag_is_of_the_path_as_passed :
  isWritable (fs locked_user_file_world) "/home/user/.config/qutim/t.json" = false
  ∧ ∃ d root src w',
      ConfigSource_open "t.json" false true (Some json) locked_user_file_world
        = Ok (Some d) w'
      ∧ sourceStore w' !! d = Some src ∧ data src = Some root
      ∧ fileName src = "/home/user/.config/qutim/t.json"%string
      ∧ heap w' !! root = Some (mkAtom (AsMap ∅) false).
Proof.
  split; [reflexivity|].
  assert (Hno : no_valid_entry locked_user_file_world (canonical "t.json" false)).
  { intros it s Hit. vm_compute in Hit. discriminate. }
  assert (Habs : isAbsolute (asked "t.json") && false = false) by reflexivity.
  destruct (open_settled "t.json" false true (Some json) locked_user_file_world json
              _ _ Habs (settles_given _ _ _ json Hno))
    as (result & w1 & Hopen & (_ & Hst & Hfs & _)).
  destruct (open_with_value_or_null json (canonical "t.json" false) (asked "t.json")
              result false w1)
    as [(d & root & src & w' & Hrun & _ & Hsrc & Hname & Hdata & Hroot) _].
  { by rewrite Hfs. }
  rewrite Hfs in Hroot.
  exists d, root, src, w'. rewrite Hopen.
  split; [exact Hrun|]. split; [exact Hsrc|]. split; [exact Hdata|].
  split; [exact Hname|exact Hroot].
Qed.

Lemma destroy_skips_second_source :
  ¬ (∀ d (w w' : World QtScalar),
       memoryGuard d = None → ConfigPrivate_destroy d w = Ok tt w' →
       ∀ s src, s ∈ sources d → sourceStore w !! s = Some src →
                dirty src = true → isAtLoop src = false →
                s ∈ posted w' ∧ queued_bit w' s = Some true).
Proof.
  intros Hclaim.
  destruct (ConfigPrivate_destroy both_sources second_dirty_world)
    as [[] w'|] eqn:Hdrop; [|vm_compute in Hdrop; discriminate].
  destruct (Hclaim both_sources second_dirty_world w' eq_refl Hdrop 1
              (mkSource "/usr/share/qutim/config/t.json" (Some json) true false
                        (Some 1) (Some 1%Z)))
    as [_ Hbit]; try reflexivity.
  { set_solver. }
  vm_compute in Hdrop. injection Hdrop as <-. vm_compute in Hbit. discriminate.
Qed.

Lemma open_returns_stale_entry_witness :
  ∃ w', ConfigSource_open "/cfg/a.json" false false (Some json) stale_cache_world
        = Ok (Some 0) w'.
Proof.
  apply (open_returns_stale_entry "/cfg/a.json" false json stale_cache_world
           (mkInfo 0 (Some 0)) 0
           (mkSource "/cfg/a.json" (Some json) false false (Some 0) (Some 5%Z))).
  - reflexivity.
  - reflexivity.
  - reflexivity.
  - reflexivity.
  - vm_compute. discriminate.
  - reflexivity.
Defined.

(** The same by evaluation: the file is not there, the cached source is
    not valid, and [open] returns it all the same. *)
Lemma open_missing_file_evaluated :
  exists_ (fs stale_cache_world) "/cfg/a.json" = false ∧
  returned (ConfigSource_isValid 0 stale_cache_world) = Some false ∧
  returned (ConfigSource_open "/cfg/a.json" false false (Some json) stale_cache_world)
    = Some (Some 0).
Proof. split_and!; vm_compute; reflexivity. Qed.

Lemma cache_timer_interval_witness :
  ∃ t w',
    ConfigSourceHash_value "/cfg/a.json" stale_cache_world = Ok (Some 0) w' ∧
    m_hash (sourceHash w') !! "/cfg/a.json"%string = Some (mkInfo t (Some 0)) ∧
    timers w' !! t = Some (mkTimer 300 (now stale_cache_world)) ∧
    ∃ w'', (advance 300;; deliver_timer t) w' = Ok tt w'' ∧
           now w'' = (now stale_cache_world + 300)%Z ∧
           m_hash (sourceHash w'') !! "/cfg/a.json"%string = None.
Proof.
  exact (proj1 (cache_timer_interval "/cfg/a.json" stale_cache_world)
           (mkInfo 0 (Some 0)) eq_refl).
Defined.

(** The same by evaluation: read at clock 0, timer of 300, entry gone at
    clock 300. *)
Lemma cache_entry_evicted_after_300_msec :
  match ConfigSourceHash_value "/cfg/a.json" stale_cache_world with
  | Ok _ w1 =>
      now w1 = 0%Z ∧
      (∃ it, m_hash (sourceHash w1) !! "/cfg/a.json"%string = Some it ∧
             interval <$> (timers w1 !! timer it) = Some 300%Z) ∧
      match (advance 300;; deliver_timer 1) w1 with
      | Ok _ w2 => now w2 = 300%Z ∧
                   m_hash (sourceHash w2) !! "/cfg/a.json"%string = None
      | Fault _ => False
      end
  | Fault _ => False
  end.
Proof. vm_compute. split_and!; eauto. Qed.

Lemma value_inserts_null_child_witness :
  ∃ ss',
    Config_value 3 "k" (QScalar (QtInt 7)) Normal single_session
      = Ok (QScalar (QtInt 7)) ss' ∧
    ∀ n t, m_readOnly (map_atom [] false) = false →
      toVariant n (heap (world single_session)) 0 = Some (QMapV t) →
      t !! "k"%string = None ∧
      toVariant (S n) (heap (world ss')) 0
        = Some (QMapV (<["k"%string := QInvalid]> t)).
Proof.
  exact (proj1 (value_inserts_null_child 3 "k" (QScalar (QtInt 7)) Normal
                  single_session (mkLevel [0] false) [] 0 [] (map_atom [] false) ∅
                  eq_refl eq_refl eq_refl eq_refl eq_refl eq_refl) eq_refl).
Defined.

Lemma destroy_syncs_first_source_witness :
  ConfigPrivate_destroy both_sources first_dirty_world
  = Ok tt (post_save 0 (mkSource "/home/user/.config/qutim/t.json" (Some json)
                                 true false (Some 0) (Some 1%Z)) first_dirty_world).
Proof.
  exact (destroy_syncs_first_source both_sources first_dirty_world
           (mkSource "/home/user/.config/qutim/t.json" (Some json) true false
                     (Some 0) (Some 1%Z)) eq_refl).
Defined.

Lemma endArray_frame_discipline_witness :
  Config_endArray array_session
  = Ok tt (with_levels [mkLevel [0] false] array_session).
Proof.
  apply (proj2 (endArray_frame_discipline array_session
                  (with_levels [mkLevel [0] false] array_session))).
  split; [reflexivity|]. split; [discriminate|].
  right. exists (mkLevel [2] true), (mkLevel [1] false).
  split; [reflexivity|]. split; reflexivity.
Defined.

Lemma remove_needs_atom_and_source_witness :
  Config_remove "k" layered_session
  = Ok tt (after_removal layered_session 0
             (mkAtom (AsMap (delete "k"%string (list_to_map [("k"%string, 2)]))) false)
             0 (clean_source "/home/user/.config/qutim/t.json" 0)).
Proof.
  pose proof (remove_needs_atom_and_source layered_session (mkLevel [0; 1] false) []
                eq_refl) as (_ & Hmap & _).
  exact (Hmap 0 [1] (map_atom [("k"%string, 2)] false) (list_to_map [("k"%string, 2)])
              "k"%string eq_refl eq_refl eq_refl
              (clean_source "/home/user/.config/qutim/t.json" 0) eq_refl).
Defined.

Lemma save_events_coalesce_witness :
  coalesced (post_save 0 (mkSource "/home/user/.config/qutim/t.json" (Some json)
                                   true false (Some 0) (Some 1%Z)) first_dirty_world).
Proof.
  refine (proj1 (save_events_coalesce 3 first_dirty_world _ _ _)).
  - assert (Hclear : map_Forall (λ _ src, isAtLoop src = false)
                                (sourceStore first_dirty_world)).
    { refine (bool_decide_unpack _ _). vm_compute. exact I. }
    intros s src Hs. by rewrite (Hclear s src Hs).
  - eapply rtc_l; [|apply rtc_refl]. exists LSync.
    apply (step_sync 3 both_sources). reflexivity.
Defined.

(** [beginArray], two elements visited, [endArray]: the frames are back
    where they were, and the array has grown to two elements. *)
Lemma array_frames_round_trip :
  (λ s, levels (d_ptr s)) <$>
    final ((Config_beginArray "xs";; Config_setArrayIndex 0;;
            Config_setArrayIndex 1;; Config_endArray) root_array_session)
  = Some [mkLevel [0] false]
  ∧ returned ((Config_beginArray "xs";; Config_setArrayIndex 0;;
               Config_setArrayIndex 1;; Config_endArray;;
               Config_beginArray "xs") root_array_session)
    = Some 2%Z.
Proof. split; vm_compute; reflexivity. Qed.

(** The spec's scenario of a write through a path and a read back. *)
Lemma group_write_read_back :
  returned ((Config_setValue 4 "user/name" (QScalar (QtString "alice")) Normal;;
             Config_value 4 "user/name" QInvalid Normal) root_array_session)
  = Some (QScalar (QtString "alice")).
Proof. vm_compute. reflexivity. Qed.

(** * Further facts: names, round trips, frames, the cache, opening and saving *)

Section Names.
Implicit Types (s pre suf : string).
#[local] Arguments String.append !_ _ / : simpl nomatch.

Lemma index_slash s : String.index 0 "/" s = first_slash s.
Proof.
  induction s as [|c s IH]; [done|].
  cbn [String.index first_slash String.prefix].
  destruct (Ascii.ascii_dec "/" c) as [<-|Hne].
  - case_bool_decide; [|done]. by destruct s.
  - case_bool_decide; [congruence|]. by rewrite IH.
Qed.

Lemma index_after pre suf :
  String.index (String.length pre) "/" (pre ++ suf)
  = (λ i, String.length pre + i)%nat <$> first_slash suf.
Proof.
  induction pre as [|c pre IH]; simpl.
  - rewrite index_slash. by destruct (first_slash suf).
  - rewrite IH. by destruct (first_slash suf).
Qed.

Lemma substring_after pre suf n :
  String.substring (String.length pre) n (pre ++ suf) = String.substring 0 n suf.
Proof. induction pre as [|c pre IH]; [done|]. simpl. exact IH. Qed.

Lemma substring_whole s : String.substring 0 (String.length s) s = s.
Proof. induction s as [|c s IH]; [done|]. simpl. by rewrite IH. Qed.

Lemma substring_head a b :
  String.substring 0 (String.length a) (a ++ b) = a.
Proof.
  induction a as [|c a IH]; simpl.
  - by destruct b.
  - by rewrite IH.
Qed.

Lemma string_length_app a b :
  String.length (a ++ b) = (String.length a + String.length b)%nat.
Proof. induction a as [|c a IH]; simpl; [done|]. by rewrite IH. Qed.

Lemma app_assoc_string a b c : ((a ++ b) ++ c = a ++ (b ++ c))%string.
Proof. induction a as [|x a IH]; simpl; [done|]. by rewrite IH. Qed.

Lemma app_empty_r s : (s ++ "")%string = s.
Proof. induction s as [|c s IH]; simpl; [done|]. by rewrite IH. Qed.

(** A string is cut at its first slash. *)
Lemma first_slash_Some s i :
  first_slash s = Some i →
  ∃ a rest, s = (a ++ "/" ++ rest)%string ∧ String.length a = i ∧ slash_free a = true.
Proof.
  revert i. induction s as [|c s IH]; intros i; simpl; [done|].
  case_bool_decide as Hc.
  - intros [= <-]. exists EmptyString, s. by subst.
  - destruct (first_slash s) as [j|] eqn:Hj; [|done]. intros [= <-].
    destruct (IH j eq_refl) as (a & rest & -> & <- & Hfree).
    exists (String c a), rest. simpl. case_bool_decide; [done|].
    by rewrite Hfree.
Qed.

Lemma first_slash_None s : first_slash s = None ↔ slash_free s = true.
Proof.
  induction s as [|c s IH]; simpl; [done|].
  case_bool_decide; simpl.
  - split; discriminate.
  - rewrite <- IH. destruct (first_slash s); split; (done || discriminate).
Qed.

Lemma segments_from_free a cur :
  slash_free a = true → segments_from a cur = [(cur ++ a)%string].
Proof.
  revert cur. induction a as [|c a IH]; intros cur; simpl.
  - by rewrite app_empty_r.
  - case_bool_decide; [done|]. simpl. intros Ha.
    rewrite IH by done. by rewrite app_assoc_string.
Qed.

Lemma segments_from_cut a rest cur :
  slash_free a = true →
  segments_from (a ++ "/" ++ rest) cur = (cur ++ a)%string :: segments_from rest "".
Proof.
  revert cur. induction a as [|c a IH]; intros cur; simpl.
  - by rewrite app_empty_r.
  - case_bool_decide; [done|]. simpl. intros Ha.
    rewrite IH by done. by rewrite app_assoc_string.
Qed.

Lemma parseNames_loop_spec rounds pre suf names :
  (String.length suf < rounds)%nat →
  parseNames_loop rounds (pre ++ suf) (Z.of_nat (String.length pre)) names
  = names ++ filter (λ n, n ≠ EmptyString) (segments_from suf "").
Proof.
  revert pre suf names. induction rounds as [|rounds IH]; intros pre suf names Hlen; [lia|].
  cbn [parseNames_loop]. unfold indexOf. rewrite Nat2Z.id, index_after.
  destruct (first_slash suf) as [i|] eqn:Hi; cbn [fmap option_fmap option_map].
  - destruct (first_slash_Some _ _ Hi) as (a & rest & -> & <- & Hfree).
    rewrite (bool_decide_true (_ ≠ -1)%Z) by lia.
    rewrite (bool_decide_true (_ ≠ 0)%Z) by lia.
    unfold mid. rewrite (bool_decide_false (_ < 0)%Z) by lia. rewrite Nat2Z.id.
    replace (Z.to_nat (Z.of_nat (String.length pre + String.length a)
                       - Z.of_nat (String.length pre))) with (String.length a) by lia.
    rewrite substring_after, substring_head.
    replace (pre ++ a ++ "/" ++ rest)%string with ((pre ++ a ++ "/") ++ rest)%string
      by (by rewrite !app_assoc_string).
    replace (Z.of_nat (String.length pre + String.length a) + 1)%Z
      with (Z.of_nat (String.length (pre ++ a ++ "/"))).
    2:{ rewrite !string_length_app. simpl. lia. }
    rewrite IH.
    2:{ rewrite !string_length_app in Hlen. simpl in Hlen. lia. }
    rewrite segments_from_cut by done. simpl.
    unfold isEmpty. rewrite filter_cons.
    case_bool_decide as Ha; destruct (decide (a ≠ "")); try done.
    by rewrite <- app_assoc.
  - apply first_slash_None in Hi.
    rewrite (bool_decide_false (_ ≠ -1)%Z) by lia.
    rewrite (bool_decide_false (_ ≠ 0)%Z) by lia.
    unfold mid. rewrite (bool_decide_true (_ < 0)%Z) by lia. rewrite Nat2Z.id.
    rewrite substring_after.
    replace (String.length (pre ++ suf) - String.length pre)%nat
      with (String.length suf) by (rewrite string_length_app; lia).
    rewrite substring_whole.
    rewrite segments_from_free by done. simpl.
    unfold isEmpty. rewrite filter_cons, filter_nil.
    case_bool_decide as Ha; destruct (decide (suf ≠ "")); try done.
    by rewrite app_nil_r.
Qed.

Lemma parseNames_by_segments fullName :
  parseNames fullName = filter (λ n, n ≠ EmptyString) (segments fullName).
Proof.
  unfold parseNames, segments.
  by rewrite (parseNames_loop_spec _ EmptyString fullName []) by lia.
Qed.

(** X1.  [parseNames] returns the pieces of the name between its slashes, in
    order, the empty ones left out: leading, trailing and doubled slashes
    make no difference, and the loop ends within its bound. *)
Theorem parseNames_segments fullName :
  parseNames fullName = filter (λ n, n ≠ EmptyString) (segments fullName).
Proof. apply parseNames_by_segments. Qed.

Lemma segments_join name rest :
  Forall (λ n, slash_free n = true) (name :: rest) →
  segments_from (join_names (name :: rest)) "" = name :: rest.
Proof.
  revert name. induction rest as [|n2 rest IH]; intros name Hall.
  - simpl. apply segments_from_free. by inversion Hall.
  - inversion Hall as [|? ? Hn Hrest]; subst.
    change (join_names (name :: n2 :: rest))
      with (name ++ "/" ++ join_names (n2 :: rest))%string.
    rewrite segments_from_cut by done. simpl. f_equal. by apply IH.
Qed.

(** X2.  Joining names with slashes and parsing the result gives the names
    back, provided none of them is empty or has a slash in it. *)
Theorem parseNames_join names :
  Forall (λ n, n ≠ EmptyString ∧ slash_free n = true) names →
  parseNames (join_names names) = names.
Proof.
  intros Hall. rewrite parseNames_by_segments.
  destruct names as [|name rest]; [done|].
  unfold segments. rewrite segments_join.
  2:{ eapply Forall_impl; [exact Hall|]. by intros ? [_ ?]. }
  induction Hall as [|n l [Hn _] _ IH]; [done|].
  rewrite filter_cons. destruct (decide (n ≠ "")); [|done]. by rewrite IH.
Qed.

Lemma lastIndexOf_from_free k pos found :
  slash_free k = true → lastIndexOf_from k "/" pos found = found.
Proof.
  revert pos found. induction k as [|c k IH]; intros pos found; simpl; [done|].
  case_bool_decide; [done|]. simpl. intros Hk. by rewrite IH.
Qed.

Lemma lastIndexOf_from_cut g k pos found :
  slash_free k = true →
  lastIndexOf_from (g ++ "/" ++ k) "/" pos found = (pos + Z.of_nat (String.length g))%Z.
Proof.
  revert pos found. induction g as [|c g IH]; intros pos found Hk; simpl.
  - rewrite lastIndexOf_from_free by done. try case_bool_decide; try done; lia.
  - rewrite IH by done. lia.
Qed.

Lemma lastIndexOf_free k : slash_free k = true → lastIndexOf k "/" = (-1)%Z.
Proof. apply lastIndexOf_from_free. Qed.

Lemma lastIndexOf_cut g k :
  slash_free k = true →
  lastIndexOf (g ++ "/" ++ k) "/" = Z.of_nat (String.length g).
Proof. intros Hk. unfold lastIndexOf. by rewrite lastIndexOf_from_cut. Qed.

Lemma mid_group g k :
  mid (g ++ "/" ++ k) 0 (Z.of_nat (String.length g)) = g.
Proof.
  unfold mid. rewrite bool_decide_eq_false_2 by lia.
  rewrite Nat2Z.id. apply substring_head.
Qed.

Lemma mid_name g k :
  mid (g ++ "/" ++ k) (Z.of_nat (String.length g) + 1) (-1) = k.
Proof.
  unfold mid. rewrite bool_decide_eq_true_2 by lia.
  replace (Z.to_nat (Z.of_nat (String.length g) + 1))
    with (String.length (g ++ "/")) by (rewrite string_length_app; simpl; lia).
  replace (g ++ "/" ++ k)%string with ((g ++ "/") ++ k)%string
    by (by rewrite app_assoc_string).
  rewrite substring_after.
  replace (String.length ((g ++ "/") ++ k) - String.length (g ++ "/"))%nat
    with (String.length k) by (rewrite (string_length_app (g ++ "/")); lia).
  apply substring_whole.
Qed.

End Names.

Section PathKeys.
Context `{ScalarSpace scalar} `{PathOps} `{CryptoService scalar}.
Implicit Types (h : Heap scalar) (p q : loc) (a : ConfigAtom scalar).
Implicit Types (ss : Session scalar) (w : World scalar).

Lemma set_heap_same w : set_heap (heap w) w = w.
Proof. by destruct w. Qed.

Lemma value_loop_nil fuel k var h :
  value_loop fuel k [] var h = Ok var h.
Proof. done. Qed.

Lemma Config_value_empty fuel k def flags ss lvl ls :
  levels (d_ptr ss) = lvl :: ls → atoms lvl = [] →
  Config_value fuel k def flags ss = Ok def ss.
Proof.
  intros Hl Hat. unfold Config_value. run_with (current_Some _ _ _ Hl).
  by rewrite Hat.
Qed.

(** X4.  [value] and [setValue] on a key whose only slash comes first hand the
    empty name to [beginGroup], whose assertion fails. *)
Theorem leading_slash_key_asserts fuel k def v flags ss lvl ls :
  levels (d_ptr ss) = lvl :: ls → atoms lvl ≠ [] → slash_free k = true →
  Config_value fuel ("/" ++ k) def flags ss = Fault AssertFailed
  ∧ Config_setValue fuel ("/" ++ k) v flags ss = Fault AssertFailed.
Proof.
  intros Hl Hat Hk.
  pose proof (lastIndexOf_cut EmptyString k Hk) as Hlast.
  pose proof (mid_group EmptyString k) as Hmid.
  change (String.length "") with 0%nat in Hlast, Hmid.
  change ("" ++ "/" ++ k)%string with ("/" ++ k)%string in Hlast, Hmid.
  change (Z.of_nat 0) with 0%Z in Hlast, Hmid.
  split.
  - unfold Config_value. run_with (current_Some _ _ _ Hl).
    destruct (atoms lvl); [done|]. rewrite Hlast, Hmid.
    rewrite bool_decide_eq_true_2 by lia. by rewrite !run_bind.
  - unfold Config_setValue. run_with (current_Some _ _ _ Hl).
    destruct (atoms lvl); [done|]. rewrite Hlast, Hmid.
    rewrite bool_decide_eq_true_2 by lia. by rewrite !run_bind.
Qed.

Lemma Config_value_path fuel g k def flags ss lvl ls :
  levels (d_ptr ss) = lvl :: ls → atoms lvl ≠ [] → slash_free k = true →
  Config_value fuel (g ++ "/" ++ k) def flags ss
  = (Config_beginGroup g;;
     var ← Config_value fuel k def flags;
     Config_endGroup;;
     mret var) ss.
Proof.
  intros Hl Hat Hk.
  pose proof (lastIndexOf_cut g k Hk) as Hlast.
  unfold Config_value at 1. run_with (current_Some _ _ _ Hl).
  destruct (atoms lvl) as [|a0 l0]; [done|]. rewrite Hlast, mid_group, mid_name.
  rewrite bool_decide_eq_true_2 by lia.
  rewrite !run_bind.
  destruct (Config_beginGroup g ss) as [[] ss1|f]; [|done].
  cbv beta iota. rewrite run_ret. cbv beta iota.
  destruct (levels (d_ptr ss1)) as [|lvl1 ls1] eqn:Hl1.
  { unfold Config_value, current. rewrite !run_bind, run_gets.
    cbv beta iota. by rewrite Hl1. }
  run_with (current_Some _ _ _ Hl1).
  rewrite (run_bind (Config_value fuel k def flags)).
  destruct (atoms lvl1) as [|a1 l1] eqn:Hat1.
  - rewrite run_bind, run_on_atoms, value_loop_nil. cbv beta iota.
    rewrite (Config_value_empty fuel k def flags ss1 lvl1 ls1 Hl1 Hat1).
    cbv beta iota. rewrite set_heap_same.
    destruct ss1 as [d1 w1]. cbn [d_ptr world].
    rewrite !run_bind.
    destruct (Config_endGroup _) as [[] ss2|f]; [|done]. cbv beta iota.
    rewrite !run_ret. by destruct flags.
  - rewrite (Config_value_plain fuel k def flags ss1 lvl1 ls1 Hl1)
      by (rewrite ?Hat1; done || by apply lastIndexOf_free).
    rewrite run_bind, run_on_atoms, Hat1.
    destruct (value_loop fuel k (a1 :: l1) QInvalid (heap (world ss1))) as [var h'|f];
      [|done].
    cbv beta iota. rewrite !run_bind.
    destruct (Config_endGroup _) as [[] ss2|f]; [|done]. cbv beta iota.
    rewrite !run_ret. by destruct flags.
Qed.

(** X3.  [value] with a path key is the walk into the group, the read of the
    last name there, and the way back. *)
Theorem value_of_path_key fuel g k def flags ss lvl ls :
  levels (d_ptr ss) = lvl :: ls → atoms lvl ≠ [] → slash_free k = true →
  Config_value fuel (g ++ "/" ++ k) def flags ss
  = (Config_beginGroup g;;
     var ← Config_value fuel k def flags;
     Config_endGroup;;
     mret var) ss.
Proof. apply Config_value_path. Qed.

End PathKeys.

Section WriteRead.
Context `{ScalarSpace scalar} `{PathOps} `{CryptoService scalar}.
Implicit Types (h : Heap scalar) (p q : loc) (a : ConfigAtom scalar).
Implicit Types (ss : Session scalar) (w : World scalar).

(** [setValue] with a key free of slashes, on a frame whose first atom is
    a map that may be written: build the node, replace, mark. *)
Lemma Config_setValue_plain fuel k v flags ss lvl ls A rest aA :
  levels (d_ptr ss) = lvl :: ls → atoms lvl = A :: rest →
  heap (world ss) !! A = Some aA → isMap aA = true → m_readOnly aA = false →
  lastIndexOf k "/" = (-1)%Z →
  Config_setValue fuel k v flags ss =
  match fromVariant (stored flags v) false (heap (world ss)) with
  | Ok node h1 =>
      match ConfigAtom_replace fuel A k node h1 with
      | Ok changed h2 =>
          let ss2 := mkSession (d_ptr ss) (set_heap h2 (world ss)) in
          if changed then
            match sources (d_ptr ss) with
            | s :: _ => on_world (ConfigSource_makeDirty s) ss2
            | [] => Ok tt ss2
            end
          else Ok tt ss2
      | Fault f => Fault f
      end
  | Fault f => Fault f
  end.
Proof.
  intros Hl Hat HA Hmap Hro Hk. unfold Config_setValue.
  run_with (current_Some _ _ _ Hl). rewrite Hat, Hk.
  rewrite bool_decide_eq_false_2 by (intros E; by apply E).
  rewrite run_bind, run_ret. cbv beta iota.
  run_with (current_Some _ _ _ Hl). rewrite Hat.
  rewrite run_bind, run_on_atoms. rewrite (deref_Some _ _ _ HA).
  cbv beta iota. rewrite Hmap, Hro.
  rewrite run_bind, run_assert_true. cbv beta iota.
  rewrite run_bind, run_on_atoms. simpl heap.
  fold (stored flags v).
  destruct (fromVariant (stored flags v) false (heap (world ss))) as [node h1|f]; [|done].
  cbv beta iota. rewrite run_bind, run_on_atoms. simpl heap.
  destruct (ConfigAtom_replace fuel A k node h1) as [changed h2|f]; [|done].
  cbv beta iota zeta. rewrite run_bind.
  assert (Hw : ∀ h2 w, set_heap h2 (set_heap h1 (set_heap (heap w) w)) = set_heap h2 w)
    by done.
  destruct changed.
  - rewrite run_bind, run_gets. cbv beta iota. cbn [d_ptr world]. rewrite Hw.
    destruct (sources (d_ptr ss)) as [|s srest].
    + done.
    + rewrite !run_on_world. cbn [d_ptr world].
      by destruct (ConfigSource_makeDirty s _) as [[] ?|].
  - cbn [d_ptr world]. by rewrite Hw.
Qed.

(** The store after [setValue]: [var] stands under [k] in the first atom
    and the first source is marked, or else, the old value being equal to
    [var] as Qt compares them, nothing that was there has changed. *)
Lemma setValue_writes fuel k v flags ss lvl ls A rest aA mA :
  let h := heap (world ss) in
  let var := stored flags v in
  levels (d_ptr ss) = lvl :: ls → atoms lvl = A :: rest →
  h !! A = Some aA → m_data aA = AsMap mA → m_readOnly aA = false →
  lastIndexOf k "/" = (-1)%Z →
  vsize var ≤ fuel →
  (∀ old, mA !! k = Some old → is_Some (toVariant fuel h old)) →
  (∀ s, head (sources (d_ptr ss)) = Some s → is_Some (sourceStore (world ss) !! s)) →
  ∃ ss1 (mA1 : gmap string loc) (c : loc),
    Config_setValue fuel k v flags ss = Ok tt ss1
    ∧ d_ptr ss1 = d_ptr ss
    ∧ heap (world ss1) !! A = Some (mkAtom (AsMap mA1) false)
    ∧ mA1 !! k = Some c
    ∧ (if changes fuel h mA k var
       then toVariant fuel (heap (world ss1)) c = Some var
       else mA1 = mA
            ∧ ∃ vo, toVariant fuel h c = Some vo
                    ∧ toVariant fuel (heap (world ss1)) c = Some vo
                    ∧ QVariant_equal vo var = true)
    ∧ (∀ k', k' ≠ k → mA1 !! k' = mA !! k')
    ∧ extends h (if changes fuel h mA k var
                 then <[A := aA]> (heap (world ss1)) else heap (world ss1))
    ∧ fs (world ss1) = fs (world ss) ∧ posted (world ss1) = posted (world ss)
    ∧ sourceStore (world ss1)
      = (if changes fuel h mA k var
         then match sources (d_ptr ss) with
              | s :: _ => match sourceStore (world ss) !! s with
                          | Some src => <[s := make_dirty src]> (sourceStore (world ss))
                          | None => sourceStore (world ss)
                          end
              | [] => sourceStore (world ss)
              end
         else sourceStore (world ss)).
Proof.
  intros h var Hl Hat HA HmA Hro Hk Hfuel Hold Hsrc.
  rewrite (Config_setValue_plain fuel k v flags ss lvl ls A rest aA Hl Hat HA
             (isMap_AsMap _ _ HmA) Hro Hk).
  fold h var.
  destruct (fromVariant_Ok false var h) as (node & h1 & -> & Hb).
  destruct Hb as [Hfresh Hext _ Htree Hfoot].
  assert (HA1 : h1 !! A = Some aA).
  { rewrite (Hext A); [done|]. by eapply elem_of_dom_2. }
  assert (Hnode : toVariant fuel h1 node = Some var) by by apply Htree.
  assert (HaA : aA = mkAtom (AsMap mA) false).
  { destruct aA as [d ro]. simpl in *. by subst. }
  assert (Hnode' : toVariant fuel (replaced h1 A aA mA k node) node = Some var).
  { rewrite <- Hnode. apply toVariant_agree. intros q Hq. unfold replaced.
    apply lookup_insert_ne. intros <-.
    apply Hfoot in Hq. apply elem_of_difference in Hq as [_ Hq]. apply Hq.
    by eapply elem_of_dom_2. }
  assert (Hdirty : ∀ h2,
    ∃ ss1,
      match sources (d_ptr ss) with
      | s :: _ => on_world (ConfigSource_makeDirty s)
                    (mkSession (d_ptr ss) (set_heap h2 (world ss)))
      | [] => Ok tt (mkSession (d_ptr ss) (set_heap h2 (world ss)))
      end = Ok tt ss1
      ∧ d_ptr ss1 = d_ptr ss ∧ heap (world ss1) = h2
      ∧ fs (world ss1) = fs (world ss) ∧ posted (world ss1) = posted (world ss)
      ∧ sourceStore (world ss1)
        = match sources (d_ptr ss) with
          | s :: _ => match sourceStore (world ss) !! s with
                      | Some src => <[s := make_dirty src]> (sourceStore (world ss))
                      | None => sourceStore (world ss)
                      end
          | [] => sourceStore (world ss)
          end).
  { intros h2. destruct (sources (d_ptr ss)) as [|s srest]; [by eexists|].
    destruct (Hsrc s eq_refl) as [src Hs]. rewrite run_on_world. simpl world.
    rewrite (makeDirty_Some _ s src) by done. rewrite Hs. by eexists. }
  assert (Hchanged : ∃ ss1 (mA1 : gmap string loc) (c : loc),
    (let ss2 := mkSession (d_ptr ss)
                  (set_heap (replaced h1 A aA mA k node) (world ss)) in
     match sources (d_ptr ss) with
     | s :: _ => on_world (ConfigSource_makeDirty s) ss2
     | [] => Ok tt ss2
     end) = Ok tt ss1
    ∧ d_ptr ss1 = d_ptr ss
    ∧ heap (world ss1) !! A = Some (mkAtom (AsMap mA1) false)
    ∧ mA1 !! k = Some c
    ∧ toVariant fuel (heap (world ss1)) c = Some var
    ∧ (∀ k', k' ≠ k → mA1 !! k' = mA !! k')
    ∧ extends h (<[A := aA]> (heap (world ss1)))
    ∧ fs (world ss1) = fs (world ss) ∧ posted (world ss1) = posted (world ss)
    ∧ sourceStore (world ss1)
      = match sources (d_ptr ss) with
        | s :: _ => match sourceStore (world ss) !! s with
                    | Some src => <[s := make_dirty src]> (sourceStore (world ss))
                    | None => sourceStore (world ss)
                    end
        | [] => sourceStore (world ss)
        end).
  { destruct (Hdirty (replaced h1 A aA mA k node)) as (ss1 & Hrun & Hd & Hh & Hfs & Hp & Hst).
    exists ss1, (<[k := node]> mA), node. cbv zeta. rewrite Hrun, Hh.
    split_and!; try done.
    - unfold replaced. rewrite lookup_insert_eq. by rewrite Hro.
    - apply lookup_insert_eq.
    - intros k' Hne. by apply lookup_insert_ne.
    - unfold replaced. rewrite insert_insert_eq.
      intros q Hq. destruct (decide (q = A)) as [->|Hne].
      + by rewrite lookup_insert_eq.
      + rewrite lookup_insert_ne by done. by apply Hext. }
  unfold changes.
  destruct (mA !! k) as [old|] eqn:Hk_old.
  - destruct (Hold old eq_refl) as [vo Hvo]. rewrite Hvo.
    rewrite (replace_present fuel h1 A aA mA k node old vo var HA1 HmA Hk_old
               (toVariant_extends _ _ _ _ _ Hext Hvo) Hnode).
    destruct (QVariant_equal vo var) eqn:Heq; cbn [negb]; [|exact Hchanged].
    exists (mkSession (d_ptr ss) (set_heap h1 (world ss))), mA, old.
    cbv zeta. simpl. split_and!; try done.
    + by rewrite HA1, HaA.
    + exists vo. split_and!; [done| |done]. by eapply toVariant_extends.
  - rewrite (replace_absent fuel h1 A aA mA k node HA1 HmA Hk_old). exact Hchanged.
Qed.

(** X5.  What is written is read back, as far as [replace] sees a change:
    after [setValue(k, v)] on a frame whose first atom is a map that may
    be written, [value(k)] returns [v] (for an encrypted value, what the
    service makes of it), whatever the default and the lower atoms, when
    the key was not there or [operator!=] tells the old value from the
    new one.  When it does not, the write is dropped: the first atom, the
    old value and the sources are as before, and [value(k)] still returns
    the old value if that is not null. *)
Theorem value_after_setValue fuel k v def flags ss lvl ls A rest aA mA :
  let h := heap (world ss) in
  levels (d_ptr ss) = lvl :: ls → atoms lvl = A :: rest →
  h !! A = Some aA → m_data aA = AsMap mA → m_readOnly aA = false →
  slash_free k = true →
  isNull (stored flags v) = false → vsize (stored flags v) ≤ fuel →
  (∀ old, mA !! k = Some old → is_Some (toVariant fuel h old)) →
  (∀ s, head (sources (d_ptr ss)) = Some s → is_Some (sourceStore (world ss) !! s)) →
  ∃ ss1, Config_setValue fuel k v flags ss = Ok tt ss1
    ∧ if changes fuel h mA k (stored flags v)
      then ∃ ss2, Config_value fuel k def flags ss1 = Ok (read_back flags v) ss2
      else heap (world ss1) !! A = Some aA
           ∧ sourceStore (world ss1) = sourceStore (world ss)
           ∧ extends h (heap (world ss1))
           ∧ ∃ old vo,
               mA !! k = Some old ∧ toVariant fuel h old = Some vo
               ∧ toVariant fuel (heap (world ss1)) old = Some vo
               ∧ QVariant_equal vo (stored flags v) = true
               ∧ (isNull vo = false →
                  ∃ ss2, Config_value fuel k def flags ss1
                         = Ok (finish flags def vo) ss2).
Proof.
  intros h Hl Hat HA HmA Hro Hk Hnn Hfuel Hold Hsrc.
  destruct (setValue_writes fuel k v flags ss lvl ls A rest aA mA Hl Hat HA HmA Hro
              (lastIndexOf_free _ Hk) Hfuel Hold Hsrc)
    as (ss1 & mA1 & c & Hrun & Hd & HA1 & Hc & Htree & _ & Hext & _ & _ & Hst).
  fold h in Htree, Hext, Hst.
  exists ss1. split; [done|].
  assert (Hl1 : levels (d_ptr ss1) = lvl :: ls) by by rewrite Hd.
  assert (Hread : ∀ var, toVariant fuel (heap (world ss1)) c = Some var →
            isNull var = false →
            ∃ ss2, Config_value fuel k def flags ss1 = Ok (finish flags def var) ss2).
  { intros var Hvar Hvnn.
    rewrite (Config_value_plain fuel k def flags ss1 lvl ls Hl1)
      by (rewrite ?Hat; done || by apply lastIndexOf_free).
    rewrite Hat.
    assert (Hmat : ∀ c', mA1 !! k = Some c' →
                         is_Some (toVariant fuel (heap (world ss1)) c')).
    { intros c' Hc'. assert (c' = c) as -> by congruence. eauto. }
    pose proof (value_loop_cons fuel k A rest QInvalid (heap (world ss1)) _ mA1 HA1
                  eq_refl Hmat eq_refl) as Hstep.
    assert (layer_value fuel (heap (world ss1)) mA1 k = Some var) as Hlv.
    { unfold layer_value. rewrite Hc. simpl. rewrite Hvar. simpl. by rewrite Hvnn. }
    rewrite Hlv in Hstep. rewrite Hstep. by eexists. }
  destruct (changes fuel h mA k (stored flags v)).
  - destruct (Hread _ Htree Hnn) as [ss2 Hval]. exists ss2. rewrite Hval. f_equal.
    unfold finish, read_back, stored in *. destruct flags; by rewrite Hnn.
  - destruct Htree as (-> & vo & Hvo & Hvo1 & Heq).
    assert (HaA : aA = mkAtom (AsMap mA) false).
    { destruct aA as [d ro]. simpl in *. by subst. }
    split_and!; [by rewrite HA1, HaA|done|done|].
    exists c, vo. split_and!; try done. intros Hvnn. by apply Hread.
Qed.

End WriteRead.

Section RoundTrips.
Context `{ScalarSpace scalar} `{PathOps} `{CryptoService scalar}.
Implicit Types (h : Heap scalar) (p q : loc) (a : ConfigAtom scalar).
Implicit Types (ss : Session scalar) (w : World scalar).

(** X6.  [fromVariant] followed by [toVariant] gives the tree value back: the
    atoms are built at new addresses, the store as it was is left alone,
    the root carries the flag asked for and the tag of the value, and the
    tree is materialised within as many levels as the value has nodes. *)
Theorem toVariant_of_fromVariant (v : QVariant scalar) ro h :
  ∃ p h', fromVariant v ro h = Ok p h'
    ∧ toVariant (vsize v) h' p = Some v
    ∧ (p ∉ dom h) ∧ extends h h'
    ∧ ∃ a, h' !! p = Some a ∧ m_readOnly a = ro ∧ type a = tag_of v.
Proof.
  destruct (fromVariant_Ok ro v h) as (p & h' & Hrun & [Hfresh Hext Hroot Htree _]).
  exists p, h'. split_and!; try done.
  - by apply Htree.
  - subst p. apply fresh_not_in_dom.
Qed.

Lemma type_Map a : type a = Map → ∃ m, m_data a = AsMap m.
Proof. unfold type. destruct (m_data a); try done. eauto. Qed.

(** The value of one layer at [k], read off the tree value of its map. *)
Lemma layer_value_of_tree n h A a mp (t : gmap string (QVariant scalar)) k :
  h !! A = Some a → m_data a = AsMap mp →
  toVariant (S n) h A = Some (QMapV t) →
  (∀ c, mp !! k = Some c → is_Some (toVariant (S n) h c))
  ∧ layer_value (S n) h mp k
    = match t !! k with
      | Some v => if isNull v then None else Some v
      | None => None
      end.
Proof.
  intros HA Hmp Ht. cbn [toVariant] in Ht. rewrite HA in Ht. simpl in Ht.
  rewrite Hmp in Ht.
  destruct (collect_entries (toVariant n h) mp) as [t'|] eqn:Hcol; [|done].
  injection Ht as ->.
  pose proof (proj1 (collect_entries_Some _ _ _) Hcol k) as [Hk _].
  split.
  - intros c Hc. destruct (collect_entries_elem_Some _ _ _ _ _ Hcol Hc) as [v Hv].
    exists v. by apply toVariant_S.
  - unfold layer_value. rewrite Hk. destruct (mp !! k) as [c|] eqn:Hc; [|done].
    cbn [mbind option_bind].
    destruct (collect_entries_elem_Some _ _ _ _ _ Hcol Hc) as [v Hv].
    by rewrite (toVariant_S _ _ _ _ Hv), Hv.
Qed.

(** X7.  A cursor made from a map gives the map back: [rootValue] returns it
    whole, and [value] at a key returns what the map binds the key to,
    the default taking the place of a missing or null value. *)
Theorem fromMap_read_back (map : gmap string (QVariant scalar)) w fuel k def :
  vsize (QMapV map) ≤ fuel → slash_free k = true →
  ∃ d w', Config_fromMap map w = Ok d w'
    ∧ sources d = [] ∧ memoryGuard d = None
    ∧ (∃ ss, Config_rootValue fuel def Normal (mkSession d w') = Ok (QMapV map) ss)
    ∧ (∃ ss, Config_value fuel k def Normal (mkSession d w')
             = Ok (match map !! k with
                   | Some v => if isNull v then def else v
                   | None => def
                   end) ss).
Proof.
  intros Hfuel Hk. unfold Config_fromMap.
  destruct (fromVariant_Ok false (QMapV map) (heap w))
    as (A & h' & Hrun & [_ _ (a & HA & Hro & Hty) Htree _]).
  specialize (Htree fuel Hfuel).
  rewrite run_bind, run_on_heap, Hrun. cbv beta iota. rewrite run_ret.
  eexists _, _. split; [done|]. split; [done|]. split; [done|].
  set (ss := mkSession _ _).
  assert (Hl : levels (d_ptr ss) = [mkLevel [A] false]) by done.
  split.
  - unfold Config_rootValue. run_with (current_Some _ _ _ Hl). cbn [atoms].
    rewrite run_bind, run_on_atoms. unfold toVariantM. cbn [world ss heap set_heap].
    rewrite Htree. cbv beta iota. rewrite run_ret. eauto.
  - rewrite (Config_value_plain fuel k def Normal ss _ _ Hl)
      by (done || by apply lastIndexOf_free).
    cbn [atoms world ss heap set_heap].
    destruct (type_Map a Hty) as [mp Hmp].
    destruct fuel as [|n]; [pose proof (vsize_pos (QMapV map)); lia|].
    destruct (layer_value_of_tree n h' A a mp map k HA Hmp Htree) as [Hmat Hlv].
    pose proof (value_loop_cons (S n) k A [] QInvalid h' a mp HA Hmp Hmat eq_refl)
      as Hstep.
    rewrite Hlv in Hstep. destruct (map !! k) as [v|] eqn:Hv.
    + destruct (isNull v) eqn:Hnull.
      * destruct Hstep as (var' & h'' & Hnull' & -> & _). rewrite value_loop_nil.
        unfold finish. rewrite Hnull'. eauto.
      * rewrite Hstep. unfold finish. rewrite Hnull. eauto.
    + destruct Hstep as (var' & h'' & Hnull' & -> & _). rewrite value_loop_nil.
      unfold finish. rewrite Hnull'. eauto.
Qed.

(** X8.  After [remove(k)] on a cursor over one map, [value(k)] returns the
    default. *)
Theorem value_after_remove fuel k def flags ss lvl ls A aA mA :
  levels (d_ptr ss) = lvl :: ls → atoms lvl = [A] →
  heap (world ss) !! A = Some aA → m_data aA = AsMap mA →
  slash_free k = true →
  (is_Some (mA !! k) →
     ∃ s srest, sources (d_ptr ss) = s :: srest ∧ is_Some (sourceStore (world ss) !! s)) →
  ∃ ss1, Config_remove k ss = Ok tt ss1
    ∧ ∃ ss2, Config_value fuel k def flags ss1 = Ok def ss2.
Proof.
  intros Hl Hat HA HmA Hk Hsrc.
  set (h1 := <[A := mkAtom (AsMap (delete k mA)) (m_readOnly aA)]> (heap (world ss))).
  assert (Hread : ∀ ss1, levels (d_ptr ss1) = lvl :: ls → heap (world ss1) = h1 →
            ∃ ss2, Config_value fuel k def flags ss1 = Ok def ss2).
  { intros ss1 Hl1 Hh1.
    rewrite (Config_value_plain fuel k def flags ss1 lvl ls Hl1)
      by (rewrite ?Hat; done || by apply lastIndexOf_free).
    rewrite Hat, Hh1.
    assert (HA1 : h1 !! A = Some (mkAtom (AsMap (delete k mA)) (m_readOnly aA)))
      by apply lookup_insert_eq.
    assert (Hmat : ∀ c, delete k mA !! k = Some c → is_Some (toVariant fuel h1 c)).
    { intros c. by rewrite lookup_delete_eq. }
    pose proof (value_loop_cons fuel k A [] QInvalid h1 _ _ HA1 eq_refl Hmat eq_refl)
      as Hstep.
    unfold layer_value in Hstep. rewrite lookup_delete_eq in Hstep.
    cbn [mbind option_bind] in Hstep.
    destruct Hstep as (var' & h'' & Hnull' & -> & _). rewrite value_loop_nil.
    unfold finish. rewrite Hnull'. destruct flags; eauto. }
  unfold Config_remove. run_with (current_Some _ _ _ Hl). rewrite Hat. cbn [head].
  rewrite run_bind, run_on_atoms, (atom_remove_map _ _ _ _ _ HA HmA). cbv beta iota.
  fold h1. case_bool_decide as Hin.
  - destruct (Hsrc Hin) as (s & srest & Hs & [src Hst]).
    rewrite (first_source_makeDirty_cons _ s srest src) by done.
    eexists. split; [done|]. by apply Hread.
  - rewrite run_ret. eexists. split; [done|]. by apply Hread.
Qed.

End RoundTrips.

Section Enumerating.
Context `{ScalarSpace scalar} `{PathOps} `{CryptoService scalar}.
Implicit Types (h : Heap scalar) (p q : loc) (a : ConfigAtom scalar).
Implicit Types (ss : Session scalar) (w : World scalar).

Lemma elem_of_entries {A} (m : gmap string A) k x :
  (k, x) ∈ entries_in_key_order m ↔ m !! k = Some x.
Proof.
  unfold entries_in_key_order. rewrite merge_sort_Permutation.
  apply elem_of_map_to_list.
Qed.

Lemma walk_entries {Acc} (f : string → ConfigAtom scalar → Acc → Acc) h
    (l : list (string * loc)) :
  (∀ e, e ∈ l → is_Some (h !! e.2)) →
  ∀ (walked : Run (Heap scalar) Acc) acc, walked h = Ok acc h →
  foldl (λ walked entry, acc ← walked; looking f entry.1 entry.2 acc) walked l h
  = Ok (foldl (looked f h) acc l) h.
Proof.
  induction l as [|e l IH]; intros Hall walked acc Hw; [done|].
  cbn [foldl]. apply IH.
  - intros e' He'. apply Hall. by right.
  - rewrite run_bind, Hw. cbv beta iota. unfold looking, looked.
    destruct (Hall e) as [a Ha]; [by left|].
    rewrite run_bind, (deref_Some _ _ _ Ha). cbv beta iota. by rewrite Ha, run_ret.
Qed.

Lemma iterateMap_looking {Acc} (f : string → ConfigAtom scalar → Acc → Acc) h l :
  frame_allocated h l →
  ∀ acc, iterateMap_atoms (looking f) l acc h
         = Ok (foldl (looked f h) acc (frame_entries h l)) h.
Proof.
  induction l as [|p l IH]; intros Hall acc; [done|].
  cbn [iterateMap_atoms]. destruct (Hall p) as (a & Hp & Hkids); [by left|].
  rewrite run_bind, (deref_Some _ _ _ Hp). cbv beta iota.
  unfold frame_entries. cbn [mbind list_bind]. fold (frame_entries h l).
  rewrite foldl_app. unfold map_entries at 1. rewrite Hp.
  assert (Hrest : frame_allocated h l).
  { intros q Hq. apply Hall. by right. }
  destruct (m_data a) as [l0|m|v|] eqn:Hd;
    unfold isMap, type; rewrite Hd; cbn [bool_decide decide_rel];
    try (rewrite bool_decide_eq_false_2 by done; rewrite run_bind, run_ret;
         cbv beta iota; by apply IH).
  rewrite bool_decide_eq_true_2 by done.
  rewrite run_bind. unfold ConfigAtom_iterateMap.
  rewrite run_bind, (deref_Some _ _ _ Hp). cbv beta iota.
  rewrite (isMap_AsMap _ _ Hd), run_bind, run_assert_true. cbv beta iota.
  rewrite run_bind, (asMap_Map _ _ _ _ Hp Hd). cbv beta iota.
  rewrite (walk_entries f h (entries_in_key_order m)) with (acc := acc); [|..|done].
  - cbv beta iota. by apply IH.
  - intros [k c] He. apply elem_of_entries in He. by eapply Hkids.
Qed.

Lemma elem_of_frame_entries h l name c :
  (name, c) ∈ frame_entries h l ↔
  ∃ p a m, p ∈ l ∧ h !! p = Some a ∧ m_data a = AsMap m ∧ m !! name = Some c.
Proof.
  unfold frame_entries. rewrite list_elem_of_bind. split.
  - intros (p & He & Hp). unfold map_entries in He.
    destruct (h !! p) as [a|] eqn:Ha; [|by apply elem_of_nil in He].
    destruct (m_data a) as [| m | |] eqn:Hd; try by apply elem_of_nil in He.
    apply elem_of_entries in He. by exists p, a, m.
  - intros (p & a & m & Hp & Ha & Hd & Hc). exists p. split; [|done].
    unfold map_entries. rewrite Ha, Hd. by apply elem_of_entries.
Qed.

Lemma foldl_same {A B} (f g : A → B → A) (l : list B) acc :
  (∀ acc e, f acc e = g acc e) → foldl f acc l = foldl g acc l.
Proof.
  intros Hfg. revert acc. induction l as [|e l IH]; intros acc; [done|].
  cbn [foldl]. by rewrite Hfg, IH.
Qed.

(** The list a walk that collects names builds. *)
Lemma collected_names (pick : string * loc → bool) (l : list (string * loc)) :
  ∀ acc, NoDup acc →
  let names := foldl (λ acc e, if pick e && negb (bool_decide (e.1 ∈ acc))
                               then acc ++ [e.1] else acc) acc l in
  NoDup names ∧
  ∀ name, name ∈ names ↔ name ∈ acc ∨ ∃ e, e ∈ l ∧ e.1 = name ∧ pick e = true.
Proof.
  induction l as [|e l IH]; intros acc Hnd; cbn [foldl].
  - split; [done|]. intros name. split; [by left|].
    intros [?|(e & He & _)]; [done|]. by apply elem_of_nil in He.
  - destruct (pick e) eqn:Hpick; cbn [andb].
    + case_bool_decide as Hin; cbn [negb].
      * destruct (IH acc Hnd) as [Hnd' Hmem]. split; [done|]. intros name.
        rewrite Hmem. split.
        -- intros [?|(e' & He' & ? & ?)]; [by left|]. right. exists e'.
           split; [by right|done].
        -- intros [?|(e' & He' & Hname & Hp)]; [by left|].
           apply elem_of_cons in He' as [->|He']; [left; by subst|].
           right. by exists e'.
      * assert (Hnd1 : NoDup (acc ++ [e.1])).
        { apply NoDup_app. split; [done|]. split; [|apply NoDup_singleton].
          intros x Hx Hx'%list_elem_of_singleton. by subst. }
        destruct (IH _ Hnd1) as [Hnd' Hmem]. split; [done|]. intros name.
        rewrite Hmem, elem_of_app, list_elem_of_singleton. split.
        -- intros [[? | ->]|(e' & He' & ? & ?)]; [by left| |].
           ++ right. exists e. split; [by left|done].
           ++ right. exists e'. split; [by right|done].
        -- intros [?|(e' & He' & Hname & Hp)]; [by left; left|].
           apply elem_of_cons in He' as [->|He']; [left; right; by subst|].
           right. by exists e'.
    + destruct (IH acc Hnd) as [Hnd' Hmem]. split; [done|]. intros name.
      rewrite Hmem. split.
      * intros [?|(e' & He' & ? & ?)]; [by left|]. right. exists e'.
        split; [by right|done].
      * intros [?|(e' & He' & Hname & Hp)]; [by left|].
        apply elem_of_cons in He' as [->|He']; [congruence|].
        right. by exists e'.
Qed.

(** The flag a walk that looks for one name ends with. *)
Lemma found_name (pick : string * loc → bool) name (l : list (string * loc)) :
  ∀ found,
  foldl (λ found e, if pick e && bool_decide (e.1 = name) then true else found) found l
  = true ↔ found = true ∨ ∃ e, e ∈ l ∧ e.1 = name ∧ pick e = true.
Proof.
  induction l as [|e l IH]; intros found; cbn [foldl].
  - split; [by left|]. intros [?|(e & He & _)]; [done|]. by apply elem_of_nil in He.
  - rewrite IH. split.
    + intros [Hf|(e' & He' & ? & ?)].
      * destruct (pick e) eqn:Hpick; cbn [andb] in Hf; [|by left].
        case_bool_decide; [|by left]. right. exists e. split; [by left|done].
      * right. exists e'. split; [by right|done].
    + intros [-> |(e' & He' & Hname & Hp)].
      * left. by destruct (pick e && bool_decide (e.1 = name)).
      * apply elem_of_cons in He' as [->|He'].
        -- left. by rewrite Hp, bool_decide_eq_true_2.
        -- right. by exists e'.
Qed.

Lemma picked_listed h l group name :
  (∃ e, e ∈ frame_entries h l ∧ e.1 = name ∧ is_group h group e = true)
  ↔ listed h l group name.
Proof.
  split.
  - intros ([k c] & He & Hname & Hpick). simpl in Hname. subst k.
    apply elem_of_frame_entries in He as (p & a & m & Hp & Ha & Hd & Hc).
    unfold is_group in Hpick. simpl in Hpick.
    destruct (h !! c) as [ca|] eqn:Hca; [|done].
    apply bool_decide_eq_true in Hpick. by exists p, a, m, c, ca.
  - intros (p & a & m & c & ca & Hp & Ha & Hd & Hc & Hca & Hg).
    exists (name, c). split; [|split; [done|]].
    + apply elem_of_frame_entries. by exists p, a, m.
    + unfold is_group. simpl. rewrite Hca. by apply bool_decide_eq_true.
Qed.

Lemma childGroups_run ss lvl ls :
  levels (d_ptr ss) = lvl :: ls →
  frame_allocated (heap (world ss)) (atoms lvl) →
  let h := heap (world ss) in
  Config_childGroups ss
  = Ok (foldl (λ acc e, if is_group h true e && negb (bool_decide (e.1 ∈ acc))
                        then acc ++ [e.1] else acc) [] (frame_entries h (atoms lvl))) ss.
Proof.
  intros Hl Hall h. unfold Config_childGroups. run_with (current_Some _ _ _ Hl).
  rewrite run_on_atoms. unfold ConfigLevel_iterateMap.
  pose proof (iterateMap_looking
             (λ name a groups, if isMap a && negb (bool_decide (name ∈ groups))
                               then groups ++ [name] else groups) _ _ Hall) as Hrun.
  unfold looking in Hrun. cbv beta in Hrun. rewrite Hrun. clear Hrun.
  rewrite session_eta. f_equal. fold h.
  apply foldl_same. intros acc e. unfold looked, is_group.
  destruct (h !! e.2) as [a|]; [|done]. by destruct (isMap a).
Qed.

Lemma childKeys_run ss lvl ls :
  levels (d_ptr ss) = lvl :: ls →
  frame_allocated (heap (world ss)) (atoms lvl) →
  let h := heap (world ss) in
  Config_childKeys ss
  = Ok (foldl (λ acc e, if is_group h false e && negb (bool_decide (e.1 ∈ acc))
                        then acc ++ [e.1] else acc) [] (frame_entries h (atoms lvl))) ss.
Proof.
  intros Hl Hall h. unfold Config_childKeys. run_with (current_Some _ _ _ Hl).
  rewrite run_on_atoms. unfold ConfigLevel_iterateMap.
  pose proof (iterateMap_looking
             (λ name a keys, if negb (isMap a) && negb (bool_decide (name ∈ keys))
                             then keys ++ [name] else keys) _ _ Hall) as Hrun.
  unfold looking in Hrun. cbv beta in Hrun. rewrite Hrun. clear Hrun.
  rewrite session_eta. f_equal. fold h.
  apply foldl_same. intros acc e. unfold looked, is_group.
  destruct (h !! e.2) as [a|]; [|done]. by destruct (isMap a).
Qed.

Lemma hasChildGroup_run name ss lvl ls :
  levels (d_ptr ss) = lvl :: ls →
  frame_allocated (heap (world ss)) (atoms lvl) →
  let h := heap (world ss) in
  Config_hasChildGroup name ss
  = Ok (foldl (λ found e, if is_group h true e && bool_decide (e.1 = name)
                          then true else found) false (frame_entries h (atoms lvl))) ss.
Proof.
  intros Hl Hall h. unfold Config_hasChildGroup. run_with (current_Some _ _ _ Hl).
  rewrite run_on_atoms. unfold ConfigLevel_iterateMap.
  pose proof (iterateMap_looking
             (λ keyName a found, if isMap a && bool_decide (keyName = name)
                                 then true else found) _ _ Hall) as Hrun.
  unfold looking in Hrun. cbv beta in Hrun. rewrite Hrun. clear Hrun.
  rewrite session_eta. f_equal. fold h.
  apply foldl_same. intros acc e. unfold looked, is_group.
  destruct (h !! e.2) as [a|]; [|done]. by destruct (isMap a).
Qed.

Lemma hasChildKey_run name ss lvl ls :
  levels (d_ptr ss) = lvl :: ls →
  frame_allocated (heap (world ss)) (atoms lvl) →
  let h := heap (world ss) in
  Config_hasChildKey name ss
  = Ok (foldl (λ found e, if is_group h false e && bool_decide (e.1 = name)
                          then true else found) false (frame_entries h (atoms lvl))) ss.
Proof.
  intros Hl Hall h. unfold Config_hasChildKey. run_with (current_Some _ _ _ Hl).
  rewrite run_on_atoms. unfold ConfigLevel_iterateMap.
  pose proof (iterateMap_looking
             (λ keyName a found, if negb (isMap a) && bool_decide (keyName = name)
                                 then true else found) _ _ Hall) as Hrun.
  unfold looking in Hrun. cbv beta in Hrun. rewrite Hrun. clear Hrun.
  rewrite session_eta. f_equal. fold h.
  apply foldl_same. intros acc e. unfold looked, is_group.
  destruct (h !! e.2) as [a|]; [|done]. by destruct (isMap a).
Qed.

(** X9.  [childGroups] and [childKeys] leave the cursor and the store as they
    were and return, without repeats, the names that some map of the
    current frame binds to a map, respectively to something that is not a
    map. *)
Theorem child_lists ss lvl ls :
  let h := heap (world ss) in
  levels (d_ptr ss) = lvl :: ls → frame_allocated h (atoms lvl) →
  ∃ groups keys,
    Config_childGroups ss = Ok groups ss ∧ Config_childKeys ss = Ok keys ss
    ∧ NoDup groups ∧ NoDup keys
    ∧ (∀ name, name ∈ groups ↔ listed h (atoms lvl) true name)
    ∧ (∀ name, name ∈ keys ↔ listed h (atoms lvl) false name).
Proof.
  intros h Hl Hall.
  rewrite (childGroups_run ss lvl ls Hl Hall), (childKeys_run ss lvl ls Hl Hall).
  fold h. eexists _, _. split; [done|]. split; [done|].
  destruct (collected_names (is_group h true) (frame_entries h (atoms lvl)) []
              (NoDup_nil_2)) as [Hnd1 Hmem1].
  destruct (collected_names (is_group h false) (frame_entries h (atoms lvl)) []
              (NoDup_nil_2)) as [Hnd2 Hmem2].
  split_and!; try done.
  - intros name. rewrite Hmem1, <- picked_listed. split; [|by right].
    intros [Hin|?]; [by apply elem_of_nil in Hin|done].
  - intros name. rewrite Hmem2, <- picked_listed. split; [|by right].
    intros [Hin|?]; [by apply elem_of_nil in Hin|done].
Qed.

(** X10.  [hasChildGroup] and [hasChildKey] answer whether the name is in the
    list that [childGroups], respectively [childKeys], returns. *)
Theorem has_child_agrees name ss lvl ls :
  levels (d_ptr ss) = lvl :: ls →
  frame_allocated (heap (world ss)) (atoms lvl) →
  ∃ groups keys (g k : bool),
    Config_childGroups ss = Ok groups ss ∧ Config_childKeys ss = Ok keys ss
    ∧ Config_hasChildGroup name ss = Ok g ss ∧ Config_hasChildKey name ss = Ok k ss
    ∧ (g = true ↔ name ∈ groups) ∧ (k = true ↔ name ∈ keys).
Proof.
  intros Hl Hall.
  rewrite (childGroups_run ss lvl ls Hl Hall), (childKeys_run ss lvl ls Hl Hall),
    (hasChildGroup_run name ss lvl ls Hl Hall), (hasChildKey_run name ss lvl ls Hl Hall).
  set (h := heap (world ss)).
  eexists _, _, _, _. split; [done|]. split; [done|]. split; [done|]. split; [done|].
  destruct (collected_names (is_group h true) (frame_entries h (atoms lvl)) []
              (NoDup_nil_2)) as [_ Hmem1].
  destruct (collected_names (is_group h false) (frame_entries h (atoms lvl)) []
              (NoDup_nil_2)) as [_ Hmem2].
  split.
  - rewrite found_name, Hmem1. split; (intros [Hin|?]; [|by right]).
    + done.
    + by apply elem_of_nil in Hin.
  - rewrite found_name, Hmem2. split; (intros [Hin|?]; [|by right]).
    + done.
    + by apply elem_of_nil in Hin.
Qed.

End Enumerating.

Section Navigation.
Context `{ScalarSpace scalar}.
Implicit Types (h : Heap scalar) (p q : loc) (a : ConfigAtom scalar).

Lemma navigates_refl h : closed h → navigates h h.
Proof. intros Hc. split; [done|done|]. intros q a Hq. eauto. Qed.

Lemma navigates_trans h1 h2 h3 : navigates h1 h2 → navigates h2 h3 → navigates h1 h3.
Proof.
  intros [_ Hd1 Hf1] [Hc2 Hd2 Hf2]. split; [done|set_solver|].
  intros q a Hq. destruct (Hf1 q a Hq) as (a' & Hq' & Hro').
  destruct (Hf2 q a' Hq') as (a'' & Hq'' & Hro''). exists a''. split; [done|congruence].
Qed.

(** Overwriting an atom with one of the same flag whose children are in
    the store. *)
Lemma navigates_insert h p a d :
  closed h → h !! p = Some a →
  (∀ c, c ∈ children (mkAtom d (m_readOnly a)) → c ∈ dom h) →
  navigates h (<[p := mkAtom d (m_readOnly a)]> h).
Proof.
  intros Hc Hp Hkids. split.
  - intros q b Hq c Hcin. rewrite dom_insert. apply elem_of_union_r.
    destruct (decide (q = p)) as [->|Hne].
    + rewrite lookup_insert_eq in Hq. injection Hq as <-. by apply Hkids.
    + rewrite lookup_insert_ne in Hq by done. by eapply Hc.
  - rewrite dom_insert. set_solver.
  - intros q b Hq. destruct (decide (q = p)) as [->|Hne].
    + rewrite lookup_insert_eq. eexists. split; [done|]. simpl. congruence.
    + rewrite lookup_insert_ne by done. eauto.
Qed.

Lemma navigates_create h ro :
  closed h →
  navigates h (<[fresh (dom h) := mkAtom AsNull ro]> h).
Proof.
  intros Hc. pose proof (fresh_not_in_dom h) as Hfresh. split.
  - intros q b Hq c Hcin. rewrite dom_insert. apply elem_of_union_r.
    destruct (decide (q = fresh (dom h))) as [->|Hne].
    + rewrite lookup_insert_eq in Hq. injection Hq as <-. by apply elem_of_nil in Hcin.
    + rewrite lookup_insert_ne in Hq by done. by eapply Hc.
  - rewrite dom_insert. set_solver.
  - intros q b Hq. rewrite lookup_insert_ne; [eauto|].
    intros <-. apply Hfresh. by eapply elem_of_dom_2.
Qed.

Lemma children_insert ro (m : gmap string loc) name c x :
  x ∈ children (mkAtom (AsMap (<[name := c]> m)) ro : ConfigAtom scalar) →
  x = c ∨ x ∈ children (mkAtom (AsMap m) ro : ConfigAtom scalar).
Proof.
  unfold children. simpl. intros ([k y] & -> & Hin)%list_elem_of_fmap.
  apply elem_of_map_to_list in Hin. simpl.
  destruct (decide (k = name)) as [->|Hne].
  - rewrite lookup_insert_eq in Hin. left. congruence.
  - rewrite lookup_insert_ne in Hin by done. right.
    apply list_elem_of_fmap. exists (k, y). split; [done|]. by apply elem_of_map_to_list.
Qed.

Lemma atom_eta a : mkAtom (m_data a) (m_readOnly a) = a.
Proof. by destruct a. Qed.

(** [ensureMap] on any atom. *)
Lemma ensureMap_any h p a :
  closed h → h !! p = Some a →
  ∃ m h1, ensureMap p h = Ok m h1 ∧ navigates h h1
          ∧ h1 !! p = Some (mkAtom (AsMap m) (m_readOnly a))
          ∧ (∀ q, q ≠ p → h1 !! q = h !! q)
          ∧ (∀ m0, m_data a = AsMap m0 → m = m0 ∧ h1 = h).
Proof.
  intros Hc Hp. unfold ensureMap. rewrite run_bind, (deref_Some _ _ _ Hp). cbv beta iota.
  destruct a as [d ro]. cbn [m_data m_readOnly].
  destruct d as [l|m|v|];
    try (rewrite run_bind, (store_Some _ _ _ _ Hp); cbv beta iota; rewrite run_ret;
         eexists _, _; split; [done|]; split_and!;
         [ apply (navigates_insert h p _ (AsMap ∅) Hc Hp); intros c Hcin;
           by apply elem_of_nil in Hcin
         | apply lookup_insert_eq
         | intros q Hq; by apply lookup_insert_ne
         | intros m0 Hm0; discriminate ]).
  exists m, h. split; [done|]. split_and!; try done.
  - by apply navigates_refl.
  - by intros m0 [= <-].
Qed.

(** [ensureList] on any atom. *)
Lemma ensureList_any h p a :
  closed h → h !! p = Some a →
  ∃ l h1, ensureList p h = Ok l h1 ∧ navigates h h1
          ∧ h1 !! p = Some (mkAtom (AsList l) (m_readOnly a))
          ∧ (∀ q, q ≠ p → h1 !! q = h !! q)
          ∧ (∀ l0, m_data a = AsList l0 → l = l0 ∧ h1 = h).
Proof.
  intros Hc Hp. unfold ensureList. rewrite run_bind, (deref_Some _ _ _ Hp). cbv beta iota.
  destruct a as [d ro]. cbn [m_data m_readOnly].
  destruct d as [l|m|v|];
    try (rewrite run_bind, (store_Some _ _ _ _ Hp); cbv beta iota; rewrite run_ret;
         eexists _, _; split; [done|]; split_and!;
         [ apply (navigates_insert h p _ (AsList []) Hc Hp); intros c Hcin;
           by apply elem_of_nil in Hcin
         | apply lookup_insert_eq
         | intros q Hq; by apply lookup_insert_ne
         | intros l0 Hl0; discriminate ]).
  exists l, h. split; [done|]. split_and!; try done.
  - by apply navigates_refl.
  - by intros l0 [= <-].
Qed.

(** [child(name)] on an atom that is a map or may be written: it answers,
    and what it answers with is in the store. *)
Lemma ConfigAtom_child_total h p a name :
  closed h → h !! p = Some a → (m_readOnly a = true → isMap a = true) →
  ∃ r h', ConfigAtom_child p name h = Ok r h' ∧ navigates h h'
          ∧ (∀ c, r = Some c → c ∈ dom h')
          ∧ (∀ ty q, q ≠ p → tagged ty q h → tagged ty q h')
          ∧ tagged Map p h'.
Proof.
  intros Hc Hp Hro. unfold ConfigAtom_child.
  rewrite run_bind, (deref_Some _ _ _ Hp). cbv beta iota.
  assert (negb (m_readOnly a) || isMap a = true) as ->.
  { destruct (m_readOnly a); [by rewrite Hro|done]. }
  rewrite run_bind, run_assert_true. cbv beta iota.
  destruct (ensureMap_any h p a Hc Hp) as (m & h1 & Hrun & Hnav1 & Hp1 & Hframe1 & _).
  rewrite run_bind, Hrun. cbv beta iota.
  assert (Htag1 : ∀ ty q, q ≠ p → tagged ty q h → tagged ty q h1).
  { intros ty q Hq (b & Hb & Hty). exists b. by rewrite Hframe1. }
  destruct (m !! name) as [c|] eqn:Hname.
  - rewrite run_ret. eexists _, _. split; [done|]. split_and!; try done.
    + intros c' [= <-]. eapply (nav_closed _ _ Hnav1); [exact Hp1|].
      by eapply elem_of_children_map.
    + by eexists.
  - destruct (m_readOnly a) eqn:Hflag.
    + rewrite run_ret. eexists _, _. split; [done|]. split_and!; try done.
      by eexists.
    + rewrite run_bind, create_fresh. cbv beta iota.
      set (c := fresh (dom h1)). set (h2 := <[c := mkAtom AsNull false]> h1).
      assert (Hne : p ≠ c).
      { intros ->. apply (fresh_not_in_dom h1). by eapply elem_of_dom_2. }
      assert (Hp2 : h2 !! p = Some (mkAtom (AsMap m) false)).
      { unfold h2. by rewrite lookup_insert_ne. }
      rewrite run_bind, (store_Some _ _ _ _ Hp2). cbv beta iota. rewrite run_ret.
      assert (Hnav2 : navigates h1 h2) by (apply navigates_create, Hnav1).
      eexists _, _. split; [done|]. split_and!.
      * eapply navigates_trans; [exact Hnav1|]. eapply navigates_trans; [exact Hnav2|].
        apply (navigates_insert h2 p (mkAtom (AsMap m) false)); [apply Hnav2|done|].
        intros x [->|Hx]%children_insert.
        -- unfold h2. rewrite dom_insert. set_solver.
        -- eapply (nav_closed _ _ Hnav2); [exact Hp2|done].
      * intros c' [= <-]. rewrite dom_insert. apply elem_of_union_r.
        unfold h2. rewrite dom_insert. set_solver.
      * intros ty q Hq Hty. destruct (Htag1 ty q Hq Hty) as (b & Hb & Htyb).
        exists b. split; [|done]. rewrite lookup_insert_ne by done.
        unfold h2. rewrite lookup_insert_ne; [done|].
        intros <-. apply (fresh_not_in_dom h1). by eapply elem_of_dom_2.
      * eexists. split; [apply lookup_insert_eq|done].
Qed.

Lemma append_nulls_total n h p l ro :
  closed h → h !! p = Some (mkAtom (AsList l) ro) →
  ∃ news h', append_nulls n p ro h = Ok tt h' ∧ navigates h h'
             ∧ h' !! p = Some (mkAtom (AsList (l ++ news)) ro)
             ∧ length news = n
             ∧ (∀ ty q, q ≠ p → tagged ty q h → tagged ty q h').
Proof.
  revert h l. induction n as [|n IH]; intros h l Hc Hp.
  - exists [], h. split; [done|]. split_and!; try done.
    + by apply navigates_refl.
    + by rewrite app_nil_r.
  - cbn [append_nulls]. rewrite run_bind, create_fresh. cbv beta iota.
    set (c := fresh (dom h)). set (h1 := <[c := mkAtom AsNull ro]> h).
    assert (Hne : p ≠ c).
    { intros ->. apply (fresh_not_in_dom h). by eapply elem_of_dom_2. }
    assert (Hp1 : h1 !! p = Some (mkAtom (AsList l) ro)).
    { unfold h1. by rewrite lookup_insert_ne. }
    assert (Hnav1 : navigates h h1) by by apply navigates_create.
    rewrite run_bind, (ensureList_List _ _ _ _ Hp1 eq_refl). cbv beta iota.
    rewrite run_bind, (store_Some _ _ _ _ Hp1). cbv beta iota.
    set (h2 := <[p := _]> h1).
    assert (Hnav2 : navigates h1 h2).
    { apply (navigates_insert h1 p (mkAtom (AsList l) ro)); [apply Hnav1|done|].
      unfold children. simpl. intros x [Hx| ->%list_elem_of_singleton]%elem_of_app.
      - eapply (nav_closed _ _ Hnav1); [exact Hp1|done].
      - unfold h1. rewrite dom_insert. set_solver. }
    destruct (IH h2 (l ++ [c])) as (news & h' & Hrun & Hnav & Hp' & Hlen & Htag).
    { apply Hnav2. }
    { apply lookup_insert_eq. }
    exists (c :: news), h'. split; [done|]. split_and!.
    + eapply navigates_trans; [exact Hnav1|]. by eapply navigates_trans.
    + by rewrite <- app_assoc in Hp'.
    + simpl. by rewrite Hlen.
    + intros ty q Hq (b & Hb & Hty). apply Htag; [done|]. exists b. split; [|done].
      unfold h2. rewrite lookup_insert_ne by done. unfold h1.
      rewrite lookup_insert_ne; [done|]. intros <-.
      apply (fresh_not_in_dom h). by eapply elem_of_dom_2.
Qed.

(** [child(index)] with an index that is not negative, on an atom that
    is a list or may be written. *)
Lemma ConfigAtom_childAt_total h p a index :
  closed h → h !! p = Some a → (m_readOnly a = true → isList a = true) →
  (0 ≤ index)%Z →
  ∃ r h', ConfigAtom_childAt p index h = Ok r h' ∧ navigates h h'
          ∧ (∀ c, r = Some c → c ∈ dom h')
          ∧ (∀ ty q, q ≠ p → tagged ty q h → tagged ty q h')
          ∧ tagged List p h'
          ∧ (m_readOnly a = false → is_Some r).
Proof.
  intros Hc Hp Hro Hidx. unfold ConfigAtom_childAt.
  rewrite run_bind, (deref_Some _ _ _ Hp). cbv beta iota.
  assert (negb (m_readOnly a) || isList a = true) as ->.
  { destruct (m_readOnly a); [by rewrite Hro|done]. }
  rewrite run_bind, run_assert_true. cbv beta iota.
  destruct (ensureList_any h p a Hc Hp) as (l & h1 & Hrun & Hnav1 & Hp1 & Hframe1 & _).
  rewrite run_bind, Hrun. cbv beta iota.
  assert (Htag1 : ∀ ty q, q ≠ p → tagged ty q h → tagged ty q h1).
  { intros ty q Hq (b & Hb & Hty). exists b. by rewrite Hframe1. }
  destruct (m_readOnly a && bool_decide (Z.of_nat (length l) ≤ index)%Z) eqn:Hout.
  - rewrite run_ret. eexists _, _. split; [done|]. split_and!; try done.
    + by eexists.
    + intros Hw. by rewrite Hw in Hout.
  - destruct (append_nulls_total (Z.to_nat (index + 1 - Z.of_nat (length l))) h1 p l
                (m_readOnly a) (nav_closed _ _ Hnav1) Hp1)
      as (news & h2 & Hrun2 & Hnav2 & Hp2 & Hlen & Htag2).
    rewrite run_bind, Hrun2. cbv beta iota.
    rewrite run_bind, (ensureList_List _ _ _ _ Hp2 eq_refl). cbv beta iota.
    unfold at_. rewrite bool_decide_eq_true_2 by done.
    assert (Z.to_nat index < length (l ++ news))%nat as Hin.
    { rewrite length_app, Hlen. lia. }
    destruct (lookup_lt_is_Some_2 _ _ Hin) as [c Hcl]. rewrite Hcl.
    rewrite run_bind, run_ret. cbv beta iota. rewrite run_ret.
    eexists _, _. split; [done|]. split_and!.
    + by eapply navigates_trans.
    + intros c' [= <-]. eapply (nav_closed _ _ Hnav2); [exact Hp2|].
      unfold children. simpl. by eapply list_elem_of_lookup_2.
    + intros ty q Hq Hty. apply Htag2; [done|]. by apply Htag1.
    + by eexists.
    + eauto.
Qed.

(** With a negative index [child(index)] runs into the range check of
    [QVector::at]. *)
Lemma ConfigAtom_childAt_negative h p a index :
  closed h → h !! p = Some a → (m_readOnly a = true → isList a = true) →
  (index < 0)%Z →
  ConfigAtom_childAt p index h = Fault AssertFailed.
Proof.
  intros Hc Hp Hro Hidx. unfold ConfigAtom_childAt.
  rewrite run_bind, (deref_Some _ _ _ Hp). cbv beta iota.
  assert (negb (m_readOnly a) || isList a = true) as ->.
  { destruct (m_readOnly a); [by rewrite Hro|done]. }
  rewrite run_bind, run_assert_true. cbv beta iota.
  destruct (ensureList_any h p a Hc Hp) as (l & h1 & Hrun & Hnav1 & Hp1 & Hframe1 & _).
  rewrite run_bind, Hrun. cbv beta iota.
  rewrite (bool_decide_eq_false_2 (_ ≤ _)%Z) by lia. rewrite andb_false_r.
  replace (Z.to_nat (index + 1 - Z.of_nat (length l))) with 0%nat by lia.
  cbn [append_nulls]. rewrite run_bind, run_ret. cbv beta iota.
  rewrite run_bind, (ensureList_List _ _ _ _ Hp1 eq_refl). cbv beta iota.
  unfold at_. by rewrite bool_decide_eq_false_2 by lia.
Qed.

(** [convert]: the atom ends with the tag asked for and keeps its flag;
    no other atom is touched. *)
Lemma ConfigAtom_convert_total h p a ty :
  closed h → h !! p = Some a →
  ∃ h', ConfigAtom_convert p ty h = Ok tt h' ∧ navigates h h'
        ∧ tagged ty p h'
        ∧ (∀ q, q ≠ p → h' !! q = h !! q)
        ∧ (type a = ty → h' = h).
Proof.
  intros Hc Hp. unfold ConfigAtom_convert.
  rewrite run_bind, (deref_Some _ _ _ Hp). cbv beta iota.
  case_bool_decide as Hty.
  - exists h. split; [done|]. split_and!; try done.
    + by apply navigates_refl.
    + by exists a.
  - destruct ty.
    + destruct (ensureList_any h p a Hc Hp) as (l & h1 & Hrun & Hnav1 & Hp1 & Hframe1 & _).
      rewrite run_bind, Hrun. cbv beta iota. exists h1. split; [done|].
      split_and!; try done. by eexists.
    + destruct (ensureMap_any h p a Hc Hp) as (l & h1 & Hrun & Hnav1 & Hp1 & Hframe1 & _).
      rewrite run_bind, Hrun. cbv beta iota. exists h1. split; [done|].
      split_and!; try done. by eexists.
    + unfold ensureValue. rewrite run_bind, run_bind, (deref_Some _ _ _ Hp).
      cbv beta iota.
      destruct a as [d ro]. unfold type in Hty. cbn [m_data m_readOnly] in *.
      destruct d as [l|m|v|]; try done;
        (rewrite run_bind, (store_Some _ _ _ _ Hp); cbv beta iota; rewrite !run_ret;
         cbv beta iota; eexists; split; [done|]; split_and!;
         [ apply (navigates_insert h p _ (AsValue QInvalid) Hc Hp); intros c Hcin;
           by apply elem_of_nil in Hcin
         | eexists; split; [apply lookup_insert_eq|done]
         | intros q Hq; by apply lookup_insert_ne
         | done ]).
    + unfold clear. rewrite (store_Some _ _ _ _ Hp). eexists. split; [done|].
      split_and!.
      * apply (navigates_insert h p _ AsNull Hc Hp). intros c Hcin.
        by apply elem_of_nil in Hcin.
      * eexists. split; [apply lookup_insert_eq|done].
      * intros q Hq. by apply lookup_insert_ne.
      * done.
Qed.

(** [ConfigLevel::map] with a callback that answers on every atom of a
    closed store. *)
Lemma map_atoms_total (Q : loc → Heap scalar → Prop)
    (callback : loc → bool → Run (Heap scalar) (option loc)) :
  (∀ h atom a ro, closed h → h !! atom = Some a → (m_readOnly a = true → ro = true) →
     ∃ r h', callback atom ro h = Ok r h' ∧ navigates h h'
             ∧ (∀ c, r = Some c → Q c h') ∧ (∀ c, Q c h → Q c h')) →
  ∀ l first h, closed h → (∀ p, p ∈ l → p ∈ dom h) →
  ∃ rs h', map_atoms callback first l h = Ok rs h' ∧ navigates h h'
           ∧ Forall (λ c, Q c h') rs ∧ (∀ c, Q c h → Q c h').
Proof.
  intros Hcb l. induction l as [|atom rest IH]; intros first h Hc Hall.
  - exists [], h. split; [done|]. split_and!; try done. by apply navigates_refl.
  - cbn [map_atoms]. assert (atom ∈ dom h) as [a Ha]%elem_of_dom by (apply Hall; by left).
    rewrite run_bind, (deref_Some _ _ _ Ha). cbv beta iota zeta.
    destruct (Hcb h atom a (m_readOnly a || negb first) Hc Ha)
      as (r & h1 & Hrun & Hnav1 & Hr & Hstable1).
    { by intros ->. }
    rewrite run_bind, Hrun. cbv beta iota.
    destruct (IH false h1) as (rs & h2 & Hrun2 & Hnav2 & Hrs & Hstable2).
    { apply Hnav1. }
    { intros p Hp. apply (nav_dom _ _ Hnav1), Hall. by right. }
    rewrite run_bind, Hrun2. cbv beta iota. rewrite run_ret.
    eexists _, _. split; [done|]. split_and!.
    + by eapply navigates_trans.
    + destruct r as [c|]; [|done]. constructor; [|done]. apply Hstable2. by apply Hr.
    + intros c Hq. by apply Hstable2, Hstable1.
Qed.

Lemma ConfigLevel_child_total level name h :
  closed h → (∀ p, p ∈ atoms level → p ∈ dom h) →
  ∃ level' h', ConfigLevel_child level name h = Ok level' h' ∧ navigates h h'
               ∧ (∀ p, p ∈ atoms level' → p ∈ dom h')
               ∧ arrayElement level' = false.
Proof.
  intros Hc Hall. unfold ConfigLevel_child, ConfigLevel_map.
  destruct (map_atoms_total (λ c h, c ∈ dom h)
              (λ atom readOnly,
                 a ← deref atom;
                 if readOnly && negb (isMap a) then mret None
                 else ConfigAtom_child atom name)) with (l := atoms level)
              (first := true) (h := h)
    as (rs & h' & Hrun & Hnav & Hrs & _); [|done|done|].
  - clear. intros h atom a ro Hc Ha Hro.
    rewrite run_bind, (deref_Some _ _ _ Ha). cbv beta iota.
    destruct (ro && negb (isMap a)) eqn:Hskip.
    + exists None, h. split; [done|]. split_and!; try done. by apply navigates_refl.
    + destruct (ConfigAtom_child_total h atom a name Hc Ha)
        as (r & h' & Hrun & Hnav & Hr & _).
      { intros Hflag. rewrite (Hro Hflag) in Hskip. by destruct (isMap a). }
      exists r, h'. split; [done|]. split_and!; try done.
      intros c. apply (nav_dom _ _ Hnav).
  - rewrite run_bind, Hrun. cbv beta iota. rewrite run_ret.
    eexists _, _. split; [done|]. split_and!; try done.
    intros p Hp. cbn [atoms] in Hp. by eapply Forall_forall in Hrs.
Qed.

Lemma ConfigLevel_childAt_total level index h :
  closed h → (∀ p, p ∈ atoms level → p ∈ dom h) → (0 ≤ index)%Z →
  ∃ level' h', ConfigLevel_childAt level index h = Ok level' h' ∧ navigates h h'
               ∧ (∀ p, p ∈ atoms level' → p ∈ dom h')
               ∧ arrayElement level' = false.
Proof.
  intros Hc Hall Hidx. unfold ConfigLevel_childAt, ConfigLevel_map.
  destruct (map_atoms_total (λ c h, c ∈ dom h)
              (λ atom readOnly,
                 a ← deref atom;
                 if readOnly && negb (isList a) then mret None
                 else ConfigAtom_childAt atom index)) with (l := atoms level)
              (first := true) (h := h)
    as (rs & h' & Hrun & Hnav & Hrs & _); [|done|done|].
  - clear -Hidx. intros h atom a ro Hc Ha Hro.
    rewrite run_bind, (deref_Some _ _ _ Ha). cbv beta iota.
    destruct (ro && negb (isList a)) eqn:Hskip.
    + exists None, h. split; [done|]. split_and!; try done. by apply navigates_refl.
    + destruct (ConfigAtom_childAt_total h atom a index Hc Ha)
        as (r & h' & Hrun & Hnav & Hr & _); [|done|].
      { intros Hflag. rewrite (Hro Hflag) in Hskip. by destruct (isList a). }
      exists r, h'. split; [done|]. split_and!; try done.
      intros c. apply (nav_dom _ _ Hnav).
  - rewrite run_bind, Hrun. cbv beta iota. rewrite run_ret.
    eexists _, _. split; [done|]. split_and!; try done.
    intros p Hp. cbn [atoms] in Hp. by eapply Forall_forall in Hrs.
Qed.

Lemma ConfigLevel_convert_total level ty h :
  closed h → (∀ p, p ∈ atoms level → p ∈ dom h) →
  ∃ level' h', ConfigLevel_convert level ty h = Ok level' h' ∧ navigates h h'
               ∧ (∀ p, p ∈ atoms level' → tagged ty p h')
               ∧ arrayElement level' = false.
Proof.
  intros Hc Hall. unfold ConfigLevel_convert, ConfigLevel_map.
  destruct (map_atoms_total (tagged ty)
              (λ atom readOnly,
                 a ← deref atom;
                 if readOnly && negb (bool_decide (type a = ty)) then mret None
                 else
                   (if bool_decide (type a = ty) then mret tt
                    else ConfigAtom_convert atom ty);;
                   mret (Some atom))) with (l := atoms level)
              (first := true) (h := h)
    as (rs & h' & Hrun & Hnav & Hrs & _); [|done|done|].
  - clear. intros h atom a ro Hc Ha Hro.
    rewrite run_bind, (deref_Some _ _ _ Ha). cbv beta iota.
    destruct (ro && negb (bool_decide (type a = ty))) eqn:Hskip.
    + exists None, h. split; [done|]. split_and!; try done. by apply navigates_refl.
    + case_bool_decide as Hty.
      * rewrite run_bind, !run_ret. cbv beta iota. rewrite ?run_ret.
        exists (Some atom), h. split; [done|]. split_and!; try done.
        -- by apply navigates_refl.
        -- intros c [= <-]. by exists a.
      * destruct (ConfigAtom_convert_total h atom a ty Hc Ha)
          as (h' & Hrun & Hnav & Htag & Hframe & _).
        rewrite run_bind, Hrun. cbv beta iota. rewrite run_ret.
        exists (Some atom), h'. split; [done|]. split_and!; try done.
        -- by intros c [= <-].
        -- intros c (b & Hb & Htyb). destruct (decide (c = atom)) as [->|Hne]; [done|].
           exists b. by rewrite Hframe.
  - rewrite run_bind, Hrun. cbv beta iota. rewrite run_ret.
    eexists _, _. split; [done|]. split_and!; try done.
    intros p Hp. cbn [atoms] in Hp. by eapply Forall_forall in Hrs.
Qed.

Lemma children_fold_total names level0 h0 (acc : Run (Heap scalar) ConfigLevel) h :
  acc h = Ok level0 h0 → navigates h h0 →
  (∀ p, p ∈ atoms level0 → p ∈ dom h0) →
  ∃ level' h', foldl (λ acc name, lvl ← acc; ConfigLevel_child lvl name) acc names h
               = Ok level' h'
               ∧ navigates h h' ∧ (∀ p, p ∈ atoms level' → p ∈ dom h').
Proof.
  revert level0 h0 acc. induction names as [|name names IH]; intros level0 h0 acc Hacc Hnav Hall.
  - by exists level0, h0.
  - cbn [foldl].
    destruct (ConfigLevel_child_total level0 name h0 (nav_closed _ _ Hnav) Hall)
      as (level1 & h1 & Hrun & Hnav1 & Hall1 & _).
    eapply (IH level1 h1); [|by eapply navigates_trans|done].
    by rewrite run_bind, Hacc.
Qed.

Lemma ConfigLevel_children_total level names h :
  closed h → (∀ p, p ∈ atoms level → p ∈ dom h) → names ≠ [] →
  ∃ level' h', ConfigLevel_children level names h = Ok level' h' ∧ navigates h h'
               ∧ (∀ p, p ∈ atoms level' → p ∈ dom h').
Proof.
  intros Hc Hall Hne. destruct names as [|first others]; [done|].
  cbn [ConfigLevel_children].
  destruct (ConfigLevel_child_total level first h Hc Hall)
    as (level1 & h1 & Hrun & Hnav1 & Hall1 & _).
  rewrite run_bind, Hrun. cbv beta iota.
  destruct (children_fold_total others level1 h1 (mret level1) h1)
    as (level' & h' & Hrun' & Hnav' & Hall'); [done|apply navigates_refl, Hnav1|done|].
  exists level', h'. split; [done|]. split; [|done]. by eapply navigates_trans.
Qed.

End Navigation.

Section Groups.
Context `{ScalarSpace scalar} `{PathOps} `{CryptoService scalar}.
Implicit Types (h : Heap scalar) (p q : loc) (a : ConfigAtom scalar).
Implicit Types (ss : Session scalar) (w : World scalar).

Lemma run_set_levels ls ss : set_levels ls ss = Ok tt (with_levels ls ss).
Proof. done. Qed.

Lemma run_prepend level ss :
  prepend level ss = Ok tt (with_levels (level :: levels (d_ptr ss)) ss).
Proof. unfold prepend. by rewrite run_bind, run_gets. Qed.

Lemma Config_endGroup_pop ss lvl lvl' ls :
  levels (d_ptr ss) = lvl :: lvl' :: ls →
  Config_endGroup ss = Ok tt (with_levels (lvl' :: ls) ss).
Proof.
  intros Hl. unfold Config_endGroup. rewrite run_bind, run_gets. cbv beta iota.
  rewrite Hl. cbn [length]. rewrite bool_decide_eq_true_2 by lia.
  rewrite run_bind, run_assert_true. cbv beta iota. by eapply takeFirst_cons.
Qed.

Lemma Config_endGroup_root ss lvl :
  levels (d_ptr ss) = [lvl] → Config_endGroup ss = Fault AssertFailed.
Proof.
  intros Hl. unfold Config_endGroup. rewrite run_bind, run_gets. cbv beta iota.
  rewrite Hl. cbn [length]. rewrite bool_decide_eq_false_2 by lia.
  by rewrite run_bind, run_assert_false.
Qed.

(** The walk of [beginGroup], [beginArray]: down the names, then the
    conversion. *)
Lemma descend_total level names ty h :
  closed h → (∀ p, p ∈ atoms level → p ∈ dom h) → names ≠ [] →
  ∃ below h1 level' h',
    ConfigLevel_children level names h = Ok below h1
    ∧ ConfigLevel_convert below ty h1 = Ok level' h'
    ∧ navigates h h' ∧ (∀ p, p ∈ atoms level' → tagged ty p h')
    ∧ arrayElement level' = false.
Proof.
  intros Hc Hall Hne.
  destruct (ConfigLevel_children_total level names h Hc Hall Hne)
    as (below & h1 & Hrun1 & Hnav1 & Hall1).
  destruct (ConfigLevel_convert_total below ty h1 (nav_closed _ _ Hnav1) Hall1)
    as (level' & h' & Hrun2 & Hnav2 & Htag & Hflag).
  exists below, h1, level', h'. split_and!; try done. by eapply navigates_trans.
Qed.

Lemma parseNames_nonempty fullName :
  parseNames fullName ≠ [] → isEmpty fullName = false.
Proof. intros Hne. unfold isEmpty. case_bool_decide; [by subst|done]. Qed.

Lemma beginGroup_run fullName ss lvl ls :
  let h := heap (world ss) in
  levels (d_ptr ss) = lvl :: ls → closed h → (∀ p, p ∈ atoms lvl → p ∈ dom h) →
  parseNames fullName ≠ [] →
  ∃ group h',
    Config_beginGroup fullName ss
    = Ok tt (with_levels (group :: lvl :: ls)
               (mkSession (d_ptr ss) (set_heap h' (world ss))))
    ∧ navigates h h'
    ∧ (∀ p, p ∈ atoms group → tagged Map p h')
    ∧ arrayElement group = false.
Proof.
  intros h Hl Hc Hall Hne.
  destruct (descend_total lvl (parseNames fullName) Map h Hc Hall Hne)
    as (below & h1 & group & h' & Hrun1 & Hrun2 & Hnav & Htag & Hflag).
  exists group, h'. split; [|done].
  unfold Config_beginGroup. rewrite (parseNames_nonempty _ Hne). cbn [negb].
  rewrite run_bind, run_assert_true. cbv beta iota.
  rewrite bool_decide_eq_false_2 by done. cbn [negb].
  rewrite run_bind, run_assert_true. cbv beta iota.
  run_with (current_Some _ _ _ Hl).
  rewrite run_bind, run_on_atoms. fold h. rewrite Hrun1. cbv beta iota.
  rewrite run_bind, run_on_atoms. cbn [world heap set_heap]. rewrite Hrun2.
  cbv beta iota. rewrite run_prepend. cbn [d_ptr]. by rewrite Hl.
Qed.

(** X11.  [beginGroup] with a name that has a piece between its slashes always
    goes through, on a closed store: the new frame is on top of the old
    ones, every atom of it is a map, and only atoms were touched, no
    source, no queue.  [endGroup] then puts the frames back as they were;
    on the root frame alone [endGroup] trips its assertion. *)
Theorem beginGroup_endGroup fullName ss lvl ls :
  let h := heap (world ss) in
  levels (d_ptr ss) = lvl :: ls → closed h → (∀ p, p ∈ atoms lvl → p ∈ dom h) →
  parseNames fullName ≠ [] →
  ∃ group h' ss1,
    Config_beginGroup fullName ss = Ok tt ss1
    ∧ levels (d_ptr ss1) = group :: lvl :: ls
    ∧ world ss1 = set_heap h' (world ss)
    ∧ navigates h h'
    ∧ (∀ p, p ∈ atoms group → tagged Map p h')
    ∧ arrayElement group = false
    ∧ Config_endGroup ss1 = Ok tt (mkSession (d_ptr ss) (world ss1))
    ∧ (ls = [] → Config_endGroup ss = Fault AssertFailed).
Proof.
  intros h Hl Hc Hall Hne.
  destruct (beginGroup_run fullName ss lvl ls Hl Hc Hall Hne)
    as (group & h' & Hrun & Hnav & Htag & Hflag).
  eexists group, h', _. split; [exact Hrun|]. split_and!; try done.
  - erewrite Config_endGroup_pop by done. unfold with_levels. cbn [d_ptr world].
    f_equal. f_equal. destruct ss as [[lv so mg] w]. simpl in *. by subst.
  - intros ->. by eapply Config_endGroup_root.
Qed.

Lemma clone_run ss lvl ls :
  levels (d_ptr ss) = lvl :: ls →
  ConfigPrivate_clone ss
  = Ok (mkPrivate [mkLevel (atoms lvl) (arrayElement lvl)] (sources (d_ptr ss)) None) ss.
Proof.
  intros Hl. unfold ConfigPrivate_clone. rewrite run_bind, run_gets. cbv beta iota.
  by run_with (current_Some _ _ _ Hl).
Qed.

(** X12.  [group(fullName)] hands back a cursor of its own: one frame, that of
    the group, all of whose atoms are maps; the same sources; a memory
    guard, so that dropping it posts nothing.  The cursor it was asked of
    is where it was before, and the new one cannot be taken out of its
    group: [endGroup] on it trips the assertion. *)
Theorem group_cursor self fullName ss lvl ls :
  let h := heap (world ss) in
  levels (d_ptr ss) = lvl :: ls → closed h → (∀ p, p ∈ atoms lvl → p ∈ dom h) →
  parseNames fullName ≠ [] →
  ∃ group h',
    Config_group self fullName ss
    = Ok (mkPrivate [group] (sources (d_ptr ss)) (Some self))
         (mkSession (d_ptr ss) (set_heap h' (world ss)))
    ∧ navigates h h'
    ∧ (∀ p, p ∈ atoms group → tagged Map p h')
    ∧ arrayElement group = false
    ∧ (∀ w, ConfigPrivate_destroy
              (mkPrivate [group] (sources (d_ptr ss)) (Some self)) w = Ok tt w)
    ∧ (∀ w, Config_endGroup
              (mkSession (mkPrivate [group] (sources (d_ptr ss)) (Some self)) w)
            = Fault AssertFailed).
Proof.
  intros h Hl Hc Hall Hne.
  destruct (beginGroup_run fullName ss lvl ls Hl Hc Hall Hne)
    as (group & h' & Hrun & Hnav & Htag & Hflag).
  exists group, h'. split_and!; try done.
  - unfold Config_group. rewrite (parseNames_nonempty _ Hne). cbn [negb].
    rewrite run_bind, run_assert_true. cbv beta iota.
    rewrite run_bind, Hrun. cbv beta iota.
    set (ss1 := with_levels _ _).
    rewrite run_bind, (clone_run ss1 group (lvl :: ls)) by done. cbv beta iota zeta.
    cbn [levels sources].
    rewrite run_bind, (Config_endGroup_pop ss1 group lvl ls) by done. cbv beta iota.
    rewrite run_ret. f_equal.
    + destruct group as [at_ ae]. simpl in Hflag. by subst.
    + unfold with_levels, ss1. cbn [d_ptr world sources memoryGuard].
      f_equal. destruct ss as [[lv so mg] w]. simpl in *. by subst.
Qed.

(** X13.  [arrayElement(index)] asked of a cursor that stands on an array
    element fails: the new cursor has the element frame for its only
    frame, [setArrayIndex] pops it, and no frame is left to index. *)
Theorem arrayElement_on_element_asserts self index ss lvl ls :
  levels (d_ptr ss) = lvl :: ls → arrayElement lvl = true →
  Config_arrayElement self index ss = Fault AssertFailed.
Proof.
  intros Hl Hel. unfold Config_arrayElement.
  rewrite run_bind, (clone_run ss lvl ls Hl). cbv beta iota zeta.
  cbn [levels sources]. rewrite run_bind. unfold on_cursor.
  unfold Config_setArrayIndex.
  set (c := mkSession _ _).
  assert (Hlc : levels (d_ptr c) = [mkLevel (atoms lvl) (arrayElement lvl)]) by done.
  run_with (current_Some _ _ _ Hlc). cbn [arrayElement]. rewrite Hel.
  rewrite run_bind, (takeFirst_cons _ _ _ Hlc). cbv beta iota.
  by rewrite run_bind.
Qed.

(** X14.  [setArrayIndex] with a negative index runs into the range check of
    the list. *)
Theorem setArrayIndex_negative_asserts index ss lvl ls A rest a l :
  levels (d_ptr ss) = lvl :: ls → arrayElement lvl = false →
  atoms lvl = A :: rest → heap (world ss) !! A = Some a → m_data a = AsList l →
  (index < 0)%Z →
  Config_setArrayIndex index ss = Fault AssertFailed.
Proof.
  intros Hl Hel Hat HA Hd Hidx. unfold Config_setArrayIndex.
  run_with (current_Some _ _ _ Hl). rewrite Hel.
  rewrite run_bind, run_ret. cbv beta iota.
  run_with (current_Some _ _ _ Hl). rewrite Hat.
  rewrite run_bind, run_on_atoms, (deref_Some _ _ _ HA). cbv beta iota.
  rewrite (isList_AsList _ _ Hd). rewrite run_bind, run_assert_true. cbv beta iota.
  rewrite run_bind, run_on_atoms. cbn [world heap set_heap].
  unfold ConfigLevel_childAt, ConfigLevel_map. rewrite Hat. cbn [atoms map_atoms].
  rewrite !run_bind, (deref_Some _ _ _ HA). cbv beta iota zeta.
  rewrite !run_bind, (deref_Some _ _ _ HA). cbv beta iota.
  rewrite (isList_AsList _ _ Hd). cbn [negb]. rewrite andb_false_r.
  unfold ConfigAtom_childAt. rewrite run_bind, (deref_Some _ _ _ HA). cbv beta iota.
  rewrite (isList_AsList _ _ Hd), orb_true_r.
  rewrite run_bind, run_assert_true. cbv beta iota.
  rewrite run_bind, (ensureList_List _ _ _ _ HA Hd). cbv beta iota.
  rewrite (bool_decide_eq_false_2 (_ ≤ _)%Z) by lia. rewrite andb_false_r.
  replace (Z.to_nat (index + 1 - Z.of_nat (length l))) with 0%nat by lia.
  cbn [append_nulls]. rewrite run_bind, run_ret. cbv beta iota.
  rewrite run_bind, (ensureList_List _ _ _ _ HA Hd). cbv beta iota.
  unfold at_. by rewrite bool_decide_eq_false_2 by lia.
Qed.

End Groups.

Section Wiping.
Context `{ScalarSpace scalar} `{PathOps} `{CryptoService scalar}.
Implicit Types (h : Heap scalar) (p q : loc) (a : ConfigAtom scalar).
Implicit Types (ss : Session scalar) (w : World scalar).

Lemma parseNames_single k :
  slash_free k = true → k ≠ EmptyString → parseNames k = [k].
Proof.
  intros Hk Hne. rewrite parseNames_by_segments. unfold segments.
  rewrite segments_from_free by done. change ("" +:+ k) with k.
  rewrite filter_cons, filter_nil. by destruct (decide (k ≠ "")).
Qed.

(** [beginGroup(k)] where the one atom of the frame, a map that may be
    written, binds [k] to a scalar: the scalar is turned into an empty
    map. *)
Lemma beginGroup_on_scalar k ss lvl ls A aA mA c v :
  let h := heap (world ss) in
  levels (d_ptr ss) = lvl :: ls → atoms lvl = [A] →
  h !! A = Some aA → m_data aA = AsMap mA → m_readOnly aA = false →
  mA !! k = Some c → h !! c = Some (mkAtom (AsValue v) false) →
  slash_free k = true → k ≠ EmptyString →
  Config_beginGroup k ss
  = Ok tt (with_levels (mkLevel [c] false :: lvl :: ls)
             (mkSession (d_ptr ss)
                (set_heap (<[c := mkAtom (AsMap ∅) false]> h) (world ss)))).
Proof.
  intros h Hl Hat HA HmA Hro Hc Hcv Hk Hne.
  unfold Config_beginGroup. rewrite (parseNames_single k Hk Hne).
  unfold isEmpty. rewrite (bool_decide_eq_false_2 (k = "")) by done.
  rewrite (bool_decide_eq_false_2 ([k] = [])) by done. cbn [negb].
  rewrite run_bind, run_assert_true. cbv beta iota.
  rewrite run_bind, run_assert_true. cbv beta iota.
  run_with (current_Some _ _ _ Hl).
  rewrite run_bind, run_on_atoms. fold h.
  assert (Hchild : ConfigLevel_children lvl [k] h = Ok (mkLevel [c] false) h).
  { cbn [ConfigLevel_children foldl]. unfold ConfigLevel_child, ConfigLevel_map.
    rewrite Hat. cbn [map_atoms].
    rewrite !run_bind, (deref_Some _ _ _ HA). cbv beta iota zeta.
    rewrite Hro. cbn [orb negb andb].
    rewrite !run_bind, (deref_Some _ _ _ HA). cbv beta iota.
    rewrite (child_found _ _ _ _ _ _ HA HmA Hc). cbv beta iota.
    done. }
  rewrite Hchild. cbv beta iota.
  rewrite run_bind, run_on_atoms. cbn [world heap set_heap].
  assert (Hconv : ConfigLevel_convert (mkLevel [c] false) Map h
                  = Ok (mkLevel [c] false) (<[c := mkAtom (AsMap ∅) false]> h)).
  { unfold ConfigLevel_convert, ConfigLevel_map. cbn [atoms map_atoms].
    rewrite !run_bind, (deref_Some _ _ _ Hcv). cbv beta iota zeta.
    cbn [m_readOnly orb negb andb].
    rewrite !run_bind, (deref_Some _ _ _ Hcv). cbv beta iota.
    unfold type. cbn [m_data]. rewrite bool_decide_eq_false_2 by done.
    rewrite run_bind. unfold ConfigAtom_convert.
    rewrite run_bind, (deref_Some _ _ _ Hcv). cbv beta iota.
    unfold type. cbn [m_data]. rewrite bool_decide_eq_false_2 by done.
    unfold ensureMap. rewrite !run_bind, (deref_Some _ _ _ Hcv). cbv beta iota.
    cbn [m_data]. rewrite run_bind, (store_Some _ _ _ _ Hcv). cbv beta iota.
    done. }
  rewrite Hconv. cbv beta iota. rewrite run_prepend. cbn [d_ptr]. by rewrite Hl.
Qed.

(** X15.  A read through a path destroys a scalar that stands in its way:
    [value("k/x")] on a cursor over one map that may be written and that
    binds [k] to a scalar returns the default and leaves a map where the
    scalar was; no source is marked for it. *)
Theorem path_read_wipes_scalar fuel k x def flags ss lvl ls A aA mA c v :
  let h := heap (world ss) in
  levels (d_ptr ss) = lvl :: ls → atoms lvl = [A] →
  h !! A = Some aA → m_data aA = AsMap mA → m_readOnly aA = false →
  mA !! k = Some c → h !! c = Some (mkAtom (AsValue v) false) →
  slash_free k = true → k ≠ EmptyString → slash_free x = true →
  ∃ ss2 m',
    Config_value fuel (k ++ "/" ++ x) def flags ss = Ok def ss2
    ∧ d_ptr ss2 = d_ptr ss
    ∧ heap (world ss2) !! c = Some (mkAtom (AsMap m') false)
    ∧ heap (world ss2) !! A = Some aA
    ∧ sourceStore (world ss2) = sourceStore (world ss)
    ∧ posted (world ss2) = posted (world ss).
Proof.
  intros h Hl Hat HA HmA Hro Hc Hcv Hk Hne Hx.
  rewrite (Config_value_path fuel k x def flags ss lvl ls Hl) by (by rewrite ?Hat).
  rewrite run_bind,
    (beginGroup_on_scalar k ss lvl ls A aA mA c v Hl Hat HA HmA Hro Hc Hcv Hk Hne).
  cbv beta iota. fold h.
  set (h1 := <[c := mkAtom (AsMap ∅) false]> h).
  set (ss1 := with_levels _ _).
  assert (Hl1 : levels (d_ptr ss1) = mkLevel [c] false :: lvl :: ls) by done.
  rewrite run_bind.
  rewrite (Config_value_plain fuel x def flags ss1 _ _ Hl1)
    by (done || by apply lastIndexOf_free).
  cbn [atoms]. change (heap (world ss1)) with h1.
  assert (Hc1 : h1 !! c = Some (mkAtom (AsMap ∅) false)) by apply lookup_insert_eq.
  assert (Hmat : ∀ c', (∅ : gmap string loc) !! x = Some c' →
                       is_Some (toVariant fuel h1 c')).
  { intros c'. by rewrite lookup_empty. }
  pose proof (value_loop_cons fuel x c [] QInvalid h1 _ _ Hc1 eq_refl Hmat eq_refl)
    as Hstep.
  unfold layer_value in Hstep. rewrite lookup_empty in Hstep.
  cbn [mbind option_bind m_readOnly] in Hstep.
  destruct Hstep as (var' & h2 & Hnull' & -> & ->). rewrite value_loop_nil.
  cbv beta iota. set (ss1' := mkSession _ _).
  rewrite run_bind, (Config_endGroup_pop ss1' (mkLevel [c] false) lvl ls) by done.
  cbv beta iota. rewrite run_ret.
  assert (Hne' : A ≠ c).
  { intros ->. rewrite HA in Hcv. injection Hcv as ->. simpl in HmA. discriminate. }
  eexists _, _. split.
  { f_equal. unfold finish. rewrite Hnull'. by destruct flags. }
  unfold with_levels, ss1', ss1, with_levels, with_null_child.
  cbn [d_ptr world heap set_heap sourceStore posted sources memoryGuard].
  split_and!; try done.
  - destruct ss as [[lv so mg] w]. simpl in *. by subst.
  - apply lookup_insert_eq.
  - rewrite lookup_insert_ne by done. rewrite lookup_insert_ne.
    + unfold h1. by rewrite lookup_insert_ne.
    + intros <-. apply (fresh_not_in_dom h1). apply elem_of_dom.
      unfold h1. rewrite lookup_insert_ne by done. eauto.
Qed.

End Wiping.

Section CacheInvariant.
Context `{ScalarSpace scalar} `{PathOps}.
Implicit Types (w : World scalar).

Lemma restart_timer_run key it w :
  let t := fresh ({[0%nat]} ∪ dom (stopped (timer it) (timers w))) in
  ∃ w', restart_timer key it w = Ok t w' ∧ same_documents w w'
        ∧ m_hash (sourceHash w') = m_hash (sourceHash w)
        ∧ m_timers (sourceHash w')
          = <[t := key]> (delete (timer it) (m_timers (sourceHash w)))
        ∧ timers w' = <[t := mkTimer 300 (now w)]> (stopped (timer it) (timers w)).
Proof.
  unfold restart_timer, QBasicTimer_start, killTimer, stopped. run_unfold.
  destruct (bool_decide (timer it ≠ 0%nat)); simpl; eexists; (split; [reflexivity|]);
    simpl; done.
Qed.

Lemma fresh_timer (running : gmap nat Timer) :
  let t := fresh ({[0%nat]} ∪ dom running) in t ≠ 0%nat ∧ running !! t = None.
Proof.
  intros t. pose proof (is_fresh ({[0%nat]} ∪ dom running)) as Hfresh. fold t in Hfresh.
  split; [set_solver|]. apply not_elem_of_dom. set_solver.
Qed.

(** After the timer of [it], the entry under [key], is restarted as [t]
    and the entry rewritten with it, the cache is consistent again. *)
Lemma consistent_restart key it cfg w w' :
  cache_consistent w →
  (∀ it0, m_hash (sourceHash w) !! key = Some it0 → it0 = it) →
  (m_hash (sourceHash w) !! key = None → timer it = 0%nat) →
  let t := fresh ({[0%nat]} ∪ dom (stopped (timer it) (timers w))) in
  m_hash (sourceHash w') = <[key := mkInfo t cfg]> (m_hash (sourceHash w)) →
  m_timers (sourceHash w') = <[t := key]> (delete (timer it) (m_timers (sourceHash w))) →
  timers w' = <[t := mkTimer 300 (now w)]> (stopped (timer it) (timers w)) →
  cache_consistent w'.
Proof.
  intros Hc Hsame Hnone t Hh Hm Ht key' it' Hit'.
  destruct (fresh_timer (stopped (timer it) (timers w))) as [Ht0 Htfresh]. fold t in Ht0, Htfresh.
  rewrite Hh in Hit'. rewrite Hm, Ht.
  destruct (decide (key' = key)) as [->|Hne].
  - rewrite lookup_insert_eq in Hit'. injection Hit' as <-. cbn [timer].
    rewrite !lookup_insert_eq. eauto.
  - rewrite lookup_insert_ne in Hit' by done.
    destruct (Hc key' it' Hit') as (Hnz & Hback & Hrun).
    assert (Hdiff : timer it' ≠ timer it).
    { intros Heq. destruct (m_hash (sourceHash w) !! key) as [it0|] eqn:Hk.
      - rewrite (Hsame it0 eq_refl) in Hk. destruct (Hc key it Hk) as (_ & Hback' & _).
        congruence.
      - rewrite (Hnone eq_refl) in Heq. done. }
    assert (Hlive : is_Some (stopped (timer it) (timers w) !! timer it')).
    { unfold stopped. case_bool_decide; [|done]. by rewrite lookup_delete_ne. }
    assert (Hnew : timer it' ≠ t).
    { intros Heq. rewrite Heq, Htfresh in Hlive. by destruct Hlive. }
    split; [done|]. rewrite !lookup_insert_ne by done.
    rewrite lookup_delete_ne by done. done.
Qed.

Lemma consistent_value key w :
  cache_consistent w →
  ∃ r w', ConfigSourceHash_value key w = Ok r w' ∧ cache_consistent w'
          ∧ same_documents w w'
          ∧ r = (m_hash (sourceHash w) !! key) ≫= config
          ∧ dom (m_hash (sourceHash w')) = dom (m_hash (sourceHash w)).
Proof.
  intros Hc. unfold ConfigSourceHash_value. rewrite run_bind, run_gets.
  cbv beta iota. change (id w) with w.
  destruct (m_hash (sourceHash w) !! key) as [it|] eqn:Hit.
  - destruct (restart_timer_run key it w) as (w1 & Hrun & Hsame & Hh & Hm & Ht).
    run_with Hrun. eexists _, _. split; [reflexivity|]. split_and!.
    + eapply (consistent_restart key it (config it) w); cbn; try done.
      * intros it0. rewrite Hit. congruence.
      * by rewrite Hit.
      * by rewrite Hh.
    + done.
    + done.
    + cbn. rewrite Hh, dom_insert_L. apply elem_of_dom_2 in Hit. set_solver.
  - rewrite run_ret. eexists _, _. split; [reflexivity|]. by split_and!.
Qed.

Lemma consistent_insert key s w :
  cache_consistent w →
  ∃ w', ConfigSourceHash_insert key s w = Ok tt w' ∧ cache_consistent w'
        ∧ same_documents w w'
        ∧ (config <$> m_hash (sourceHash w') !! key) = Some (Some s)
        ∧ (∀ key', key' ≠ key →
             m_hash (sourceHash w') !! key' = m_hash (sourceHash w) !! key').
Proof.
  intros Hc. unfold ConfigSourceHash_insert. rewrite run_bind, run_gets.
  cbv beta iota zeta. change (id w) with w.
  set (it := default (mkInfo 0 None) (m_hash (sourceHash w) !! key)).
  destruct (restart_timer_run key it w) as (w1 & Hrun & Hsame & Hh & Hm & Ht).
  run_with Hrun. eexists. split; [reflexivity|]. split_and!.
  - eapply (consistent_restart key it (Some s) w); cbn; try done.
    + intros it0 Hit0. unfold it. by rewrite Hit0.
    + intros Hnone. unfold it. by rewrite Hnone.
    + by rewrite Hh.
  - done.
  - cbn. by rewrite lookup_insert_eq.
  - intros key' Hne. cbn. by rewrite lookup_insert_ne, Hh.
Qed.

Lemma consistent_timerEvent t w :
  cache_consistent w →
  ∃ w', ConfigSourceHash_timerEvent t w = Ok tt w' ∧ cache_consistent w'
        ∧ m_timers (sourceHash w') !! t = None
        ∧ (∀ key, m_timers (sourceHash w) !! t = Some key →
                  m_hash (sourceHash w') !! key = None)
        ∧ (∀ key, m_timers (sourceHash w) !! t = Some key →
                  m_hash (sourceHash w') = delete key (m_hash (sourceHash w))).
Proof.
  intros Hc. unfold ConfigSourceHash_timerEvent. rewrite run_bind, run_gets.
  cbv beta iota zeta. change (id w) with w.
  set (key := default EmptyString (m_timers (sourceHash w) !! t)).
  unfold killTimer. run_unfold.
  assert (Hrest : ∀ running : gmap nat Timer,
    (∀ key' it', key' ≠ key → m_hash (sourceHash w) !! key' = Some it' →
                 is_Some (running !! timer it')) →
    ∀ key' it', delete key (m_hash (sourceHash w)) !! key' = Some it' →
      timer it' ≠ 0%nat
      ∧ delete t (m_timers (sourceHash w)) !! timer it' = Some key'
      ∧ is_Some (running !! timer it')).
  { intros running Hrunning key' it' Hit'.
    destruct (decide (key' = key)) as [->|Hne]; [by rewrite lookup_delete_eq in Hit'|].
    rewrite lookup_delete_ne in Hit' by done.
    destruct (Hc key' it' Hit') as (Hnz & Hback & Hlive).
    split; [done|]. split; [|by eapply Hrunning].
    rewrite lookup_delete_ne; [done|]. intros Heq. rewrite <- Heq in Hback.
    unfold key in Hne. rewrite Hback in Hne. done. }
  destruct (m_hash (sourceHash w) !! key) as [it|] eqn:Hit.
  - destruct (bool_decide (timer it ≠ 0%nat)) eqn:Hnz; simpl;
      eexists; (split; [reflexivity|]); simpl; (split_and!; [| | |]).
    + unfold cache_consistent; simpl. apply Hrest. intros key' it' Hne Hit'.
      destruct (Hc key' it' Hit') as (_ & Hback' & Hlive).
      destruct (Hc key it Hit) as (_ & Hback & _).
      rewrite lookup_delete_ne; [done|]. congruence.
    + apply lookup_delete_eq.
    + intros key0 Hkey0. unfold key. rewrite Hkey0. apply lookup_delete_eq.
    + intros key0 Hkey0. unfold key. by rewrite Hkey0.
    + unfold cache_consistent; simpl. apply Hrest. intros key' it' Hne Hit'. by destruct (Hc key' it' Hit') as (_ & _ & ?).
    + apply lookup_delete_eq.
    + intros key0 Hkey0. unfold key. rewrite Hkey0. apply lookup_delete_eq.
    + intros key0 Hkey0. unfold key. by rewrite Hkey0.
  - eexists. split; [reflexivity|]. simpl. split_and!.
    + unfold cache_consistent; simpl. apply Hrest. intros key' it' Hne Hit'. by destruct (Hc key' it' Hit') as (_ & _ & ?).
    + apply lookup_delete_eq.
    + intros key0 Hkey0. unfold key. rewrite Hkey0. apply lookup_delete_eq.
    + intros key0 Hkey0. unfold key. by rewrite Hkey0.
Qed.

(** X16.  The cache stays consistent: after a read, an insertion or a timer
    event every entry still has a running timer of its own that the table
    of timers maps back to its key.  A timer event takes out the entry
    the table names for the timer, and no other. *)
Theorem cache_stays_consistent w :
  cache_consistent w →
  (∀ key, ∃ r w', ConfigSourceHash_value key w = Ok r w' ∧ cache_consistent w'
       ∧ dom (m_hash (sourceHash w')) = dom (m_hash (sourceHash w)))
  ∧ (∀ key s, ∃ w', ConfigSourceHash_insert key s w = Ok tt w' ∧ cache_consistent w')
  ∧ (∀ t, ∃ w', ConfigSourceHash_timerEvent t w = Ok tt w' ∧ cache_consistent w'
       ∧ ∀ key, m_timers (sourceHash w) !! t = Some key →
           m_hash (sourceHash w') = delete key (m_hash (sourceHash w))).
Proof.
  intros Hc. split_and!.
  - intros key. destruct (consistent_value key w Hc) as (r & w' & ? & ? & _ & _ & ?).
    eauto.
  - intros key s. destruct (consistent_insert key s w Hc) as (w' & ? & ? & _). eauto.
  - intros t. destruct (consistent_timerEvent t w Hc) as (w' & Hrun & Hc' & _ & _ & Hh).
    eauto.
Qed.

Lemma cache_value_any key w :
  ∃ w', ConfigSourceHash_value key w
        = Ok ((m_hash (sourceHash w) !! key) ≫= config) w'.
Proof.
  destruct (m_hash (sourceHash w) !! key) as [it|] eqn:Hit.
  - destruct (cache_value_spec key it w Hit) as (t & w' & Hrun & _). eauto.
  - rewrite (cache_value_miss key w Hit). eauto.
Qed.

(** X17.  What is put in the cache is found there: a read of the key right
    after [insert(key, s)] returns [s], whatever the key held before, and
    the reads of the other keys return what they returned without the
    insertion. *)
Theorem cache_insert_then_value key s w :
  ∃ w1 w2,
    ConfigSourceHash_insert key s w = Ok tt w1
    ∧ ConfigSourceHash_value key w1 = Ok (Some s) w2
    ∧ ∀ key', key' ≠ key →
        ∃ r wa wb, ConfigSourceHash_value key' w = Ok r wa
                   ∧ ConfigSourceHash_value key' w1 = Ok r wb.
Proof.
  destruct (cache_insert_spec key s w) as (t & w1 & Hrun & _ & Hh & _).
  destruct (cache_value_any key w1) as [w2 Hread].
  rewrite Hh, lookup_insert_eq in Hread.
  exists w1, w2. split; [done|]. split; [done|].
  intros key' Hne.
  destruct (cache_value_any key' w) as [wa Ha].
  destruct (cache_value_any key' w1) as [wb Hb].
  rewrite Hh, lookup_insert_ne in Hb by done. eauto.
Qed.

(** X18.  The cache keeps to itself: a read, an insertion and a timer event
    change the table, the timers and nothing else.  Atoms, sources, files,
    posted events and the clock are as before; in particular a source
    whose entry is evicted is still there for the cursors that hold it. *)
Theorem cache_leaves_documents_alone w :
  (∀ key, ∃ r w', ConfigSourceHash_value key w = Ok r w' ∧ same_documents w w')
  ∧ (∀ key s, ∃ w', ConfigSourceHash_insert key s w = Ok tt w' ∧ same_documents w w')
  ∧ (∀ t, ∃ w', ConfigSourceHash_timerEvent t w = Ok tt w' ∧ same_documents w w').
Proof.
  split_and!.
  - intros key. destruct (m_hash (sourceHash w) !! key) as [it|] eqn:Hit.
    + destruct (cache_value_spec key it w Hit) as (t & w' & Hrun & Hsame & _). eauto.
    + rewrite (cache_value_miss key w Hit). by eexists _, _.
  - intros key s. destruct (cache_insert_spec key s w) as (t & w' & Hrun & Hsame & _).
    eauto.
  - intros t. unfold ConfigSourceHash_timerEvent, killTimer. run_unfold.
    change (id w) with w.
    destruct (m_hash (sourceHash w) !! default EmptyString (m_timers (sourceHash w) !! t))
      as [it|]; [destruct (bool_decide (timer it ≠ 0%nat))|];
      eexists; (split; [reflexivity|]); done.
Qed.

End CacheInvariant.

Section Sharing.
Context `{ScalarSpace scalar} `{PathOps}.
Implicit Types (h : Heap scalar) (p q : loc) (a : ConfigAtom scalar).
Implicit Types (w : World scalar).

Lemma tag_of_value_or_null (v : QVariant scalar) :
  value_or_null v = false → tag_of v = Map ∨ tag_of v = List.
Proof. destruct v; try done; eauto. Qed.

(** The end of [open]: the source goes into the cache and is returned. *)
Lemma register_loaded fileName b d ro stamp root a w :
  sourceStore w !! d = Some (mkSource fileName (Some b) false false (Some root) stamp) →
  heap w !! root = Some a → m_readOnly a = ro → (type a = Map ∨ type a = List) →
  ∃ w', (ConfigSourceHash_insert fileName d;; mret (Some d)) w = Ok (Some d) w'
        ∧ loaded fileName b d ro stamp w' ∧ same_documents w w'
        ∧ (∀ key, key ≠ fileName →
             m_hash (sourceHash w') !! key = m_hash (sourceHash w) !! key).
Proof.
  intros Hd Hroot Hro Hty.
  destruct (cache_insert_spec fileName d w) as (t & w' & Hins & Hsame & Hhash & _).
  exists w'. split; [by run_with Hins|]. split; [|split; [done|]].
  - destruct Hsame as (Hh & Hst & _).
    exists root, a, t. rewrite Hst, Hh, Hhash, lookup_insert_eq. done.
  - intros key Hne. by rewrite Hhash, lookup_insert_ne.
Qed.

(** What [open] does once the tree is loaded, for any tree. *)
Lemma after_load_spec fileName b create d ro stamp v w :
  sourceStore w !! d = Some (mkSource fileName (Some b) false false None stamp) →
  ∃ r w', after_load fileName create d ro v w = Ok r w'
    ∧ fs w' = fs w ∧ extends (heap w) (heap w')
    ∧ (∀ s, s ≠ d → sourceStore w' !! s = sourceStore w !! s)
    ∧ (∀ key, key ≠ fileName →
         m_hash (sourceHash w') !! key = m_hash (sourceHash w) !! key)
    ∧ (if value_or_null v && negb create then r = None
       else r = Some d ∧ loaded fileName b d ro stamp w').
Proof.
  intros Hd. unfold after_load.
  destruct (fromVariant_Ok ro v (heap w))
    as (root & h1 & Hrun & [_ Hext (a & Ha & Hro & Hty) _ _]).
  rewrite run_bind, run_on_heap, Hrun. cbv beta iota.
  rewrite run_bind, (set_data_Some (set_heap h1 w) d _ root Hd). cbv beta iota.
  rewrite run_bind, run_on_heap. cbn [heap set_heap set_sourceStore].
  rewrite (deref_Some _ _ _ Ha). cbv beta iota.
  set (w1 := set_sourceStore _ _).
  assert (Hkind : isValue a || isNullAtom a = value_or_null v).
  { unfold isValue, isNullAtom. rewrite Hty. by destruct v. }
  rewrite Hkind. destruct (value_or_null v) eqn:Hv; cbn [andb].
  - destruct create; cbn [negb].
    + destruct (fromVariant_Ok ro (QMapV ∅) h1)
        as (root' & h2 & Hrun' & [_ Hext' (a' & Ha' & Hro' & Hty') _ _]).
      rewrite run_bind, run_on_heap. cbn [heap w1 set_heap set_sourceStore].
      rewrite Hrun'. cbv beta iota.
      rewrite run_bind, (set_data_Some _ _ (with_data _ root) root')
        by apply lookup_insert_eq.
      cbv beta iota. set (w2 := set_sourceStore _ _).
      destruct (register_loaded fileName b d ro stamp root' a' w2)
        as (w' & Hreg & Hloaded & (Hh & Hst & Hfs & _) & Hhf); try done.
      { unfold w2. cbn. by rewrite lookup_insert_eq. }
      { by left. }
      exists (Some d), w'. split; [exact Hreg|]. rewrite Hfs, Hh, Hst.
      split_and!; try done.
      * unfold w2. cbn. by eapply extends_trans.
      * intros s Hs. unfold w2. cbn. by rewrite !lookup_insert_ne.
    + rewrite run_ret. exists None, w1. split; [done|]. split_and!; try done.
      intros s Hs. unfold w1. cbn. by rewrite lookup_insert_ne.
  - destruct (register_loaded fileName b d ro stamp root a w1)
      as (w' & Hreg & Hloaded & (Hh & Hst & Hfs & _) & Hhf); try done.
    { unfold w1. cbn. by rewrite lookup_insert_eq. }
    { rewrite Hty. by apply tag_of_value_or_null. }
    exists (Some d), w'. split; [exact Hreg|]. rewrite Hfs, Hh, Hst.
    split_and!; try done.
    intros s Hs. unfold w1. cbn. by rewrite lookup_insert_ne.
Qed.

(** [open] on a name the cache does not hold, with the backend given. *)
Lemma open_miss_spec path systemDir create b w :
  isAbsolute (asked path) && systemDir = false →
  m_hash (sourceHash w) !! canonical path systemDir = None →
  let d := fresh (dom (sourceStore w)) in
  let fs1 := with_dir (fs w) (absolutePath (asked path)) in
  let v := backend_load b fs1 (canonical path systemDir) in
  let reach := create || (exists_ (fs w) (asked path)
                          && bool_decide (absolutePath (asked path) ∈ dirs (fs w))) in
  ∃ r w', ConfigSource_open path systemDir create (Some b) w = Ok r w'
    ∧ extends (heap w) (heap w')
    ∧ (∀ s, s ≠ d → sourceStore w' !! s = sourceStore w !! s)
    ∧ (∀ key, key ≠ canonical path systemDir →
         m_hash (sourceHash w') !! key = m_hash (sourceHash w) !! key)
    ∧ (if reach && negb (value_or_null v && negb create)
       then r = Some d ∧ fs w' = fs1
            ∧ loaded (canonical path systemDir) b d
                (readOnly_flag (fs w) (asked path) systemDir)
                (lastModifiedOf fs1 (canonical path systemDir)) w'
       else r = None).
Proof.
  intros Habs Hmiss d fs1 v reach.
  rewrite (open_after_lookup path systemDir create b w None w Habs (cached_miss _ _ Hmiss)).
  destruct reach eqn:Hreach; cbn [andb].
  - rewrite open_with_loads.
    2:{ unfold reach in Hreach. destruct create; [by left|right]. cbn [orb] in Hreach.
        apply andb_true_iff in Hreach as [? ?%bool_decide_eq_true]. done. }
    fold d fs1 v.
    destruct (after_load_spec (canonical path systemDir) b create d
                (readOnly_flag (fs w) (asked path) systemDir)
                (lastModifiedOf fs1 (canonical path systemDir)) v
                (before_load b (canonical path systemDir) (asked path) w))
      as (r & w' & Hrun & Hfs & Hext & Hframe & Hhf & Hres).
    { unfold before_load. cbn. by rewrite lookup_insert_eq. }
    exists r, w'. split; [done|]. split; [done|]. split.
    { intros s Hs. rewrite Hframe by done. unfold before_load. cbn.
      by rewrite lookup_insert_ne. }
    split; [exact Hhf|].
    destruct (value_or_null v && negb create); [done|]. cbn [negb].
    destruct Hres as [-> Hloaded]. by rewrite Hfs.
  - unfold reach in Hreach. apply orb_false_iff in Hreach as [-> Hno].
    unfold open_with. rewrite run_bind, run_gets. cbv beta iota zeta.
    change (id w) with w. cbn [negb]. rewrite !andb_true_r.
    destruct (exists_ (fs w) (asked path)); cbn [negb andb] in *.
    + rewrite Hno. cbn [negb]. rewrite run_ret. exists None, w. by split_and!.
    + rewrite run_ret. exists None, w. by split_and!.
Qed.

(** X19.  With [create] set and the backend given, [open] on a name the cache
    does not hold always returns a source.  The source is new and clean,
    its root is a map or a list (never a scalar, never null) that carries
    the read-only flag computed from the file, and it is in the cache
    under the canonical name.  The directory is made; no file is. *)
Theorem open_create_gives_source path systemDir b w :
  isAbsolute (asked path) && systemDir = false →
  m_hash (sourceHash w) !! canonical path systemDir = None →
  let d := fresh (dom (sourceStore w)) in
  let fs1 := with_dir (fs w) (absolutePath (asked path)) in
  ∃ w', ConfigSource_open path systemDir true (Some b) w = Ok (Some d) w'
    ∧ loaded (canonical path systemDir) b d
        (readOnly_flag (fs w) (asked path) systemDir)
        (lastModifiedOf fs1 (canonical path systemDir)) w'
    ∧ files (fs w') = files (fs w)
    ∧ absolutePath (asked path) ∈ dirs (fs w')
    ∧ extends (heap w) (heap w')
    ∧ (∀ s, s ≠ d → sourceStore w' !! s = sourceStore w !! s).
Proof.
  intros Habs Hmiss d fs1.
  destruct (open_miss_spec path systemDir true b w Habs Hmiss)
    as (r & w' & Hrun & Hext & Hframe & _ & Hres).
  cbn [orb andb negb] in Hres. rewrite andb_false_r in Hres. cbn [negb] in Hres.
  destruct Hres as (-> & Hfs & Hloaded). exists w'. split; [done|].
  split_and!; try done.
  - rewrite Hfs. unfold with_dir. by case_bool_decide.
  - rewrite Hfs. unfold with_dir. case_bool_decide; [done|]. cbn. set_solver.
Qed.

(** X20.  Two cursors on one file share its source: when [open] has loaded a
    file, a second [open] of the same path finds the source in the cache,
    finds it valid, and returns the same source, whatever its [create]. *)
Theorem open_twice_shares path systemDir create create' b w d w' :
  isAbsolute (asked path) && systemDir = false →
  m_hash (sourceHash w) !! canonical path systemDir = None →
  ConfigSource_open path systemDir create (Some b) w = Ok (Some d) w' →
  ∃ w'', ConfigSource_open path systemDir create' (Some b) w' = Ok (Some d) w''
         ∧ same_documents w' w''.
Proof.
  intros Habs Hmiss Hopen.
  destruct (open_miss_spec path systemDir create b w Habs Hmiss)
    as (r & w1 & Hrun & _ & _ & _ & Hres).
  rewrite Hopen in Hrun. injection Hrun as <- <-.
  destruct (_ && _) in Hres; [|done].
  destruct Hres as ([= ->] & Hfs & (root & a & t & Hsrc & _ & _ & _ & Hhash)).
  destruct (cache_value_spec _ _ w' Hhash) as (t' & w'' & Hval & Hsame & _).
  exists w''. split; [|done].
  unfold ConfigSource_open. fold (asked path). rewrite Habs.
  fold (canonical path systemDir). unfold cached.
  rewrite !run_bind, Hval. cbv beta iota. cbn [config].
  destruct Hsame as (_ & Hst & Hfs' & _).
  unfold ConfigSource_isValid.
  rewrite !run_bind, (deref_source_Some w'' _ _) by (by rewrite Hst).
  cbv beta iota. rewrite run_bind, run_gets. cbv beta iota. rewrite run_ret.
  cbv beta iota. cbn [fileName lastModified]. rewrite Hfs', Hfs.
  rewrite bool_decide_eq_true_2 by done. by rewrite !run_ret.
Qed.

(** X21.  Without [create], [open] on a name the cache does not hold returns
    nothing and leaves the world as it is when the file, or its directory,
    is not there.  The file looked for is the path as it was asked for:
    with the backend given the [QFileInfo] is never set to the canonical
    name. *)
Theorem open_missing_file_absent path systemDir b w :
  isAbsolute (asked path) && systemDir = false →
  m_hash (sourceHash w) !! canonical path systemDir = None →
  exists_ (fs w) (asked path) = false ∨ absolutePath (asked path) ∉ dirs (fs w) →
  ConfigSource_open path systemDir false (Some b) w = Ok None w.
Proof.
  intros Habs Hmiss Hgone.
  rewrite (open_after_lookup path systemDir false b w None w Habs (cached_miss _ _ Hmiss)).
  unfold open_with. rewrite run_bind, run_gets. cbv beta iota zeta.
  change (id w) with w. cbn [negb]. rewrite !andb_true_r.
  destruct (exists_ (fs w) (asked path)) eqn:Hex; cbn [negb]; [|done].
  destruct Hgone as [?|Hdir]; [done|].
  by rewrite bool_decide_eq_false_2.
Qed.

End Sharing.

Section WriteThrough.
Context `{ScalarSpace scalar} `{PathOps} `{CryptoService scalar}.
Implicit Types (h : Heap scalar) (p q : loc) (a : ConfigAtom scalar).
Implicit Types (ss : Session scalar) (w : World scalar).

(** [ConfigSource::sync] on a source that has its backend and its tree. *)
Lemma ConfigSource_sync_run fuel s src b root tree w :
  sourceStore w !! s = Some src → backend src = Some b → data src = Some root →
  toVariant fuel (heap w) root = Some tree →
  let fs1 := backend_save b (fileName src) tree (fs w) in
  ConfigSource_sync fuel s w
  = Ok tt (set_sourceStore
             (<[s := mkSource (fileName src) (Some b) false (isAtLoop src) (Some root)
                              (lastModifiedOf fs1 (fileName src))]> (sourceStore w))
             (set_fs fs1 w)).
Proof.
  intros Hs Hb Hd Ht fs1. unfold ConfigSource_sync.
  run_with (deref_source_Some _ _ _ Hs). rewrite Hb, Hd.
  rewrite run_bind, run_on_heap. unfold toVariantM. rewrite Ht. cbv beta iota.
  unfold set_dirty, ConfigSource_update, set_source, deref_source. run_unfold.
  cbn. rewrite Hs. cbn. rewrite lookup_insert_eq. cbn.
  rewrite insert_insert_eq, Hb, Hd. done.
Qed.

Lemma dispatch_run fuel s rest src b root tree w :
  posted w = s :: rest →
  sourceStore w !! s = Some src → backend src = Some b → data src = Some root →
  toVariant fuel (heap w) root = Some tree →
  let fs1 := backend_save b (fileName src) tree (fs w) in
  dispatch fuel w
  = Ok tt (set_sourceStore
             (<[s := mkSource (fileName src) (Some b) false false (Some root)
                              (lastModifiedOf fs1 (fileName src))]> (sourceStore w))
             (set_fs fs1 (set_posted rest w))).
Proof.
  intros Hp Hs Hb Hd Ht fs1. unfold dispatch. rewrite run_bind, run_gets.
  cbv beta iota. change (id w) with w. rewrite Hp.
  rewrite run_bind. unfold modify at 1. cbv beta iota.
  rewrite run_bind. unfold PostConfigSaver_event. rewrite run_bind.
  rewrite (ConfigSource_sync_run fuel s src b root tree (set_posted rest w)) by done.
  cbv beta iota zeta. unfold set_isAtLoop, set_source, deref_source. run_unfold.
  cbn. rewrite lookup_insert_eq. cbn. by rewrite insert_insert_eq.
Qed.

(** X22.  The delivery of a save event writes the tree of the source, as it is
    then, through the backend of the source; the source comes out clean,
    not queued and stamped with the date of the file, so that [isValid]
    holds of it; atoms and the other sources are as before. *)
Theorem dispatch_saves_tree fuel s rest src b root tree w :
  posted w = s :: rest →
  sourceStore w !! s = Some src → backend src = Some b → data src = Some root →
  toVariant fuel (heap w) root = Some tree →
  ∃ w' src',
    dispatch fuel w = Ok tt w'
    ∧ fs w' = backend_save b (fileName src) tree (fs w)
    ∧ posted w' = rest ∧ heap w' = heap w
    ∧ sourceStore w' = <[s := src']> (sourceStore w)
    ∧ fileName src' = fileName src ∧ data src' = data src
    ∧ dirty src' = false ∧ isAtLoop src' = false
    ∧ ConfigSource_isValid s w' = Ok true w'.
Proof.
  intros Hp Hs Hb Hd Ht.
  rewrite (dispatch_run fuel s rest src b root tree w) by done.
  eexists _, _. split; [done|]. cbn. split_and!; try done.
  unfold ConfigSource_isValid, deref_source. run_unfold. cbn.
  rewrite lookup_insert_eq. cbn. by rewrite bool_decide_eq_true_2.
Qed.

(** The tree of a map after [setValue] has put [var] under [k]. *)
Lemma tree_after_write fuel h h1 A aA mA mA1 k c var (t : gmap string (QVariant scalar)) :
  h !! A = Some aA → m_data aA = AsMap mA →
  toVariant fuel h A = Some (QMapV t) →
  h1 !! A = Some (mkAtom (AsMap mA1) false) →
  mA1 !! k = Some c → toVariant fuel h1 c = Some var →
  (∀ k', k' ≠ k → mA1 !! k' = mA !! k') →
  (∀ q, q ∈ dom h → q ≠ A → h1 !! q = h !! q) →
  toVariant (S fuel) h1 A = Some (QMapV (<[k := var]> t)).
Proof.
  intros HA HmA Ht HA1 Hc Hvar Hother Hframe.
  destruct fuel as [|n]; [done|].
  assert (Hcol : collect_entries (toVariant n h) mA = Some t).
  { cbn [toVariant] in Ht. rewrite HA in Ht. cbn in Ht. rewrite HmA in Ht.
    destruct (collect_entries (toVariant n h) mA); [|done]. by injection Ht as ->. }
  change (toVariant (S (S n)) h1 A)
    with (a ← h1 !! A;
          match m_data a with
          | AsMap map => QMapV <$> collect_entries (toVariant (S n) h1) map
          | AsList l => QListV <$> mapM (toVariant (S n) h1) l
          | AsValue v => Some v
          | AsNull => Some QInvalid
          end).
  rewrite HA1. cbn [mbind option_bind m_data].
  assert (collect_entries (toVariant (S n) h1) mA1 = Some (<[k := var]> t)) as ->; [|done].
  apply collect_entries_Some. intros key.
  destruct (decide (key = k)) as [->|Hne].
  - rewrite lookup_insert_eq, Hc. cbn [mbind option_bind]. rewrite Hvar. split; eauto.
  - rewrite lookup_insert_ne by done. rewrite (Hother key Hne).
    destruct (proj1 (collect_entries_Some _ _ _) Hcol key) as [Hk Hsome].
    split; [rewrite Hk|done].
    destruct (mA !! key) as [c'|] eqn:Hc'; [|done]. cbn [mbind option_bind].
    destruct (collect_entries_elem_Some _ _ _ _ _ Hcol Hc') as [v' Hv'].
    rewrite Hv'. rewrite <- (toVariant_S _ _ _ _ Hv').
    symmetry. apply toVariant_agree. intros q Hq.
    apply Hframe.
    + eapply toVariant_footprint_dom; [|exact Hq]. by apply toVariant_S.
    + intros ->. apply footprint_reaches in Hq.
      eapply (toVariant_acyclic (S n) h A aA c'); eauto.
      by eapply elem_of_children_map.
Qed.

(** X23.  A value that is written reaches the file.  The cursor stands on the
    root of its first source, a map that may be written, the source has
    no save pending, and [operator!=] tells [v] from what the map holds
    under [k], if it holds anything.  Then
    [setValue(k, v)] and [sync()] queue one save event for the source, and
    its delivery hands the backend the tree of the root with [k] bound to
    [v], for the file of the source; after it the source is clean and no
    event is left. *)
Theorem setValue_reaches_file fuel k v ss lvl ls A rest aA mA s srest src b
    (t : gmap string (QVariant scalar)) :
  let h := heap (world ss) in
  levels (d_ptr ss) = lvl :: ls → atoms lvl = A :: rest →
  h !! A = Some aA → m_data aA = AsMap mA → m_readOnly aA = false →
  slash_free k = true →
  sources (d_ptr ss) = s :: srest → sourceStore (world ss) !! s = Some src →
  backend src = Some b → data src = Some A → isAtLoop src = false →
  posted (world ss) = [] →
  toVariant fuel h A = Some (QMapV t) → vsize v ≤ fuel →
  (∀ vo, t !! k = Some vo → QVariant_equal vo v = false) →
  ∃ ss1 w2 src',
    (Config_setValue fuel k v Normal;; Config_sync) ss = Ok tt ss1
    ∧ posted (world ss1) = [s]
    ∧ dispatch (S fuel) (world ss1) = Ok tt w2
    ∧ fs w2 = backend_save b (fileName src) (QMapV (<[k := v]> t)) (fs (world ss))
    ∧ posted w2 = []
    ∧ sourceStore w2 !! s = Some src'
    ∧ dirty src' = false ∧ isAtLoop src' = false.
Proof.
  intros h Hl Hat HA HmA Hro Hk Hsrcs Hs Hb Hd Hloop Hposted Ht Hfuel Hnew.
  destruct fuel as [|n]; [done|].
  assert (Hcol : collect_entries (toVariant n h) mA = Some t).
  { cbn [toVariant] in Ht. fold h in HA. rewrite HA in Ht. cbn in Ht. rewrite HmA in Ht.
    destruct (collect_entries (toVariant n h) mA); [|done]. by injection Ht as ->. }
  assert (Hold : ∀ old, mA !! k = Some old → is_Some (toVariant (S n) h old)).
  { intros old Hold. destruct (collect_entries_elem_Some _ _ _ _ _ Hcol Hold) as [vo Hvo].
    exists vo. by apply toVariant_S. }
  destruct (setValue_writes (S n) k v Normal ss lvl ls A rest aA mA Hl Hat HA HmA Hro
              (lastIndexOf_free _ Hk) Hfuel Hold)
    as (ss1 & mA1 & c & Hrun & Hdp & HA1 & Hc & Htree & Hother & Hext
        & Hfs & Hpost & Hstore).
  { intros s0. rewrite Hsrcs. intros [= <-]. eauto. }
  cbn [stored] in *. fold h in Hext, Htree, Hstore.
  destruct (changes (S n) h mA k v).
  2:{ destruct Htree as (-> & vo & Hvo & _ & Heq). exfalso.
      destruct (proj1 (collect_entries_Some _ _ _) Hcol k) as [Hk' _].
      rewrite Hc in Hk'. cbn [mbind option_bind] in Hk'.
      destruct (collect_entries_elem_Some _ _ _ _ _ Hcol Hc) as [vo' Hvo'].
      rewrite Hvo' in Hk'. apply toVariant_S in Hvo'.
      assert (vo' = vo) as -> by congruence.
      rewrite (Hnew vo Hk') in Heq. discriminate. }
  rewrite Hsrcs, Hs in Hstore.
  assert (Hs1 : sourceStore (world ss1) !! s = Some (make_dirty src)).
  { by rewrite Hstore, lookup_insert_eq. }
  assert (Htree1 : toVariant (S (S n)) (heap (world ss1)) A
                   = Some (QMapV (<[k := v]> t))).
  { eapply (tree_after_write (S n) h); eauto.
    intros q Hq Hne. rewrite <- (Hext q Hq). by rewrite lookup_insert_ne. }
  set (w1 := post_save s (make_dirty src) (world ss1)).
  assert (Hp1 : posted w1 = [s]).
  { unfold w1, post_save. cbn. by rewrite Hpost, Hposted. }
  assert (Hq1 : sourceStore w1 !! s = Some (queued (make_dirty src))).
  { unfold w1, post_save. cbn. by rewrite lookup_insert_eq. }
  pose proof (dispatch_run (S (S n)) s [] (queued (make_dirty src)) b A
                (QMapV (<[k := v]> t)) w1 Hp1 Hq1 Hb Hd Htree1) as Hdisp.
  cbv zeta in Hdisp.
  eexists (mkSession (d_ptr ss1) w1), _, _. split_and!.
  - rewrite run_bind, Hrun. cbv beta iota. unfold Config_sync.
    rewrite run_bind, run_gets. cbv beta iota.
    rewrite run_on_world.
    rewrite (sync_first_source (d_ptr ss1) (world ss1) s srest (make_dirty src))
      by (by rewrite ?Hdp).
    cbn [dirty isAtLoop make_dirty]. rewrite Hloop. done.
  - exact Hp1.
  - exact Hdisp.
  - cbn. by rewrite Hfs.
  - done.
  - cbn. by rewrite lookup_insert_eq.
  - done.
  - done.
Qed.

End WriteThrough.

Section Flushing.
Context `{ScalarSpace scalar} `{PathOps} `{CryptoService scalar}.
Implicit Types (h : Heap scalar) (p q : loc) (a : ConfigAtom scalar).
Implicit Types (ss : Session scalar) (w : World scalar).

Lemma event_run fuel s src b root tree w :
  sourceStore w !! s = Some src → backend src = Some b → data src = Some root →
  toVariant fuel (heap w) root = Some tree →
  let fs1 := backend_save b (fileName src) tree (fs w) in
  PostConfigSaver_event fuel s w
  = Ok true (set_sourceStore
               (<[s := mkSource (fileName src) (Some b) false false (Some root)
                                (lastModifiedOf fs1 (fileName src))]> (sourceStore w))
               (set_fs fs1 w)).
Proof.
  intros Hs Hb Hd Ht fs1. unfold PostConfigSaver_event. rewrite run_bind.
  rewrite (ConfigSource_sync_run fuel s src b root tree w) by done.
  cbv beta iota zeta. unfold set_isAtLoop, set_source, deref_source. run_unfold.
  cbn. rewrite lookup_insert_eq. cbn. by rewrite insert_insert_eq.
Qed.

Lemma deliver_all_spec fuel events :
  ∀ w, (∀ s, s ∈ events → saveable fuel w s) →
  ∃ w', deliver_all fuel events w = Ok tt w'
    ∧ posted w' = posted w ∧ heap w' = heap w
    ∧ (∀ s, s ∈ events →
         ∃ src', sourceStore w' !! s = Some src'
                 ∧ dirty src' = false ∧ isAtLoop src' = false)
    ∧ (∀ s, s ∉ events → sourceStore w' !! s = sourceStore w !! s)
    ∧ (∀ s, saveable fuel w s → saveable fuel w' s)
    ∧ (∀ s src, sourceStore w !! s = Some src → dirty src = false → isAtLoop src = false →
         ∃ src', sourceStore w' !! s = Some src'
                 ∧ dirty src' = false ∧ isAtLoop src' = false).
Proof.
  induction events as [|ev rest IH]; intros w Hall.
  - exists w. split; [done|]. split_and!; try done.
    + intros s Hs. by apply elem_of_nil in Hs.
    + intros s src Hs Hd Hl. eauto.
  - destruct (Hall ev) as (src & b & root & Hs & Hb & Hd & [tree Ht]); [by left|].
    cbn [deliver_all]. rewrite run_bind, (event_run fuel ev src b root tree w) by done.
    cbv beta iota zeta. set (w1 := set_sourceStore _ _).
    assert (Hkeep : ∀ s, saveable fuel w s → saveable fuel w1 s).
    { intros s (src0 & b0 & root0 & Hs0 & Hb0 & Hd0 & Ht0).
      destruct (decide (s = ev)) as [->|Hne].
      - eexists _, b, root. unfold w1. cbn. rewrite lookup_insert_eq.
        split; [done|]. split; [done|]. split; [done|]. eauto.
      - exists src0, b0, root0. unfold w1. cbn. by rewrite lookup_insert_ne. }
    destruct (IH w1) as (w' & Hrun & Hp & Hh & Hdone & Hframe & Hsave & Hclean).
    { intros s Hs'. apply Hkeep, Hall. by right. }
    exists w'. split; [done|]. split_and!; try done.
    + intros s [->|Hin]%elem_of_cons; [|by apply Hdone].
      destruct (decide (ev ∈ rest)) as [Hin|Hnin]; [by apply Hdone|].
      eapply Hclean; [unfold w1; cbn; apply lookup_insert_eq|done..].
    + intros s Hs'. apply not_elem_of_cons in Hs' as [Hne Hnin].
      rewrite Hframe by done. unfold w1. cbn. by rewrite lookup_insert_ne.
    + intros s Hs'. by apply Hsave, Hkeep.
    + intros s src0 Hs0 Hd0 Hl0. destruct (decide (s = ev)) as [->|Hne].
      * eapply Hclean; [unfold w1; cbn; apply lookup_insert_eq|done..].
      * eapply Hclean; [unfold w1; cbn; by rewrite lookup_insert_ne|done..].
Qed.

(** X24.  [PostConfigSaver::cleanup], run when the application ends: every save
    event still queued is delivered.  Afterwards the queue is empty and
    every source that had an event in it is clean and not queued; the
    atoms and the sources that had no event are as they were. *)
Theorem cleanup_flushes fuel w :
  (∀ s, s ∈ posted w → saveable fuel w s) →
  ∃ w', PostConfigSaver_cleanup fuel w = Ok tt w'
    ∧ posted w' = [] ∧ heap w' = heap w
    ∧ (∀ s, s ∈ posted w →
         ∃ src', sourceStore w' !! s = Some src'
                 ∧ dirty src' = false ∧ isAtLoop src' = false)
    ∧ (∀ s, s ∉ posted w → sourceStore w' !! s = sourceStore w !! s).
Proof.
  intros Hall. unfold PostConfigSaver_cleanup. rewrite run_bind, run_gets.
  cbv beta iota. rewrite run_bind. unfold modify at 1. cbv beta iota.
  destruct (deliver_all_spec fuel (posted w) (set_posted [] w))
    as (w' & Hrun & Hp & Hh & Hdone & Hframe & _); [exact Hall|].
  exists w'. by split_and!.
Qed.

End Flushing.

Section Growing.
Context `{ScalarSpace scalar}.
Implicit Types (h : Heap scalar) (p q : loc) (a : ConfigAtom scalar).



End Growing.

Section Arrays.
Context `{ScalarSpace scalar} `{PathOps} `{CryptoService scalar}.
Implicit Types (h : Heap scalar) (p q : loc) (a : ConfigAtom scalar).
Implicit Types (ss : Session scalar) (w : World scalar).

(** X26.  [beginArray] on a name the map does not have, the map being the one
    atom of the frame and free to be written: an empty list is made
    under the name, the size returned is 0, no source is marked, and
    [endArray] leads back to the frame the cursor came from. *)
Theorem beginArray_makes_empty_list k ss lvl ls A aA mA :
  let h := heap (world ss) in
  levels (d_ptr ss) = lvl :: ls → atoms lvl = [A] →
  h !! A = Some aA → m_data aA = AsMap mA → m_readOnly aA = false →
  mA !! k = None → slash_free k = true → k ≠ EmptyString →
  let c := fresh (dom h) in
  ∃ ss1,
    Config_beginArray k ss = Ok 0%Z ss1
    ∧ levels (d_ptr ss1) = mkLevel [c] false :: lvl :: ls
    ∧ heap (world ss1) !! c = Some (mkAtom (AsList []) false)
    ∧ heap (world ss1) !! A = Some (mkAtom (AsMap (<[k := c]> mA)) false)
    ∧ (∀ q, q ∈ dom h → q ≠ A → heap (world ss1) !! q = h !! q)
    ∧ sourceStore (world ss1) = sourceStore (world ss)
    ∧ posted (world ss1) = posted (world ss)
    ∧ Config_endArray ss1 = Ok tt (mkSession (d_ptr ss) (world ss1)).
Proof.
  intros h Hl Hat HA HmA Hro Hk Hfree Hne c.
  pose proof (fresh_not_in_dom h) as Hc. fold c in Hc.
  assert (HAc : A ≠ c).
  { intros ->. apply Hc. by eapply elem_of_dom_2. }
  set (h1 := with_null_child h A mA k).
  assert (Hc1 : h1 !! c = Some (mkAtom AsNull false)).
  { unfold h1, with_null_child. fold c. rewrite lookup_insert_ne by done.
    apply lookup_insert_eq. }
  set (h2 := <[c := mkAtom (AsList []) false]> h1).
  assert (Hchild : ConfigLevel_children lvl [k] h = Ok (mkLevel [c] false) h1).
  { cbn [ConfigLevel_children foldl]. unfold ConfigLevel_child, ConfigLevel_map.
    rewrite Hat. cbn [map_atoms].
    rewrite !run_bind, (deref_Some _ _ _ HA). cbv beta iota zeta.
    rewrite Hro. cbn [orb negb andb].
    rewrite !run_bind, (deref_Some _ _ _ HA). cbv beta iota.
    rewrite (child_missing_writable _ _ _ _ _ HA HmA Hk Hro). cbv beta iota.
    done. }
  assert (Hconv : ConfigLevel_convert (mkLevel [c] false) List h1
                  = Ok (mkLevel [c] false) h2).
  { unfold ConfigLevel_convert, ConfigLevel_map. cbn [atoms map_atoms].
    rewrite !run_bind, (deref_Some _ _ _ Hc1). cbv beta iota zeta.
    cbn [m_readOnly orb negb andb].
    rewrite !run_bind, (deref_Some _ _ _ Hc1). cbv beta iota.
    unfold type. cbn [m_data]. rewrite bool_decide_eq_false_2 by done.
    rewrite run_bind. unfold ConfigAtom_convert.
    rewrite run_bind, (deref_Some _ _ _ Hc1). cbv beta iota.
    unfold type. cbn [m_data]. rewrite bool_decide_eq_false_2 by done.
    unfold ensureList. rewrite !run_bind, (deref_Some _ _ _ Hc1). cbv beta iota.
    cbn [m_data]. rewrite run_bind, (store_Some _ _ _ _ Hc1). cbv beta iota.
    done. }
  assert (Hc2 : h2 !! c = Some (mkAtom (AsList []) false)) by apply lookup_insert_eq.
  set (ss1 := with_levels (mkLevel [c] false :: lvl :: ls)
                (mkSession (d_ptr ss) (set_heap h2 (world ss)))).
  assert (Hl1 : levels (d_ptr ss1) = mkLevel [c] false :: lvl :: ls) by done.
  exists ss1. split_and!; try done.
  - unfold Config_beginArray. unfold isEmpty.
    rewrite (bool_decide_eq_false_2 (k = "")) by done. cbn [negb].
    rewrite run_bind, run_assert_true. cbv beta iota.
    rewrite (parseNames_single k Hfree Hne).
    run_with (current_Some _ _ _ Hl).
    rewrite run_bind, run_on_atoms. fold h. rewrite Hchild. cbv beta iota.
    rewrite run_bind, run_on_atoms. cbn [world heap set_heap]. rewrite Hconv.
    cbv beta iota. rewrite run_bind, run_prepend. cbv beta iota.
    cbn [d_ptr]. rewrite Hl.
    match goal with |- Config_arraySize ?x = _ => change x with ss1 end.
    unfold Config_arraySize. rewrite run_bind, run_gets. cbv beta iota.
    run_with (current_Some _ _ _ Hl1). cbn [arrayElement].
    rewrite run_bind, run_ret. cbv beta iota.
    rewrite run_on_atoms. cbn [atoms arraySize_loop].
    change (heap (world ss1)) with h2.
    unfold ConfigAtom_arraySize.
    rewrite !run_bind, (deref_Some _ _ _ Hc2). cbv beta iota.
    rewrite (isList_AsList _ []) by done.
    rewrite run_bind, run_assert_true. cbv beta iota.
    rewrite run_bind, (asList_List _ _ _ _ Hc2 eq_refl). cbv beta iota.
    rewrite run_ret. cbv beta iota. cbn [length].
    rewrite bool_decide_eq_false_2 by lia. rewrite run_ret.
    f_equal.
  - change (heap (world ss1)) with h2. unfold h2.
    rewrite lookup_insert_ne by done. unfold h1, with_null_child. fold c.
    rewrite lookup_insert_eq. done.
  - intros q Hq Hqa. change (heap (world ss1)) with h2. unfold h2.
    rewrite lookup_insert_ne by (intros <-; done).
    unfold h1, with_null_child. fold c. rewrite lookup_insert_ne by done.
    rewrite lookup_insert_ne by (intros <-; done). done.
  - rewrite (endArray_list_frame ss1 (mkLevel [c] false) (lvl :: ls)) by done.
    f_equal. unfold with_levels, ss1, with_levels. cbn.
    f_equal. destruct ss as [[lv so mg] w]. simpl in *. by subst.
Qed.

End Arrays.

Section Checking.
Context `{ScalarSpace scalar}.
Implicit Types (h : Heap scalar) (p q : loc) (a : ConfigAtom scalar).

(** Closedness of a given store can be checked atom by atom. *)
Lemma closed_check h :
  map_Forall (λ _ a, Forall (λ c, c ∈ dom h) (children a)) h → closed h.
Proof.
  intros Hall p a Hp c Hc. specialize (Hall p a Hp). cbn in Hall.
  by eapply Forall_forall in Hall.
Qed.

Lemma frame_allocated_closed h l :
  closed h → Forall (λ p, p ∈ dom h) l → frame_allocated h l.
Proof.
  intros Hc Hall p Hp. eapply Forall_forall in Hall; [|exact Hp].
  apply elem_of_dom in Hall as [a Ha]. exists a. split; [done|].
  intros m Hm k c Hk. apply elem_of_dom. eapply Hc; [exact Ha|].
  by eapply elem_of_children_map.
Qed.

End Checking.

Lemma layered_heap_closed : closed layered_heap.
Proof. apply closed_check. refine (bool_decide_unpack _ _). vm_compute. exact I. Qed.

Lemma single_heap_closed :
  closed (list_to_map [(0, map_atom [] false)] : Heap QtScalar).
Proof. apply closed_check. refine (bool_decide_unpack _ _). vm_compute. exact I. Qed.

Lemma in_dom_check (h : Heap QtScalar) (l : list loc) :
  Forall (λ p, p ∈ dom h) l → ∀ p, p ∈ l → p ∈ dom h.
Proof. intros Hall p Hp. by eapply Forall_forall in Hall. Qed.

Lemma parseNames_join_witness :
  parseNames (join_names ["contacts"; "alice"; "name"]%string)
  = ["contacts"; "alice"; "name"]%string.
Proof.
  apply (parseNames_join ["contacts"; "alice"; "name"]%string).
  repeat constructor; discriminate.
Defined.

Lemma leading_slash_key_asserts_witness :
  Config_value 3 "/k" QInvalid Normal layered_session = Fault AssertFailed
  ∧ Config_setValue 3 "/k" (QScalar (QtInt 1)) Normal layered_session
    = Fault AssertFailed.
Proof.
  apply (leading_slash_key_asserts 3 "k" QInvalid (QScalar (QtInt 1)) Normal
           layered_session (mkLevel [0; 1] false) []).
  - reflexivity.
  - discriminate.
  - reflexivity.
Defined.

Lemma value_of_path_key_witness :
  Config_value 3 "user/name" QInvalid Normal layered_session
  = (Config_beginGroup "user";;
     var ← Config_value 3 "name" QInvalid Normal;
     Config_endGroup;;
     mret var) layered_session.
Proof.
  apply (value_of_path_key 3 "user" "name" QInvalid Normal layered_session
           (mkLevel [0; 1] false) []).
  - reflexivity.
  - discriminate.
  - reflexivity.
Defined.

Lemma value_after_setValue_witness :
  (∃ ss1, Config_setValue 3 "k" (QScalar (QtInt 7)) Normal layered_session = Ok tt ss1
     ∧ ∃ ss2, Config_value 3 "k" (QScalar (QtInt 0)) Normal ss1
              = Ok (QScalar (QtInt 7)) ss2)
  ∧ (∃ ss1, Config_setValue 3 "k" (QScalar (QtString "")) Normal null_string_session
            = Ok tt ss1
       ∧ heap (world ss1) !! 0 = Some (map_atom [("k"%string, 2)] false)
       ∧ sourceStore (world ss1) = sourceStore (world null_string_session)
       ∧ toVariant 3 (heap (world ss1)) 2 = Some (QScalar QtNullString))
  ∧ returned ((Config_setValue 3 "k" (QScalar (QtString "")) Normal;;
               Config_value 3 "k" QInvalid Normal) null_string_session)
    = Some (QScalar (QtString "sys")).
Proof.
  split; [|split; [|vm_compute; reflexivity]].
  - destruct (value_after_setValue 3 "k" (QScalar (QtInt 7)) (QScalar (QtInt 0)) Normal
                layered_session (mkLevel [0; 1] false) [] 0 [1]
                (map_atom [("k"%string, 2)] false) (list_to_map [("k"%string, 2)]))
      as (ss1 & Hrun & Hread); try reflexivity.
    + vm_compute. lia.
    + intros old Hold. vm_compute in Hold. injection Hold as <-.
      eexists. vm_compute. reflexivity.
    + intros s Hs. injection Hs as <-. eexists. vm_compute. reflexivity.
    + exists ss1. split; [exact Hrun|]. exact Hread.
  - destruct (value_after_setValue 3 "k" (QScalar (QtString "")) QInvalid Normal
                null_string_session (mkLevel [0; 1] false) [] 0 [1]
                (map_atom [("k"%string, 2)] false) (list_to_map [("k"%string, 2)]))
      as (ss1 & Hrun & Hkept); try reflexivity.
    + vm_compute. lia.
    + intros old Hold. vm_compute in Hold. injection Hold as <-.
      eexists. vm_compute. reflexivity.
    + intros s Hs. injection Hs as <-. eexists. vm_compute. reflexivity.
    + destruct Hkept as (HA & Hst & _ & old & vo & Hold & Hvo & Hvo1 & _).
      vm_compute in Hold. injection Hold as <-.
      vm_compute in Hvo. injection Hvo as <-.
      exists ss1. split; [exact Hrun|]. split; [exact HA|]. split; [exact Hst|].
      exact Hvo1.
Defined.

Lemma fromMap_read_back_witness :
  ∃ d w', Config_fromMap {[ "k"%string := QScalar (QtInt 1) ]} no_file_world = Ok d w'
    ∧ sources d = [] ∧ memoryGuard d = None
    ∧ (∃ ss, Config_rootValue 3 QInvalid Normal (mkSession d w')
             = Ok (QMapV {[ "k"%string := QScalar (QtInt 1) ]}) ss)
    ∧ (∃ ss, Config_value 3 "k" QInvalid Normal (mkSession d w')
             = Ok (QScalar (QtInt 1)) ss).
Proof.
  destruct (fromMap_read_back {[ "k"%string := QScalar (QtInt 1) ]} no_file_world 3 "k"
              QInvalid) as (d & w' & Hrun & Hs & Hg & Hroot & Hval).
  - vm_compute. lia.
  - reflexivity.
  - rewrite lookup_singleton_eq in Hval. exists d, w'.
    split; [exact Hrun|]. split; [exact Hs|]. split; [exact Hg|].
    split; [exact Hroot|exact Hval].
Defined.

Lemma value_after_remove_witness :
  ∃ ss1, Config_remove "k" user_only_session = Ok tt ss1
    ∧ ∃ ss2, Config_value 3 "k" (QScalar (QtInt 0)) Normal ss1
             = Ok (QScalar (QtInt 0)) ss2.
Proof.
  apply (value_after_remove 3 "k" (QScalar (QtInt 0)) Normal user_only_session
           (mkLevel [0] false) [] 0 (map_atom [("k"%string, 2)] false)
           (list_to_map [("k"%string, 2)])).
  - reflexivity.
  - reflexivity.
  - reflexivity.
  - reflexivity.
  - reflexivity.
  - intros _. exists 0, [1]. split; [reflexivity|]. eexists. vm_compute. reflexivity.
Defined.

Lemma child_lists_witness :
  ∃ groups keys,
    Config_childGroups layered_session = Ok groups layered_session
    ∧ Config_childKeys layered_session = Ok keys layered_session
    ∧ NoDup groups ∧ NoDup keys
    ∧ (∀ name, name ∈ groups ↔ listed layered_heap [0; 1] true name)
    ∧ (∀ name, name ∈ keys ↔ listed layered_heap [0; 1] false name).
Proof.
  apply (child_lists layered_session (mkLevel [0; 1] false) []).
  - reflexivity.
  - apply frame_allocated_closed; [exact layered_heap_closed|].
    refine (bool_decide_unpack _ _). vm_compute. exact I.
Defined.

Lemma has_child_agrees_witness :
  ∃ groups keys (g k : bool),
    Config_childGroups layered_session = Ok groups layered_session
    ∧ Config_childKeys layered_session = Ok keys layered_session
    ∧ Config_hasChildGroup "only" layered_session = Ok g layered_session
    ∧ Config_hasChildKey "only" layered_session = Ok k layered_session
    ∧ (g = true ↔ "only"%string ∈ groups) ∧ (k = true ↔ "only"%string ∈ keys).
Proof.
  apply (has_child_agrees "only" layered_session (mkLevel [0; 1] false) []).
  - reflexivity.
  - apply frame_allocated_closed; [exact layered_heap_closed|].
    refine (bool_decide_unpack _ _). vm_compute. exact I.
Defined.

Lemma beginGroup_endGroup_witness :
  ∃ ss1, Config_beginGroup "general/ui" single_session = Ok tt ss1
    ∧ length (levels (d_ptr ss1)) = 2
    ∧ sourceStore (world ss1) = sourceStore (world single_session)
    ∧ Config_endGroup ss1 = Ok tt (mkSession (d_ptr single_session) (world ss1))
    ∧ Config_endGroup single_session = Fault AssertFailed.
Proof.
  destruct (beginGroup_endGroup "general/ui" single_session (mkLevel [0] false) [])
    as (group & h' & ss1 & Hrun & Hl & Hw & _ & _ & _ & Hend & Hroot).
  - reflexivity.
  - exact single_heap_closed.
  - apply in_dom_check. refine (bool_decide_unpack _ _). vm_compute. exact I.
  - vm_compute. discriminate.
  - exists ss1. split; [exact Hrun|]. split; [by rewrite Hl|].
    split; [by rewrite Hw|]. split; [exact Hend|]. by apply Hroot.
Defined.

Lemma group_cursor_witness :
  ∃ group h',
    Config_group 7 "general" single_session
    = Ok (mkPrivate [group] [0] (Some 7))
         (mkSession (d_ptr single_session) (set_heap h' (world single_session)))
    ∧ (∀ p, p ∈ atoms group → tagged Map p h')
    ∧ (∀ w : World QtScalar,
         ConfigPrivate_destroy (mkPrivate [group] [0] (Some 7)) w = Ok tt w).
Proof.
  destruct (group_cursor 7 "general" single_session (mkLevel [0] false) [])
    as (group & h' & Hrun & _ & Htag & _ & Hdrop & _).
  - reflexivity.
  - exact single_heap_closed.
  - apply in_dom_check. refine (bool_decide_unpack _ _). vm_compute. exact I.
  - vm_compute. discriminate.
  - exists group, h'. split; [exact Hrun|]. split; [exact Htag|exact Hdrop].
Defined.

Lemma arrayElement_on_element_asserts_witness :
  Config_arrayElement 7 1 array_session = Fault AssertFailed.
Proof.
  apply (arrayElement_on_element_asserts 7 1 array_session (mkLevel [2] true)
           [mkLevel [1] false; mkLevel [0] false]); reflexivity.
Defined.

Lemma setArrayIndex_negative_asserts_witness :
  Config_setArrayIndex (-1) list_frame_session = Fault AssertFailed.
Proof.
  apply (setArrayIndex_negative_asserts (-1) list_frame_session (mkLevel [1] false)
           [mkLevel [0] false] 1 [] (mkAtom (AsList [2]) false) [2]);
    (reflexivity || lia).
Defined.

Lemma path_read_wipes_scalar_witness :
  ∃ ss2 m',
    Config_value 3 "k/x" (QScalar (QtInt 0)) Normal user_only_session
    = Ok (QScalar (QtInt 0)) ss2
    ∧ heap (world ss2) !! 2 = Some (mkAtom (AsMap m') false)
    ∧ sourceStore (world ss2) = sourceStore (world user_only_session).
Proof.
  destruct (path_read_wipes_scalar 3 "k" "x" (QScalar (QtInt 0)) Normal
              user_only_session (mkLevel [0] false) [] 0
              (map_atom [("k"%string, 2)] false) (list_to_map [("k"%string, 2)]) 2
              (QScalar (QtString "user")))
    as (ss2 & m' & Hrun & _ & Hc & _ & Hst & _);
    try reflexivity; try discriminate.
  exists ss2, m'. split; [exact Hrun|]. split; [exact Hc|exact Hst].
Defined.

Lemma cached_world_consistent : cache_consistent cached_world.
Proof.
  intros key it Hit. cbn in Hit. apply lookup_singleton_Some in Hit as [<- <-].
  split; [discriminate|]. split; [reflexivity|]. eexists. reflexivity.
Qed.

Lemma cache_stays_consistent_witness :
  ∃ r w', ConfigSourceHash_value "/cfg/a.json" cached_world = Ok r w'
          ∧ cache_consistent w'.
Proof.
  destruct (cache_stays_consistent cached_world cached_world_consistent)
    as (Hvalue & _ & _).
  destruct (Hvalue "/cfg/a.json"%string) as (r & w' & Hrun & Hc & _).
  exists r, w'. split; [exact Hrun|exact Hc].
Defined.

Lemma open_create_gives_source_witness :
  ∃ w', ConfigSource_open "/cfg/a.json" false true (Some json) no_file_world
        = Ok (Some 0) w'
    ∧ loaded "/cfg/a.json" json 0 false None w'
    ∧ files (fs w') = ∅
    ∧ "/cfg"%string ∈ dirs (fs w').
Proof.
  destruct (open_create_gives_source "/cfg/a.json" false json no_file_world)
    as (w' & Hrun & Hloaded & Hfiles & Hdir & _).
  - reflexivity.
  - reflexivity.
  - exists w'. split; [exact Hrun|]. split; [exact Hloaded|].
    split; [exact Hfiles|exact Hdir].
Defined.

Lemma open_missing_file_absent_witness :
  ConfigSource_open "/cfg/a.json" false false (Some json) no_file_world
  = Ok None no_file_world.
Proof.
  apply (open_missing_file_absent "/cfg/a.json" false json no_file_world).
  - reflexivity.
  - reflexivity.
  - left. reflexivity.
Defined.

Lemma open_twice_shares_witness :
  match ConfigSource_open "/cfg/a.json" false true (Some json) no_file_world with
  | Ok (Some d) w' =>
      ∃ w'', ConfigSource_open "/cfg/a.json" false false (Some json) w'
             = Ok (Some d) w''
  | _ => False
  end.
Proof.
  destruct (ConfigSource_open "/cfg/a.json" false true (Some json) no_file_world)
    as [[d|] w'|f] eqn:Hopen.
  - destruct (open_twice_shares "/cfg/a.json" false true false json no_file_world d w')
      as (w'' & Hagain & _); [reflexivity|reflexivity|exact Hopen|].
    exists w''. exact Hagain.
  - vm_compute in Hopen. discriminate.
  - vm_compute in Hopen. discriminate.
Defined.

Lemma dispatch_saves_tree_witness :
  ∃ w' src',
    dispatch 3 queued_world = Ok tt w'
    ∧ fs w' = backend_save json "/home/user/.config/qutim/t.json"
                (QMapV {[ "k"%string := QScalar (QtString "user") ]})
                (fs queued_world)
    ∧ posted w' = []
    ∧ sourceStore w' !! 0 = Some src'
    ∧ dirty src' = false ∧ isAtLoop src' = false
    ∧ ConfigSource_isValid 0 w' = Ok true w'.
Proof.
  destruct (dispatch_saves_tree 3 0 []
              (mkSource "/home/user/.config/qutim/t.json" (Some json) false true
                        (Some 0) (Some 1%Z))
              json 0 (QMapV {[ "k"%string := QScalar (QtString "user") ]}) queued_world)
    as (w' & src' & Hrun & Hfs & Hp & _ & Hst & _ & _ & Hd & Hl & Hvalid).
  - reflexivity.
  - vm_compute. reflexivity.
  - reflexivity.
  - reflexivity.
  - vm_compute. reflexivity.
  - exists w', src'. split; [exact Hrun|]. split; [exact Hfs|]. split; [exact Hp|].
    split; [by rewrite Hst, lookup_insert_eq|]. split; [exact Hd|].
    split; [exact Hl|exact Hvalid].
Defined.

Lemma setValue_reaches_file_witness :
  ∃ ss1 w2,
    (Config_setValue 3 "k" (QScalar (QtInt 7)) Normal;; Config_sync) user_only_session
    = Ok tt ss1
    ∧ posted (world ss1) = [0]
    ∧ dispatch 4 (world ss1) = Ok tt w2
    ∧ fs w2 = backend_save json "/home/user/.config/qutim/t.json"
                (QMapV (<["k"%string := QScalar (QtInt 7)]>
                          {[ "k"%string := QScalar (QtString "user") ]}))
                (fs (world user_only_session))
    ∧ posted w2 = [].
Proof.
  destruct (setValue_reaches_file 3 "k" (QScalar (QtInt 7)) user_only_session
              (mkLevel [0] false) [] 0 [] (map_atom [("k"%string, 2)] false)
              (list_to_map [("k"%string, 2)]) 0 [1]
              (clean_source "/home/user/.config/qutim/t.json" 0) json
              {[ "k"%string := QScalar (QtString "user") ]})
    as (ss1 & w2 & src' & Hrun & Hp & Hdisp & Hfs & Hp2 & _);
    try reflexivity.
  - vm_compute. lia.
  - intros vo Hvo. vm_compute in Hvo. injection Hvo as <-. vm_compute. reflexivity.
  - exists ss1, w2. split; [exact Hrun|]. split; [exact Hp|]. split; [exact Hdisp|].
    split; [exact Hfs|exact Hp2].
Defined.

Lemma cleanup_flushes_witness :
  ∃ w', PostConfigSaver_cleanup 3 queued_world = Ok tt w'
    ∧ posted w' = []
    ∧ ∃ src', sourceStore w' !! 0 = Some src'
              ∧ dirty src' = false ∧ isAtLoop src' = false.
Proof.
  destruct (cleanup_flushes 3 queued_world) as (w' & Hrun & Hp & _ & Hdone & _).
  - intros s Hs. apply list_elem_of_singleton in Hs as ->.
    eexists _, json, 0. split; [vm_compute; reflexivity|].
    split; [reflexivity|]. split; [reflexivity|]. eexists. vm_compute. reflexivity.
  - exists w'. split; [exact Hrun|]. split; [exact Hp|].
    apply Hdone. apply list_elem_of_singleton. reflexivity.
Defined.


Lemma beginArray_makes_empty_list_witness :
  ∃ ss1,
    Config_beginArray "xs" single_session = Ok 0%Z ss1
    ∧ levels (d_ptr ss1) = [mkLevel [1] false; mkLevel [0] false]
    ∧ heap (world ss1) !! 1 = Some (mkAtom (AsList []) false)
    ∧ sourceStore (world ss1) = sourceStore (world single_session)
    ∧ Config_endArray ss1 = Ok tt (mkSession (d_ptr single_session) (world ss1)).
Proof.
  destruct (beginArray_makes_empty_list "xs" single_session (mkLevel [0] false) [] 0
              (map_atom [] false) ∅)
    as (ss1 & Hrun & Hl & Hc & _ & _ & Hst & _ & Hend);
    try reflexivity; try discriminate.
  exists ss1. split; [exact Hrun|]. split; [exact Hl|]. split; [exact Hc|].
  split; [exact Hst|exact Hend].
Defined.

Section Constructing.
Context `{ScalarSpace scalar} `{PathOps}.
Implicit Types (h : Heap scalar) (p q : loc) (a : ConfigAtom scalar).
Implicit Types (w : World scalar).

Lemma fallback_atoms_spec (fallbacks : list (QVariant scalar)) :
  ∀ h, ∃ fallen h',
    fallback_atoms fallbacks h = Ok fallen h' ∧ extends h h'
    ∧ Forall2 (λ p v, fallback_of h' p v ∧ p ∉ dom h) fallen
              (filter (λ v, value_or_null v = false) fallbacks).
Proof.
  induction fallbacks as [|v rest IH]; intros h.
  - exists [], h. split; [done|]. split; [apply extends_refl|constructor].
  - cbn [fallback_atoms].
    destruct (fromVariant_Ok true v h)
      as (p & h1 & Hrun & [Hfresh Hext (a & Ha & Hro & Hty) Htree _]).
    rewrite run_bind, Hrun. cbv beta iota.
    rewrite run_bind, (deref_Some _ _ _ Ha). cbv beta iota.
    destruct (IH h1) as (fallen & h' & Hrest & Hext' & Hall).
    rewrite run_bind, Hrest. cbv beta iota. rewrite run_ret.
    assert (Hkind : isNullAtom a || isValue a = value_or_null v).
    { unfold isValue, isNullAtom. rewrite Hty. by destruct v. }
    rewrite Hkind.
    assert (Hall' : Forall2 (λ p v, fallback_of h' p v ∧ p ∉ dom h) fallen
                      (filter (λ v, value_or_null v = false) rest)).
    { eapply Forall2_impl; [exact Hall|]. intros q u [Hq Hnew]. split; [done|].
      intros Hin. apply Hnew. by apply (extends_dom _ _ Hext). }
    eexists _, h'. split; [done|]. split; [by eapply extends_trans|].
    rewrite filter_cons. destruct (value_or_null v) eqn:Hv.
    + rewrite decide_False by done. exact Hall'.
    + rewrite decide_True by done. constructor; [|exact Hall'].
      split; [|subst p; apply fresh_not_in_dom].
      split.
      * eapply toVariant_extends; [exact Hext'|]. by apply Htree.
      * exists a. split; [|done]. rewrite (Hext' p); [done|]. by eapply elem_of_dom_2.
Qed.

(** X27.  The fallbacks of a cursor: each one that is a map or a list becomes a
    tree of atoms of its own, read-only at the root, that materialises to
    the fallback; scalars and null values are left out; the order is
    kept and the store as it was is not touched. *)
Theorem fallbacks_become_read_only_layers (fallbacks : list (QVariant scalar)) h :
  ∃ fallen h',
    fallback_atoms fallbacks h = Ok fallen h' ∧ extends h h'
    ∧ Forall2 (λ p v, fallback_of h' p v ∧ p ∉ dom h) fallen
              (filter (λ v, value_or_null v = false) fallbacks).
Proof. apply fallback_atoms_spec. Qed.

Lemma layer_of_loaded name b d ro stamp w :
  loaded name b d ro stamp w → ∃ root, layer_of w name d root.
Proof.
  intros (root & a & t & Hsrc & _). exists root. eexists. by split.
Qed.

Lemma open_absolute_systemDir path create bcknd w :
  isAbsolute (asked path) = true →
  ConfigSource_open path true create bcknd w = Ok None w.
Proof.
  intros Habs. unfold ConfigSource_open. fold (asked path). by rewrite Habs.
Qed.

(** The two passes of the constructor over one path, the cache holding
    neither name. *)
Lemma open_one_path path b w :
  let user := canonical path false in
  let sys := canonical path true in
  m_hash (sourceHash w) !! user = None →
  (isAbsolute (asked path) = false →
     m_hash (sourceHash w) !! sys = None ∧ sys ≠ user) →
  ∃ opened opened' w1 w2 d root (rest : list (sref * loc)),
    open_paths [path] false (Some b) ∅ [] w = Ok (opened, [d]) w1
    ∧ open_paths [path] true (Some b) opened [d] w1 = Ok (opened', d :: rest.*1) w2
    ∧ extends (heap w) (heap w2)
    ∧ layer_of w2 user d root
    ∧ Forall (λ '(d2, root2), layer_of w2 sys d2 root2 ∧ d2 ≠ d) rest
    ∧ (length rest ≤ 1)%nat
    ∧ (isAbsolute (asked path) = true → rest = []).
Proof.
  intros user sys Hmiss Hsys.
  assert (Habs0 : isAbsolute (asked path) && false = false) by apply andb_false_r.
  destruct (open_miss_spec path false true b w Habs0 Hmiss)
    as (r & w1 & Hrun1 & Hext1 & Hframe1 & Hhash1 & Hres1).
  cbn [orb andb negb] in Hres1. rewrite andb_false_r in Hres1. cbn [negb] in Hres1.
  destruct Hres1 as (-> & Hfs1 & Hloaded1).
  set (d := fresh (dom (sourceStore w))) in *.
  pose proof Hloaded1 as (root & a1 & t1 & Hsrc1 & _).
  assert (Hpass1 : open_paths [path] false (Some b) ∅ [] w = Ok ({[user]} ∪ ∅, [d]) w1).
  { cbn [open_paths]. rewrite bool_decide_eq_true_2 by done.
    rewrite run_bind, Hrun1. cbv beta iota.
    rewrite run_bind, (deref_source_Some _ _ _ Hsrc1). cbv beta iota.
    cbn [fileName]. rewrite bool_decide_eq_false_2 by set_solver. done. }
  assert (Hlayer1 : ∀ w', sourceStore w' !! d = sourceStore w1 !! d →
                          layer_of w' user d root).
  { intros w' Hsame. eexists. rewrite Hsame. by split. }
  destruct (isAbsolute (asked path)) eqn:Habs.
  - exists ({[user]} ∪ ∅), ({[user]} ∪ ∅), w1, w1, d, root, [].
    split; [done|]. split.
    { cbn [open_paths]. rewrite run_bind, open_absolute_systemDir by done. done. }
    split; [done|]. split; [by apply Hlayer1|]. split; [constructor|].
    split; [cbn; lia|done].
  - destruct (Hsys eq_refl) as [Hmiss2 Hdiff]. fold sys user in Hmiss2, Hdiff.
    assert (Habs1 : isAbsolute (asked path) && true = false) by by rewrite Habs.
    assert (Hmiss2' : m_hash (sourceHash w1) !! canonical path true = None).
    { by rewrite Hhash1. }
    destruct (open_miss_spec path true false b w1 Habs1 Hmiss2')
      as (r2 & w2 & Hrun2 & Hext2 & Hframe2 & _ & Hres2).
    set (d2 := fresh (dom (sourceStore w1))) in *.
    assert (Hd2 : d ≠ d2).
    { intros Heq. apply (is_fresh (dom (sourceStore w1))). fold d2. rewrite <- Heq.
      by eapply elem_of_dom_2. }
    assert (Hd1 : sourceStore w2 !! d = sourceStore w1 !! d) by by apply Hframe2.
    destruct (_ && _) in Hres2.
    + destruct Hres2 as (-> & Hfs2 & Hloaded2).
      pose proof Hloaded2 as (root2 & a2 & t2 & Hsrc2 & _).
      exists ({[user]} ∪ ∅), ({[sys]} ∪ ({[user]} ∪ ∅)), w1, w2, d, root, [(d2, root2)].
      split; [done|]. split.
      { cbn [open_paths]. rewrite bool_decide_eq_false_2 by done.
        rewrite run_bind, Hrun2. cbv beta iota.
        rewrite run_bind, (deref_source_Some _ _ _ Hsrc2). cbv beta iota.
        cbn [fileName]. rewrite bool_decide_eq_false_2 by set_solver. done. }
      split; [by eapply extends_trans|]. split; [by apply Hlayer1|].
      split; [|split; [cbn; lia|done]].
      constructor; [|constructor]. split; [|done]. eexists. by split.
    + subst r2.
      exists ({[user]} ∪ ∅), ({[user]} ∪ ∅), w1, w2, d, root, [].
      split; [done|]. split.
      { cbn [open_paths]. rewrite bool_decide_eq_false_2 by done.
        rewrite run_bind, Hrun2. done. }
      split; [by eapply extends_trans|]. split; [by apply Hlayer1|].
      split; [constructor|]. split; [cbn; lia|done].
Qed.

Lemma source_roots_layers name w (layers : list (sref * loc)) :
  Forall (λ '(d, root), layer_of w name d root) layers →
  source_roots layers.*1 w = Ok layers.*2 w.
Proof.
  induction layers as [|[d root] layers IH]; intros Hall; [done|].
  apply Forall_cons in Hall as [(src & Hsrc & _ & Hdata & _) Hrest].
  cbn [fmap list_fmap source_roots fst snd].
  rewrite run_bind, (deref_source_Some _ _ _ Hsrc). cbv beta iota. rewrite Hdata.
  rewrite run_bind. change (list_fmap _ _ fst layers) with (layers.*1).
  rewrite (IH Hrest). done.
Qed.

(** X28.  A cursor made from one path, with the backend given and the cache
    holding neither of its names.  It always has the user file for its
    first source, made if it was not there, and at most one more, the
    system file; for an absolute path it has no second.  The atoms of its
    one frame are the roots of the sources in that order, then the
    fallbacks that are maps or lists, read-only: so a read finds the
    user's value first, then the system's, then the fallbacks'. *)
Theorem cursor_layers_user_system_fallbacks path fallbacks b w :
  let user := canonical path false in
  let sys := canonical path true in
  m_hash (sourceHash w) !! user = None →
  (isAbsolute (asked path) = false →
     m_hash (sourceHash w) !! sys = None ∧ sys ≠ user) →
  ∃ cfg w' d root (rest : list (sref * loc)) fallen,
    ConfigPrivate_open [path] fallbacks (Some b) w = Ok cfg w'
    ∧ memoryGuard cfg = None
    ∧ sources cfg = d :: rest.*1
    ∧ levels cfg = [mkLevel ((root :: rest.*2) ++ fallen) false]
    ∧ layer_of w' user d root
    ∧ Forall (λ '(d2, root2), layer_of w' sys d2 root2 ∧ d2 ≠ d) rest
    ∧ (length rest ≤ 1)%nat
    ∧ (isAbsolute (asked path) = true → rest = [])
    ∧ Forall2 (λ p v, fallback_of (heap w') p v ∧ p ∉ dom (heap w)) fallen
              (filter (λ v, value_or_null v = false) fallbacks).
Proof.
  intros user sys Hmiss Hsys.
  destruct (open_one_path path b w Hmiss Hsys)
    as (opened & opened' & w1 & w2 & d & root & rest & Hpass1 & Hpass2 & Hext
        & Hlayer & Hrest & Hlen & Habs).
  destruct (fallback_atoms_spec fallbacks (heap w2)) as (fallen & h' & Hfall & Hext' & Hall).
  exists (mkPrivate [mkLevel ((root :: rest.*2) ++ fallen) false] (d :: rest.*1) None),
    (set_heap h' w2), d, root, rest, fallen.
  split.
  { unfold ConfigPrivate_open. rewrite run_bind, Hpass1. cbv beta iota.
    rewrite run_bind, Hpass2. cbv beta iota.
    assert (Hroots : source_roots (d :: rest.*1) w2 = Ok (root :: rest.*2) w2).
    { destruct Hlayer as (src & Hsrc & _ & Hdata & _).
      cbn [source_roots]. rewrite run_bind, (deref_source_Some _ _ _ Hsrc).
      cbv beta iota. rewrite Hdata. rewrite run_bind.
      rewrite (source_roots_layers sys w2 rest); [done|].
      eapply Forall_impl; [exact Hrest|]. by intros [d2 root2] [? _]. }
    rewrite run_bind, Hroots. cbv beta iota.
    rewrite run_bind, run_on_heap, Hfall. done. }
  split; [done|]. split; [done|]. split; [done|].
  split; [exact Hlayer|]. split.
  { eapply Forall_impl; [exact Hrest|]. by intros [d2 root2]. }
  split; [done|]. split; [done|].
  eapply Forall2_impl; [exact Hall|]. cbn. intros p v [Hfb Hnew]. split; [done|].
  intros Hin. apply Hnew. by apply (extends_dom _ _ Hext).
Qed.

End Constructing.

Lemma cursor_layers_user_system_fallbacks_witness :
  ∃ cfg w' d root,
    ConfigPrivate_open ["t.json"%string]
      [QMapV {[ "k"%string := QScalar (QtInt 1) ]}; QScalar (QtInt 5)] (Some json)
      no_file_world = Ok cfg w'
    ∧ head (sources cfg) = Some d
    ∧ layer_of w' "/home/user/.config/qutim/t.json" d root
    ∧ (∃ more, levels cfg = [mkLevel (root :: more) false]).
Proof.
  destruct (cursor_layers_user_system_fallbacks "t.json"
              [QMapV {[ "k"%string := QScalar (QtInt 1) ]}; QScalar (QtInt 5)] json
              no_file_world)
    as (cfg & w' & d & root & rest & fallen & Hrun & _ & Hs & Hl & Hlayer & _).
  - reflexivity.
  - intros _. split; [reflexivity|discriminate].
  - exists cfg, w', d, root. split; [exact Hrun|]. split; [by rewrite Hs|].
    split; [exact Hlayer|]. exists (rest.*2 ++ fallen). exact Hl.
Defined.
